(** * Stream operators of genji's [document/stream] package

    A shallow embedding of [document/stream/operator.go]: the six stream
    operators (Map, Filter, Take, Skip, GroupBy, Reduce), the closures their
    [Op] methods build, and the properties of those closures.

    Go closures capture variables by reference.  The embedding keeps every
    captured variable that is written after the closure is built in an
    explicit heap: Environments ([var newEnv expr.Environment]) in [frames],
    [int64] counters ([count], [skipped]) in [counters].  A pointer
    to an Environment is an optional index into [frames]; [nil] is [None].
    An [OperatorFunc] is then an ordinary function in the heap monad [M],
    and two invocations of the same closure share whatever the first one
    left in the heap. *)

From Stdlib Require Import ZArith PrimFloat.
From stdpp Require Import gmap strings list.

Set Warnings "-register-all".
Open Scope Z_scope.

(** ** Errors *)

(** Go's [error] values.  [ErrStreamClosed] is the package's sentinel; the
    other constructors are the error kinds of the collaborators. *)
Inductive error : Type :=
| ErrStreamClosed
| EvaluationError (msg : string)
| TypeConversionError (msg : string)
| ErrNotFound.

(** A Go [(T, error)] result in which exactly one side is meaningful. *)
Inductive result (A : Type) : Type :=
| Ok (a : A)
| Error (e : error).
Arguments Ok {A} a.
Arguments Error {A} e.

(** ** Values (package [document]) *)

Inductive ValueType : Type :=
| NullValue | BoolValue | IntegerValue | DoubleValue
| TextValue | BlobValue | ArrayValue | DocumentValue.

(** Modelled from the spec: [document.Value] is declared outside
    [operator.go]; section 3 gives it as a tagged union of null, boolean,
    integer, double, text, blob, document (ordered field/value pairs) and
    array (ordered values). *)
Inductive Value : Type :=
| NewNullValue
| NewBoolValue (b : bool)
| NewIntegerValue (i : Z)
| NewDoubleValue (d : float)
| NewTextValue (s : string)
| NewBlobValue (bs : list Z)
| NewArrayValue (vs : list Value)
| NewDocumentValue (fields : list (string * Value)).

(** [v.Type] *)
Definition Value_Type (v : Value) : ValueType :=
  match v with
  | NewNullValue => NullValue
  | NewBoolValue _ => BoolValue
  | NewIntegerValue _ => IntegerValue
  | NewDoubleValue _ => DoubleValue
  | NewTextValue _ => TextValue
  | NewBlobValue _ => BlobValue
  | NewArrayValue _ => ArrayValue
  | NewDocumentValue _ => DocumentValue
  end.

(** [v.V.(int64)]: the type assertion succeeds on an integer payload only;
    [None] is the run-time panic of a failed assertion. *)
Definition Value_V_int64 (v : Value) : option Z :=
  match v with
  | NewIntegerValue i => Some i
  | _ => None
  end.

Definition ValueType_eqb (a b : ValueType) : bool :=
  match a, b with
  | NullValue, NullValue | BoolValue, BoolValue
  | IntegerValue, IntegerValue | DoubleValue, DoubleValue
  | TextValue, TextValue | BlobValue, BlobValue
  | ArrayValue, ArrayValue | DocumentValue, DocumentValue => true
  | _, _ => false
  end.

(** The methods of [document.Value] that the operators call.  They live in
    package [document]; the operators only rely on their signatures. *)
Class ValueMethods : Type := {
  IsTruthy : Value -> result bool;
  CastAsInteger : Value -> result Value
}.

(** ** int64 arithmetic *)

Definition int64_min : Z := - 2 ^ 63.
Definition int64_max : Z := 2 ^ 63 - 1.

Definition int64_range (z : Z) : Prop := int64_min <= z <= int64_max.

#[global]
Instance int64_range_dec (z : Z) : Decision (int64_range z).
Proof. unfold int64_range. apply _. Defined.

(** Two's-complement wrap-around of Go's [int64]. *)
Definition int64_wrap (z : Z) : Z := (z + 2 ^ 63) mod 2 ^ 64 - 2 ^ 63.

(** [x++] on an [int64] *)
Definition int64_incr (z : Z) : Z := int64_wrap (z + 1).

(** ** Environments (package [expr]) *)

(** A heap location. *)
Abbreviation loc := nat (only parsing).

(** A pointer to an [expr.Environment]; [None] is [nil]. *)
Abbreviation ptr := (option nat) (only parsing).

(** Modelled from the spec: [expr.Environment] is declared outside
    [operator.go]; section 3 gives a frame as local bindings from field
    names to Values, one current-value slot and an optional outer frame.
    The zero Environment has no binding, no current value and no outer
    frame. *)
Record Environment : Type := {
  Vars : gmap string Value;
  V : option Value;
  Outer : ptr
}.

Definition zero_Environment : Environment :=
  {| Vars := ∅; V := None; Outer := None |}.

(** ** The heap and its monad *)

Record Heap : Type := {
  frames : list Environment;
  counters : list Z
}.

Definition empty_Heap : Heap := {| frames := []; counters := [] |}.

(** A Go computation over the heap; [None] is a run-time panic (a failed
    type assertion, a nil or dangling dereference). *)
Definition M (A : Type) : Type := Heap -> option (A * Heap).

Definition M_ret {A : Type} (a : A) : M A := fun h => Some (a, h).

Definition M_bind {A B : Type} (m : M A) (k : A -> M B) : M B :=
  fun h => match m h with
           | Some (a, h') => k a h'
           | None => None
           end.

Definition M_panic {A : Type} : M A := fun _ => None.

Declare Scope go_scope.
Delimit Scope go_scope with go.
Notation "x <- m ;; k" := (M_bind m (fun x => k))
  (at level 100, m at next level, right associativity) : go_scope.
Notation "m ;;; k" := (M_bind m (fun _ => k))
  (at level 100, right associativity) : go_scope.
Open Scope go_scope.

(** [var env expr.Environment] / [&expr.Environment{}]: a fresh zero frame. *)
Definition new_Environment : M loc :=
  fun h => Some (length (frames h),
                 {| frames := frames h ++ [zero_Environment];
                    counters := counters h |}).

(** [var x int64] captured by a closure: a fresh cell holding zero. *)
Definition new_int64 : M loc :=
  fun h => Some (length (counters h),
                 {| frames := frames h; counters := counters h ++ [0] |}).

Definition load_int64 (c : loc) : M Z :=
  fun h => match counters h !! c with
           | Some z => Some (z, h)
           | None => None
           end.

Definition store_int64 (c : loc) (z : Z) : M unit :=
  fun h => match counters h !! c with
           | Some _ => Some (tt, {| frames := frames h;
                                    counters := <[c := z]> (counters h) |})
           | None => None
           end.

Definition load_Environment (l : loc) : M Environment :=
  fun h => match frames h !! l with
           | Some e => Some (e, h)
           | None => None
           end.

Definition update_Environment (l : loc) (f : Environment -> Environment) : M unit :=
  fun h => match frames h !! l with
           | Some e => Some (tt, {| frames := <[l := f e]> (frames h);
                                    counters := counters h |})
           | None => None
           end.

(** ** Environment methods *)

(** Modelled from the spec: [Environment.SetCurrentValue] is defined in
    package [expr]; section 4.1 makes it the setter of the current-value
    slot of the frame. *)
Definition Environment_SetCurrentValue (l : loc) (v : Value) : M unit :=
  update_Environment l
    (fun e => {| Vars := Vars e; V := Some v; Outer := Outer e |}).

(** Modelled from the spec: [Environment.Set] is defined in package [expr];
    section 4.1: binds the name in the local frame only and overwrites a
    prior local binding of that name. *)
Definition Environment_Set (l : loc) (name : string) (v : Value) : M unit :=
  update_Environment l
    (fun e => {| Vars := <[name := v]> (Vars e); V := V e; Outer := Outer e |}).

(** [e.Outer = env] *)
Definition Environment_set_Outer (l : loc) (env : ptr) : M unit :=
  update_Environment l
    (fun e => {| Vars := Vars e; V := V e; Outer := env |}).

(** Lexical lookup along the chain of outer frames.  The chain is followed
    for at most [fuel] frames; a chain without a cycle is never longer than
    the number of frames of the heap. *)
Fixpoint lookup_chain (fuel : nat) (fs : list Environment) (l : loc)
    (name : string) : option Value :=
  match fuel with
  | O => None
  | S fuel' =>
      match fs !! l with
      | None => None
      | Some e =>
          match Vars e !! name with
          | Some v => Some v
          | None =>
              match Outer e with
              | Some o => lookup_chain fuel' fs o name
              | None => None
              end
          end
      end
  end.

(** Modelled from the spec: [Environment.Get] is defined in package [expr];
    section 4.1: searches the local bindings, then the outer frames, and
    fails with NotFound when the chain is exhausted.  The operators pass a
    path of one field-name fragment, so the path is given by that name.
    On failure the model returns the null Value next to the error. *)
Definition Environment_Get (l : loc) (name : string) : M (Value * option error) :=
  fun h =>
    match frames h !! l with
    | None => None
    | Some _ =>
        match lookup_chain (S (length (frames h))) (frames h) l name with
        | Some v => Some ((v, None), h)
        | None => Some ((NewNullValue, Some ErrNotFound), h)
        end
    end.

(** ** Expressions (package [expr]) *)

(** The [expr.Expr] interface.  An expression is given by its [Eval]
    method, which reads the Environment it is handed (and whatever that
    Environment reaches) and has no effect on the heap. *)
Record Expr : Type := { Eval : Heap -> ptr -> result Value }.

(** [e.Eval(env)] as a step of a heap computation. *)
Definition Expr_Eval (e : Expr) (env : ptr) : M (result Value) :=
  fun h => Some (Eval e h env, h).

(** ** Operators *)

Definition groupEnvKey : string := "_group".
Definition accEnvKey : string := "_acc".

(** [type OperatorFunc]: from an Environment pointer to an Environment
    pointer and an error. *)
Definition OperatorFunc : Type := ptr -> M (ptr * option error).

(** The [Operator] interface: a value that has an [Op] method. *)
Record Operator : Type := { Op : M (result OperatorFunc) }.

Module MapOperator.

Record t : Type := { E : Expr }.

(** The closure returned by [Op]; [newEnv] is the variable it captures. *)
Definition func (m : t) (newEnv : loc) : OperatorFunc :=
  fun env =>
    r <- Expr_Eval (E m) env ;;
    match r with
    | Error err => M_ret (None, Some err)
    | Ok v =>
        Environment_SetCurrentValue newEnv v ;;;
        Environment_set_Outer newEnv env ;;;
        M_ret (Some newEnv, None)
    end.

Definition Op (m : t) : M (result OperatorFunc) :=
  newEnv <- new_Environment ;;
  M_ret (Ok (func m newEnv)).

Definition operator (m : t) : Operator := Build_Operator (Op m).

End MapOperator.

(** [func Map(e expr.Expr) *MapOperator] *)
Definition Map (e : Expr) : MapOperator.t := {| MapOperator.E := e |}.

Module FilterOperator.

Record t : Type := { E : Expr }.

Definition func `{VM : ValueMethods} (m : t) : OperatorFunc :=
  fun env =>
    r <- Expr_Eval (E m) env ;;
    match r with
    | Error err => M_ret (None, Some err)
    | Ok v =>
        match IsTruthy v with
        | Error err => M_ret (None, Some err)
        | Ok ok =>
            if negb ok then M_ret (None, None)
            else M_ret (env, None)
        end
    end.

Definition Op `{VM : ValueMethods} (m : t) : M (result OperatorFunc) :=
  M_ret (Ok (func m)).

Definition operator `{VM : ValueMethods} (m : t) : Operator := Build_Operator (Op m).

End FilterOperator.

(** [func Filter(e expr.Expr) *FilterOperator] *)
Definition Filter (e : Expr) : FilterOperator.t := {| FilterOperator.E := e |}.

Module TakeOperator.

Record t : Type := { E : Expr }.

(** The closure returned by [Op]: [n] is never written after the closure
    is built, [count] is the captured counter. *)
Definition func (n : Z) (count : loc) : OperatorFunc :=
  fun env =>
    c <- load_int64 count ;;
    if c <? n then
      store_int64 count (int64_incr c) ;;;
      M_ret (env, None)
    else M_ret (None, Some ErrStreamClosed).

Definition Op `{VM : ValueMethods} (m : t) : M (result OperatorFunc) :=
  count <- new_int64 ;;
  empty <- new_Environment ;;
  r <- Expr_Eval (E m) (Some empty) ;;
  match r with
  | Error err => M_ret (Error err)
  | Ok v =>
      let r' := if negb (ValueType_eqb (Value_Type v) IntegerValue)
                then CastAsInteger v else Ok v in
      match r' with
      | Error err => M_ret (Error err)
      | Ok v' =>
          match Value_V_int64 v' with
          | None => M_panic
          | Some n => M_ret (Ok (func n count))
          end
      end
  end.

Definition operator `{VM : ValueMethods} (m : t) : Operator := Build_Operator (Op m).

End TakeOperator.

(** [func Take(n expr.Expr) *TakeOperator] *)
Definition Take (n : Expr) : TakeOperator.t := {| TakeOperator.E := n |}.

Module SkipOperator.

Record t : Type := { E : Expr }.

Definition func (n : Z) (skipped : loc) : OperatorFunc :=
  fun env =>
    s <- load_int64 skipped ;;
    if s <? n then
      store_int64 skipped (int64_incr s) ;;;
      M_ret (None, None)
    else M_ret (env, None).

Definition Op `{VM : ValueMethods} (m : t) : M (result OperatorFunc) :=
  skipped <- new_int64 ;;
  empty <- new_Environment ;;
  r <- Expr_Eval (E m) (Some empty) ;;
  match r with
  | Error err => M_ret (Error err)
  | Ok v =>
      let r' := if negb (ValueType_eqb (Value_Type v) IntegerValue)
                then CastAsInteger v else Ok v in
      match r' with
      | Error err => M_ret (Error err)
      | Ok v' =>
          match Value_V_int64 v' with
          | None => M_panic
          | Some n => M_ret (Ok (func n skipped))
          end
      end
  end.

Definition operator `{VM : ValueMethods} (m : t) : Operator := Build_Operator (Op m).

End SkipOperator.

(** [func Skip(n expr.Expr) *SkipOperator] *)
Definition Skip (n : Expr) : SkipOperator.t := {| SkipOperator.E := n |}.

Module GroupByOperator.

Record t : Type := { E : Expr }.

Definition func (op : t) (newEnv : loc) : OperatorFunc :=
  fun env =>
    r <- Expr_Eval (E op) env ;;
    match r with
    | Error err => M_ret (None, Some err)
    | Ok v =>
        Environment_Set newEnv groupEnvKey v ;;;
        Environment_set_Outer newEnv env ;;;
        M_ret (Some newEnv, None)
    end.

Definition Op (op : t) : M (result OperatorFunc) :=
  newEnv <- new_Environment ;;
  M_ret (Ok (func op newEnv)).

Definition operator (op : t) : Operator := Build_Operator (Op op).

End GroupByOperator.

(** [func GroupBy(e expr.Expr) *GroupByOperator] *)
Definition GroupBy (e : Expr) : GroupByOperator.t := {| GroupByOperator.E := e |}.

(** ** Streams *)

Module Stream.

(** Modelled from the spec: [Stream] and its [Iterate] are defined in
    [stream.go], outside [operator.go].  Section 3: a Stream is a source,
    which produces a forward-only sequence of Environments, plus an
    ordered list of Operators applied left to right.  The source is given
    by the Environments it pushes and by the error, if any, with which
    its own traversal ends. *)
Record t : Type := {
  source : list loc;
  source_err : option error;
  operators : list Operator
}.

(** A callback [func(env) error] that owns a state of type [U]. *)
Definition callback (U : Type) : Type := ptr -> U -> M (option error * U).

(** Modelled from the spec: section 7, an error from the construction of
    an operator aborts the traversal; every operator's step function is
    built once per traversal. *)
Fixpoint construct (ops : list Operator) : M (result (list OperatorFunc)) :=
  match ops with
  | [] => M_ret (Ok [])
  | op :: ops' =>
      r <- Op op ;;
      match r with
      | Error err => M_ret (Error err)
      | Ok f =>
          r' <- construct ops' ;;
          match r' with
          | Error err => M_ret (Error err)
          | Ok fs => M_ret (Ok (f :: fs))
          end
      end
  end.

(** Modelled from the spec: section 4.2, the step functions are applied in
    sequence, threading the possibly replaced Environment; a null
    Environment or an error ends the sequence for this item. *)
Fixpoint apply (fs : list OperatorFunc) (env : ptr) : M (ptr * option error) :=
  match fs with
  | [] => M_ret (env, None)
  | f :: fs' =>
      r <- f env ;;
      match r with
      | (_, Some err) => M_ret (None, Some err)
      | (None, None) => M_ret (None, None)
      | (Some l, None) => apply fs' (Some l)
      end
  end.

(** Modelled from the spec: sections 6 and 7, the stream-closed sentinel
    is recognised by the traversal driver, which consumes it and ends the
    traversal cleanly; every other error is passed on as it is. *)
Definition consume (err : option error) : option error :=
  match err with
  | Some ErrStreamClosed => None
  | _ => err
  end.

(** Modelled from the spec: section 4.2, the traversal loop.  A null
    Environment skips the callback and goes on with the next item; an
    error of a step function or of the callback stops the traversal and
    is returned, the stream-closed sentinel as a clean end; when the
    source is exhausted the traversal ends as the source did, the sentinel
    again consumed. *)
Fixpoint drive {U : Type} (fs : list OperatorFunc) (fn : callback U)
    (ending : option error) (items : list loc) (u : U) : M (option error * U) :=
  match items with
  | [] => M_ret (consume ending, u)
  | l :: items' =>
      r <- apply fs (Some l) ;;
      match r with
      | (_, Some err) => M_ret (consume (Some err), u)
      | (None, None) => drive fs fn ending items' u
      | (Some l', None) =>
          r' <- fn (Some l') u ;;
          match r' with
          | (Some err, u') => M_ret (consume (Some err), u')
          | (None, u') => drive fs fn ending items' u'
          end
      end
  end.

(** Modelled from the spec: section 4.2, [iterate(callback)]. *)
Definition Iterate {U : Type} (s : t) (fn : callback U) (u : U) : M (option error * U) :=
  r <- construct (operators s) ;;
  match r with
  | Error err => M_ret (Some err, u)
  | Ok fs => drive fs fn (source_err s) (source s) u
  end.

(** Modelled from the spec: section 4.2, [pipe(operator)] extends the
    operator list by one entry. *)
Definition Pipe (s : t) (op : Operator) : t :=
  {| source := source s; source_err := source_err s;
     operators := operators s ++ [op] |}.

(** A callback that keeps the Environments it is handed, oldest first. *)
Definition collect : callback (list ptr) :=
  fun env seen => M_ret (None, seen ++ [env]).

End Stream.

Module ReduceOperator.

Record t : Type := {
  Seed : Expr;
  Accumulator : Expr;
  Stream : Stream.t
}.

(** The callback handed to [op.Stream.Iterate]. *)
Definition accumulate (op : t) (newEnv : loc) : Stream.callback unit :=
  fun env _ =>
    Environment_set_Outer newEnv env ;;;
    r <- Expr_Eval (Accumulator op) (Some newEnv) ;;
    match r with
    | Error err => M_ret (Some err, tt)
    | Ok v =>
        Environment_Set newEnv accEnvKey v ;;;
        M_ret (None, tt)
    end.

(** The closure returned by [Op]. *)
Definition func (newEnv : loc) : OperatorFunc :=
  fun env =>
    r <- Environment_Get newEnv accEnvKey ;;
    Environment_SetCurrentValue newEnv (fst r) ;;;
    Environment_set_Outer newEnv env ;;;
    M_ret (Some newEnv, None).

Definition Op (op : t) : M (result OperatorFunc) :=
  newEnv <- new_Environment ;;
  r <- Expr_Eval (Seed op) (Some newEnv) ;;
  match r with
  | Error err => M_ret (Error err)
  | Ok seed =>
      Environment_Set newEnv accEnvKey seed ;;;
      r' <- Stream.Iterate (Stream op) (accumulate op newEnv) tt ;;
      match fst r' with
      | Some err => M_ret (Error err)
      | None => M_ret (Ok (func newEnv))
      end
  end.

Definition operator (op : t) : Operator := Build_Operator (Op op).

(** [Pipe] stores [s] in the operator and returns the stream with the
    operator appended; the operator is returned as it is after the store. *)
Definition Pipe (op : t) (s : Stream.t) : t * Stream.t :=
  let op' := {| Seed := Seed op; Accumulator := Accumulator op; Stream := s |} in
  (op', Stream.Pipe s (operator op')).

End ReduceOperator.


(** ** Take and Skip with the evaluations made visible

    An evaluation of a pure expression leaves no mark on the heap.  To
    count evaluations, [Op] and the closures of Take and Skip are read a
    second time in a heap monad that also reports every call of [Eval]
    made, with the expression and the Environment of the call, in order. *)

Module Traced.

(** A heap computation that reports the evaluations it has made. *)
Definition T (A : Type) : Type := M (A * list (Expr * ptr)).

Definition ret {A : Type} (a : A) : T A := fun h => Some ((a, []), h).

Definition bind {A B : Type} (m : T A) (k : A -> T B) : T B :=
  fun h => match m h with
           | Some ((a, t1), h') =>
               match k a h' with
               | Some ((b, t2), h'') => Some ((b, t1 ++ t2), h'')
               | None => None
               end
           | None => None
           end.

(** A step that evaluates nothing. *)
Definition lift {A : Type} (m : M A) : T A :=
  fun h => match m h with
           | Some (a, h') => Some ((a, []), h')
           | None => None
           end.

(** [e.Eval(env)], reported. *)
Definition eval (e : Expr) (env : ptr) : T (result Value) :=
  fun h => Some ((Eval e h env, [(e, env)]), h).

(** The computation without its report. *)
Definition erase {A : Type} (m : T A) : M A :=
  fun h => match m h with
           | Some ((a, _), h') => Some (a, h')
           | None => None
           end.

(** The evaluations a computation makes from heap [h]; none if it
    panics. *)
Definition evaluations {A : Type} (m : T A) (h : Heap) : list (Expr * ptr) :=
  match m h with
  | Some ((_, t), _) => t
  | None => []
  end.

(** [type OperatorFunc] *)
Definition Func : Type := ptr -> T (ptr * option error).

(** The closure returned by [TakeOperator.Op]. *)
Definition take_func (n : Z) (count : loc) : Func :=
  fun env =>
    bind (lift (load_int64 count)) (fun c =>
    if c <? n then
      bind (lift (store_int64 count (int64_incr c))) (fun _ =>
      ret (env, None))
    else ret (None, Some ErrStreamClosed)).

(** [func (m *TakeOperator) Op() (OperatorFunc, error)] *)
Definition take_Op `{VM : ValueMethods} (m : TakeOperator.t) : T (result Func) :=
  bind (lift new_int64) (fun count =>
  bind (lift new_Environment) (fun empty =>
  bind (eval (TakeOperator.E m) (Some empty)) (fun r =>
  match r with
  | Error err => ret (Error err)
  | Ok v =>
      let r' := if negb (ValueType_eqb (Value_Type v) IntegerValue)
                then CastAsInteger v else Ok v in
      match r' with
      | Error err => ret (Error err)
      | Ok v' =>
          match Value_V_int64 v' with
          | None => lift M_panic
          | Some n => ret (Ok (take_func n count))
          end
      end
  end))).

(** The closure returned by [SkipOperator.Op]. *)
Definition skip_func (n : Z) (skipped : loc) : Func :=
  fun env =>
    bind (lift (load_int64 skipped)) (fun s =>
    if s <? n then
      bind (lift (store_int64 skipped (int64_incr s))) (fun _ =>
      ret (None, None))
    else ret (env, None)).

(** [func (m *SkipOperator) Op() (OperatorFunc, error)] *)
Definition skip_Op `{VM : ValueMethods} (m : SkipOperator.t) : T (result Func) :=
  bind (lift new_int64) (fun skipped =>
  bind (lift new_Environment) (fun empty =>
  bind (eval (SkipOperator.E m) (Some empty)) (fun r =>
  match r with
  | Error err => ret (Error err)
  | Ok v =>
      let r' := if negb (ValueType_eqb (Value_Type v) IntegerValue)
                then CastAsInteger v else Ok v in
      match r' with
      | Error err => ret (Error err)
      | Ok v' =>
          match Value_V_int64 v' with
          | None => lift M_panic
          | Some n => ret (Ok (skip_func n skipped))
          end
      end
  end))).

(** Successive invocations of one closure, their reports in a row. *)
Fixpoint invoke_all (f : Func) (envs : list ptr) : T (list (ptr * option error)) :=
  match envs with
  | [] => ret []
  | env :: envs' =>
      bind (f env) (fun r =>
      bind (invoke_all f envs') (fun rs =>
      ret (r :: rs)))
  end.

End Traced.

(** ** The [String] methods *)

(** The verb [%s] of [fmt.Sprintf] applied to an expression: the text the
    expression formats itself to.  The formatting belongs to the concrete
    expression types, outside [operator.go]. *)
Class ExprFormat : Type := { Sprint_s : Expr -> string }.

(** [func (m *MapOperator) String() string] *)
Definition MapOperator_String `{EF : ExprFormat} (m : MapOperator.t) : string :=
  "map(" +:+ Sprint_s (MapOperator.E m) +:+ ")".

(** [func (m *FilterOperator) String() string] *)
Definition FilterOperator_String `{EF : ExprFormat} (m : FilterOperator.t) : string :=
  "filter(" +:+ Sprint_s (FilterOperator.E m) +:+ ")".

(** [func (m *TakeOperator) String() string] *)
Definition TakeOperator_String `{EF : ExprFormat} (m : TakeOperator.t) : string :=
  "take(" +:+ Sprint_s (TakeOperator.E m) +:+ ")".

(** [func (m *SkipOperator) String() string] *)
Definition SkipOperator_String `{EF : ExprFormat} (m : SkipOperator.t) : string :=
  "skip(" +:+ Sprint_s (SkipOperator.E m) +:+ ")".

(** [func (op *GroupByOperator) String() string] *)
Definition GroupByOperator_String `{EF : ExprFormat} (op : GroupByOperator.t) : string :=
  "groupBy(" +:+ Sprint_s (GroupByOperator.E op) +:+ ")".

(** [func (op *ReduceOperator) String() string] *)
Definition ReduceOperator_String `{EF : ExprFormat} (op : ReduceOperator.t) : string :=
  "reduce(" +:+ Sprint_s (ReduceOperator.Seed op) +:+ ", "
  +:+ Sprint_s (ReduceOperator.Accumulator op) +:+ ")".

(** ** Sample collaborators

    Concrete expressions and Value methods on which the operators can be
    run. *)

Module Sample.

(** Booleans and integers are truthy when non-zero, null is falsy, the
    other types have no truthiness. *)
Definition isTruthy (v : Value) : result bool :=
  match v with
  | NewNullValue => Ok false
  | NewBoolValue b => Ok b
  | NewIntegerValue i => Ok (negb (i =? 0))
  | _ => Error (TypeConversionError "not truthy")
  end.

(** Booleans cast to 0 or 1, integers to themselves, nothing else casts. *)
Definition castAsInteger (v : Value) : result Value :=
  match v with
  | NewBoolValue b => Ok (NewIntegerValue (if b then 1 else 0))
  | NewIntegerValue i => Ok (NewIntegerValue i)
  | _ => Error (TypeConversionError "cannot cast to integer")
  end.

Definition methods : ValueMethods :=
  {| IsTruthy := isTruthy; CastAsInteger := castAsInteger |}.

(** A literal. *)
Definition lit (v : Value) : Expr := {| Eval := fun _ _ => Ok v |}.


(** The current value of the nearest frame of the chain that has one. *)
Fixpoint current_chain (fuel : nat) (fs : list Environment) (l : loc) : option Value :=
  match fuel with
  | O => None
  | S fuel' =>
      match fs !! l with
      | None => None
      | Some e =>
          match V e with
          | Some v => Some v
          | None =>
              match Outer e with
              | Some o => current_chain fuel' fs o
              | None => None
              end
          end
      end
  end.

Definition current_of (h : Heap) (env : ptr) : option Value :=
  match env with
  | Some l => current_chain (S (length (frames h))) (frames h) l
  | None => None
  end.

(** The row being processed. *)
Definition current : Expr :=
  {| Eval := fun h env =>
       match current_of h env with
       | Some v => Ok v
       | None => Error (EvaluationError "no current value")
       end |}.

(** A variable, looked up lexically. *)
Definition var (name : string) : Expr :=
  {| Eval := fun h env =>
       match env with
       | Some l =>
           match lookup_chain (S (length (frames h))) (frames h) l name with
           | Some v => Ok v
           | None => Error ErrNotFound
           end
       | None => Error ErrNotFound
       end |}.

(** Integer addition of two expressions. *)
Definition add (a b : Expr) : Expr :=
  {| Eval := fun h env =>
       match Eval a h env, Eval b h env with
       | Ok (NewIntegerValue x), Ok (NewIntegerValue y) =>
           Ok (NewIntegerValue (int64_wrap (x + y)))
       | Error err, _ => Error err
       | _, Error err => Error err
       | _, _ => Error (EvaluationError "cannot add")
       end |}.

(** [a > k] for an integer literal [k]. *)
Definition gt (a : Expr) (k : Z) : Expr :=
  {| Eval := fun h env =>
       match Eval a h env with
       | Ok (NewIntegerValue x) => Ok (NewBoolValue (k <? x))
       | Ok _ => Error (EvaluationError "cannot compare")
       | Error err => Error err
       end |}.

(** A heap whose frames are rows holding the given integers. *)
Definition rows (xs : list Z) : Heap :=
  {| frames := List.map (fun x => {| Vars := ∅; V := Some (NewIntegerValue x);
                                Outer := None |}) xs;
     counters := [] |}.


(** A formatting of expressions: a literal text formats to itself, a
    literal integer to ["n"], anything else to ["?"]. *)
Definition sprint (e : Expr) : string :=
  match Eval e empty_Heap None with
  | Ok (NewTextValue s) => s
  | Ok (NewIntegerValue _) => "n"
  | _ => "?"
  end.

Definition format : ExprFormat := {| Sprint_s := sprint |}.

End Sample.

(** ** Statement vocabulary *)

(** The heap in which Take and Skip evaluate their count: the captured
    counter and the empty Environment have just been allocated. *)
Definition count_heap (h : Heap) : Heap :=
  {| frames := frames h ++ [zero_Environment];
     counters := counters h ++ [0] |}.

(** The count expression [e], evaluated against the empty Environment in
    heap [h], gives the integer [n]: either directly, or through
    [CastAsInteger]. *)
Definition count_is `{VM : ValueMethods} (e : Expr) (h : Heap) (n : Z) : Prop :=
  exists v, Eval e (count_heap h) (Some (length (frames h))) = Ok v /\
    (v = NewIntegerValue n \/
     (Value_Type v <> IntegerValue /\ CastAsInteger v = Ok (NewIntegerValue n))).

(** Successive invocations of one step function, whatever each returns. *)
Fixpoint invoke_all (f : OperatorFunc) (envs : list ptr) : M (list (ptr * option error)) :=
  match envs with
  | [] => M_ret []
  | env :: envs' =>
      r <- f env ;;
      rs <- invoke_all f envs' ;;
      M_ret (r :: rs)
  end.

(** The heap [h] with counter [c] set to [z]. *)
Definition with_counter (h : Heap) (c : loc) (z : Z) : Heap :=
  {| frames := frames h; counters := <[c := z]> (counters h) |}.

(** The heap [h] with frame [l] set to [e]. *)
Definition with_frame (h : Heap) (l : loc) (e : Environment) : Heap :=
  {| frames := <[l := e]> (frames h); counters := counters h |}.

(** The heap [h] after [var newEnv expr.Environment]; the new frame is at
    [length (frames h)]. *)
Definition with_new_frame (h : Heap) : Heap :=
  {| frames := frames h ++ [zero_Environment]; counters := counters h |}.

(** A callback that records the frame it is handed as the frame is at that
    moment. *)
Definition snapshot : Stream.callback (list Environment) :=
  fun env seen =>
    match env with
    | Some l => e <- load_Environment l ;; M_ret (None, seen ++ [e])
    | None => M_panic
    end.

(** A stream that is only a source: it pushes [items] and ends with
    [ending]. *)
Definition source_stream (items : list loc) (ending : option error) : Stream.t :=
  {| Stream.source := items; Stream.source_err := ending; Stream.operators := [] |}.

(** Reduce's output frame while the sub-stream is drained: the accumulator
    [a] bound under [accEnvKey], no current value, outer frame [outer]. *)
Definition acc_frame (a : Value) (outer : ptr) : Environment :=
  {| Vars := <[accEnvKey := a]> ∅; V := None; Outer := outer |}.

(** [acc(a, item)]: the accumulator expression evaluated against Reduce's
    output frame at [newEnv], in which [accEnvKey] is bound to [a] and whose
    outer frame is [item]. *)
Definition acc_apply (acc : Expr) (h : Heap) (newEnv : loc) (a : Value)
    (item : loc) : result Value :=
  (Eval acc (with_frame h newEnv (acc_frame a (Some item))) (Some newEnv)).

(** The left-to-right fold of a fallible step over the items, from [a]. *)
Fixpoint fold_acc (step : Value -> loc -> result Value) (a : Value)
    (items : list loc) : result Value :=
  match items with
  | [] => Ok a
  | item :: items' =>
      match step a item with
      | Ok a' => fold_acc step a' items'
      | Error err => Error err
      end
  end.

(** The outer frame Reduce's output frame is left with after the items. *)
Definition last_outer (outer : ptr) (items : list loc) : ptr :=
  match last items with
  | Some item => Some item
  | None => outer
  end.




(** Every character of the string is a printable ASCII character. *)
Definition printable (s : string) : bool :=
  forallb (fun c => (32 <=? Z.of_nat (Ascii.nat_of_ascii c))
                    && (Z.of_nat (Ascii.nat_of_ascii c) <=? 126))
          (String.list_ascii_of_string s).

(** The predicate [e] holds of the Environment at [l]: it evaluates, and
    its value is truthy. *)
Definition truthy `{VM : ValueMethods} (e : Expr) (h : Heap) (l : loc) : bool :=
  match Eval e h (Some l) with
  | Ok v => match IsTruthy v with Ok b => b | Error _ => false end
  | Error _ => false
  end.

(** GroupBy's output frame after a step on [item] whose key is [key]. *)
Definition group_frame (key : Value) (item : loc) : Environment :=
  {| Vars := <[groupEnvKey := key]> ∅; V := None; Outer := Some item |}.

(** The heap [h] after the allocation of Reduce's output frame, at
    [length (frames h)], and of the output frame of a GroupBy in its
    sub-stream, at the next location. *)
Definition with_two_new_frames (h : Heap) : Heap :=
  with_new_frame (with_new_frame h).

(** A callback that stands for any callback whose only effect is to
    rewrite the frame at [nl]: it records the Environment it is handed
    together with the heap of that moment, then sets the frame at [nl] to
    what [w] chooses. *)
Definition stand_in (nl : loc) (w : loc -> Heap -> Environment)
    : Stream.callback (list (loc * Heap)) :=
  fun env seen h =>
    match env, frames h !! nl with
    | Some l, Some _ => Some ((None, seen ++ [(l, h)]), with_frame h nl (w l h))
    | _, _ => None
    end.

(** What [stand_in nl w] records, and what it leaves in the frame at [nl],
    over a traversal that hands it the Environments of [trace], each in the
    heap of its entry, when the frame at [nl] holds [x] at the start and is
    written by the callback only. *)
Fixpoint weave (nl : loc) (w : loc -> Heap -> Environment) (x : Environment)
    (trace : list (loc * Heap)) : list (loc * Heap) * Environment :=
  match trace with
  | [] => ([], x)
  | (l, hk) :: trace' =>
      let h := with_frame hk nl x in
      let rest := weave nl w (w l h) trace' in
      ((l, h) :: fst rest, snd rest)
  end.

(** The stream [s], traversed from heap [h0], hands its callback the
    Environments of [trace], each in the heap of that moment, returns
    [ending] and leaves the heap [hfin]; and it does so apart from the frame
    at [nl], which it neither reads nor writes: whatever that frame holds
    at the start and whatever the callback writes into it, the traversal
    is the same and the frame is as the callback left it. *)
Definition hands_over (s : Stream.t) (nl : loc) (h0 : Heap)
    (trace : list (loc * Heap)) (ending : option error) (hfin : Heap) : Prop :=
  is_Some (frames hfin !! nl) /\
  forall (w : loc -> Heap -> Environment) (x : Environment),
    Stream.Iterate s (stand_in nl w) [] (with_frame h0 nl x)
    = Some ((ending, fst (weave nl w x trace)),
            with_frame hfin nl (snd (weave nl w x trace))).

(** The left-to-right fold of the accumulator expression [acc] over a
    trace, from [a]: each Environment is folded in the heap of its
    entry. *)
Fixpoint fold_trace (acc : Expr) (nl : loc) (a : Value)
    (trace : list (loc * Heap)) : result Value :=
  match trace with
  | [] => Ok a
  | (l, hk) :: trace' =>
      match acc_apply acc hk nl a l with
      | Ok a' => fold_trace acc nl a' trace'
      | Error err => Error err
      end
  end.


(** The error, if any, of one call of Reduce's accumulation callback on
    the Environment [l] in heap [h], and what the call leaves in the frame
    at [nl]. *)
Definition acc_write (acc : Expr) (nl : loc) (l : loc) (h : Heap)
    : option error * Environment :=
  match frames h !! nl with
  | Some e =>
      let e1 := {| Vars := Vars e; V := V e; Outer := Some l |} in
      match Eval acc (with_frame h nl e1) (Some nl) with
      | Ok v => (None, {| Vars := <[accEnvKey := v]> (Vars e1);
                          V := V e1; Outer := Outer e1 |})
      | Error err => (Some err, e1)
      end
  | None => (None, zero_Environment)
  end.

(** The predicate of the Filter evaluates, and its value has a truthiness,
    on every Environment of [S]. *)
Definition evaluates_on `{VM : ValueMethods} (m : FilterOperator.t) (h : Heap)
    (S : list loc) : Prop :=
  forall l, l ∈ S ->
    exists v b, Eval (FilterOperator.E m) h (Some l) = Ok v /\ IsTruthy v = Ok b.

Definition passed (env : loc) : ptr * option error := (Some env, None).
Definition suppressed : ptr * option error := (None, None).
Definition closed : ptr * option error := (None, Some ErrStreamClosed).

(** * Properties *)

Section Properties.

Context `{VM : ValueMethods}.

(** ** The heap monad *)

Lemma M_bind_Some {A B : Type} (m : M A) (k : A -> M B) (h h' : Heap) (a : A) :
  m h = Some (a, h') -> M_bind m k h = k a h'.
Proof. intros Hm. unfold M_bind. rewrite Hm. reflexivity. Qed.

(** ** int64 *)

Lemma int64_incr_exact (k n : Z) :
  0 <= k -> k < n -> int64_range n -> int64_incr k = k + 1.
Proof.
  unfold int64_range, int64_max, int64_min, int64_incr, int64_wrap.
  intros Hk Hlt [_ Hn].
  rewrite Z.mod_small; lia.
Qed.

(** ** Construction of Take and Skip *)

Lemma count_is_inv (e : Expr) (h : Heap) (n : Z) :
  count_is e h n ->
  exists v, Eval e (count_heap h) (Some (length (frames h))) = Ok v /\
    (if negb (ValueType_eqb (Value_Type v) IntegerValue)
     then CastAsInteger v else Ok v) = Ok (NewIntegerValue n).
Proof.
  intros (v & Hv & Hcase). exists v. split; [exact Hv|].
  destruct Hcase as [Hint | [Hty Hcast]].
  - rewrite Hint. reflexivity.
  - destruct v; simpl in *; congruence.
Qed.

Lemma take_op_ok (m : TakeOperator.t) (h : Heap) (n : Z) :
  count_is (TakeOperator.E m) h n ->
  TakeOperator.Op m h
  = Some (Ok (TakeOperator.func n (length (counters h))), count_heap h).
Proof.
  intros Hc. apply count_is_inv in Hc as (v & Hv & Hcast).
  unfold TakeOperator.Op, M_bind, new_int64, new_Environment, Expr_Eval. simpl.
  unfold count_heap in Hv |- *. rewrite Hv, Hcast. reflexivity.
Qed.

Lemma skip_op_ok (m : SkipOperator.t) (h : Heap) (n : Z) :
  count_is (SkipOperator.E m) h n ->
  SkipOperator.Op m h
  = Some (Ok (SkipOperator.func n (length (counters h))), count_heap h).
Proof.
  intros Hc. apply count_is_inv in Hc as (v & Hv & Hcast).
  unfold SkipOperator.Op, M_bind, new_int64, new_Environment, Expr_Eval. simpl.
  unfold count_heap in Hv |- *. rewrite Hv, Hcast. reflexivity.
Qed.

Lemma count_heap_counter (h : Heap) :
  counters (count_heap h) !! length (counters h) = Some 0.
Proof. simpl. apply list_lookup_middle. reflexivity. Qed.

Lemma Value_V_int64_Some (v : Value) (n : Z) :
  Value_V_int64 v = Some n -> v = NewIntegerValue n.
Proof. destruct v; simpl; congruence. Qed.

Lemma ValueType_eqb_eq (a b : ValueType) : ValueType_eqb a b = true <-> a = b.
Proof. destruct a, b; simpl; split; congruence. Qed.

Lemma take_op_inv (m : TakeOperator.t) (h h1 : Heap) (f : OperatorFunc) :
  TakeOperator.Op m h = Some (Ok f, h1) ->
  exists n, count_is (TakeOperator.E m) h n
            /\ f = TakeOperator.func n (length (counters h))
            /\ h1 = count_heap h.
Proof.
  unfold TakeOperator.Op, M_bind, new_int64, new_Environment, Expr_Eval. simpl.
  change {| frames := frames h ++ [zero_Environment];
            counters := counters h ++ [0] |} with (count_heap h).
  destruct (Eval (TakeOperator.E m) (count_heap h) (Some (length (frames h))))
    as [v|err] eqn:Hv; [|discriminate].
  destruct (negb (ValueType_eqb (Value_Type v) IntegerValue)) eqn:Hty.
  - destruct (CastAsInteger v) as [v'|err] eqn:Hcast; [|discriminate].
    destruct (Value_V_int64 v') as [n|] eqn:Hn; [|discriminate].
    intros [= <- <-]. exists n. split; [|auto].
    exists v. split; [exact Hv|]. right. split.
    + intros Heq. rewrite Heq in Hty. discriminate.
    + apply Value_V_int64_Some in Hn. congruence.
  - destruct (Value_V_int64 v) as [n|] eqn:Hn; [|discriminate].
    intros [= <- <-]. exists n. split; [|auto].
    exists v. split; [exact Hv|]. left. apply Value_V_int64_Some. exact Hn.
Qed.

Lemma skip_op_inv (m : SkipOperator.t) (h h1 : Heap) (f : OperatorFunc) :
  SkipOperator.Op m h = Some (Ok f, h1) ->
  exists n, count_is (SkipOperator.E m) h n
            /\ f = SkipOperator.func n (length (counters h))
            /\ h1 = count_heap h.
Proof.
  unfold SkipOperator.Op, M_bind, new_int64, new_Environment, Expr_Eval. simpl.
  change {| frames := frames h ++ [zero_Environment];
            counters := counters h ++ [0] |} with (count_heap h).
  destruct (Eval (SkipOperator.E m) (count_heap h) (Some (length (frames h))))
    as [v|err] eqn:Hv; [|discriminate].
  destruct (negb (ValueType_eqb (Value_Type v) IntegerValue)) eqn:Hty.
  - destruct (CastAsInteger v) as [v'|err] eqn:Hcast; [|discriminate].
    destruct (Value_V_int64 v') as [n|] eqn:Hn; [|discriminate].
    intros [= <- <-]. exists n. split; [|auto].
    exists v. split; [exact Hv|]. right. split.
    + intros Heq. rewrite Heq in Hty. discriminate.
    + apply Value_V_int64_Some in Hn. congruence.
  - destruct (Value_V_int64 v) as [n|] eqn:Hn; [|discriminate].
    intros [= <- <-]. exists n. split; [|auto].
    exists v. split; [exact Hv|]. left. apply Value_V_int64_Some. exact Hn.
Qed.

(** ** The Take closure, one invocation *)

Lemma take_func_pass (n : Z) (c : loc) (env : ptr) (h : Heap) (k : Z) :
  counters h !! c = Some k -> k < n ->
  TakeOperator.func n c env h
  = Some ((env, None), with_counter h c (int64_incr k)).
Proof.
  intros Hc Hlt.
  unfold TakeOperator.func, M_bind, load_int64, store_int64, M_ret.
  rewrite Hc. destruct (Z.ltb_spec k n); [|lia].
  rewrite Hc. reflexivity.
Qed.

Lemma take_func_closed (n : Z) (c : loc) (env : ptr) (h : Heap) (k : Z) :
  counters h !! c = Some k -> n <= k ->
  TakeOperator.func n c env h = Some (closed, h).
Proof.
  intros Hc Hge.
  unfold TakeOperator.func, M_bind, load_int64, M_ret.
  rewrite Hc. destruct (Z.ltb_spec k n); [lia|]. reflexivity.
Qed.

Lemma with_counter_lookup (h : Heap) (c : loc) (k z : Z) :
  counters h !! c = Some k -> counters (with_counter h c z) !! c = Some z.
Proof.
  intros Hc. simpl. apply list_lookup_insert_eq.
  apply lookup_lt_Some in Hc. exact Hc.
Qed.

(** ** The Take closure over a sequence *)

Lemma take_invoke_all (n : Z) (c : loc) (S : list loc) :
  int64_range n ->
  forall (h : Heap) (k : Z),
    counters h !! c = Some k -> 0 <= k <= n ->
    exists h',
      invoke_all (TakeOperator.func n c) (Some <$> S) h
      = Some ((passed <$> take (Z.to_nat (n - k)) S)
                ++ replicate (length S - Z.to_nat (n - k)) closed, h')
      /\ counters h' !! c = Some (Z.min n (k + Z.of_nat (length S)))
      /\ frames h' = frames h.
Proof.
  intros Hn. induction S as [|l S IH]; intros h k Hc Hk.
  - exists h. simpl. rewrite take_nil.
    split; [reflexivity|]. split; [|reflexivity]. rewrite Hc. f_equal. lia.
  - cbn [fmap list_fmap invoke_all].
    destruct (Z.eq_dec k n) as [->|Hne].
    + erewrite M_bind_Some by (eapply take_func_closed; [exact Hc | lia]).
      destruct (IH h n Hc) as (h' & Hrun & Hc' & Hf); [lia|].
      exists h'. erewrite M_bind_Some by exact Hrun.
      replace (Z.to_nat (n - n)) with 0%nat by lia.
      replace (Z.to_nat (n - n)) with 0%nat in Hrun by lia.
      rewrite take_0. rewrite Nat.sub_0_r. simpl.
      split; [reflexivity|]. split; [|exact Hf].
      rewrite Hc'. f_equal. lia.
    + erewrite M_bind_Some by (eapply take_func_pass; [exact Hc | lia]).
      rewrite (int64_incr_exact k n) by (lia || assumption).
      destruct (IH (with_counter h c (k + 1)) (k + 1)) as (h' & Hrun & Hc' & Hf).
      { eapply with_counter_lookup; eauto. }
      { lia. }
      exists h'. erewrite M_bind_Some by exact Hrun.
      replace (Z.to_nat (n - k)) with (Datatypes.S (Z.to_nat (n - (k + 1)))) by lia.
      simpl. split; [reflexivity|]. split; [|exact Hf].
      rewrite Hc'. f_equal. lia.
Qed.

(** ** One step function under the traversal loop *)

Lemma apply_one (f : OperatorFunc) (env : ptr) (h h' : Heap)
    (r : ptr * option error) :
  f env h = Some (r, h') ->
  Stream.apply [f] env h
  = Some (match r with
          | (_, Some err) => (None, Some err)
          | (None, None) => (None, None)
          | (Some l, None) => (Some l, None)
          end, h').
Proof.
  intros Hf. cbn [Stream.apply]. erewrite M_bind_Some by exact Hf.
  destruct r as [[l|] [err|]]; reflexivity.
Qed.

Lemma drive_one_closed {U : Type} (f : OperatorFunc) (fn : Stream.callback U)
    (ending : option error) (l : loc) (items : list loc) (u : U) (h h' : Heap) :
  f (Some l) h = Some (closed, h') ->
  Stream.drive [f] fn ending (l :: items) u h = Some ((None, u), h').
Proof.
  intros Hf. cbn [Stream.drive].
  erewrite M_bind_Some by (eapply apply_one; exact Hf). reflexivity.
Qed.

Lemma drive_one_suppressed {U : Type} (f : OperatorFunc) (fn : Stream.callback U)
    (ending : option error) (l : loc) (items : list loc) (u : U) (h h' : Heap) :
  f (Some l) h = Some (suppressed, h') ->
  Stream.drive [f] fn ending (l :: items) u h
  = Stream.drive [f] fn ending items u h'.
Proof.
  intros Hf. cbn [Stream.drive].
  erewrite M_bind_Some by (eapply apply_one; exact Hf). reflexivity.
Qed.

Lemma drive_one_collect (f : OperatorFunc) (ending : option error)
    (l l' : loc) (items : list loc) (seen : list ptr) (h h' : Heap) :
  f (Some l) h = Some (passed l', h') ->
  Stream.drive [f] Stream.collect ending (l :: items) seen h
  = Stream.drive [f] Stream.collect ending items (seen ++ [Some l']) h'.
Proof.
  intros Hf. cbn [Stream.drive].
  erewrite M_bind_Some by (eapply apply_one; exact Hf). reflexivity.
Qed.

Lemma drive_one_error {U : Type} (f : OperatorFunc) (fn : Stream.callback U)
    (ending : option error) (l : loc) (items : list loc) (u : U) (h h' : Heap)
    (env : ptr) (err : error) :
  f (Some l) h = Some ((env, Some err), h') -> err <> ErrStreamClosed ->
  Stream.drive [f] fn ending (l :: items) u h = Some ((Some err, u), h').
Proof.
  intros Hf Hne. cbn [Stream.drive].
  erewrite M_bind_Some by (eapply apply_one; exact Hf).
  destruct env, err; try reflexivity; congruence.
Qed.

Lemma take_drive (n : Z) (c : loc) (S : list loc) :
  int64_range n ->
  forall (h : Heap) (k : Z) (seen : list ptr),
    counters h !! c = Some k -> 0 <= k <= n ->
    exists h',
      Stream.drive [TakeOperator.func n c] Stream.collect None S seen h
      = Some ((None, seen ++ (Some <$> take (Z.to_nat (n - k)) S)), h')
      /\ (exists k', counters h' !! c = Some k' /\ k <= k' <= n)
      /\ frames h' = frames h.
Proof.
  intros Hn. induction S as [|l S IH]; intros h k seen Hc Hk.
  - exists h. rewrite take_nil. simpl. rewrite app_nil_r.
    split; [reflexivity|]. split; [|reflexivity].
    exists k. split; [assumption|lia].
  - destruct (Z.eq_dec k n) as [->|Hne].
    + exists h. erewrite drive_one_closed
        by (eapply take_func_closed; [exact Hc | lia]).
      replace (Z.to_nat (n - n)) with 0%nat by lia.
      rewrite take_0. simpl. rewrite app_nil_r.
      split; [reflexivity|]. split; [|reflexivity].
      exists n. split; [assumption|lia].
    + erewrite drive_one_collect
        by (eapply take_func_pass; [exact Hc | lia]).
      rewrite (int64_incr_exact k n) by (lia || assumption).
      destruct (IH (with_counter h c (k + 1)) (k + 1) (seen ++ [Some l]))
        as (h' & Hrun & (k' & Hc' & Hk') & Hf).
      { eapply with_counter_lookup; eauto. }
      { lia. }
      exists h'. rewrite Hrun.
      replace (Z.to_nat (n - k)) with (Datatypes.S (Z.to_nat (n - (k + 1)))) by lia.
      simpl. rewrite <- app_assoc. simpl.
      split; [reflexivity|]. split; [|exact Hf].
      exists k'. split; [assumption|lia].
Qed.

(** C2. For every source sequence [S] and every count expression that
    evaluates to a non-negative integer [n], the step function built by
    [TakeOperator.Op] passes exactly the first [min(n, |S|)] Environments
    through, in their order, and answers every later item of [S] with the
    stream-closed signal; under the traversal loop the callback receives
    exactly those Environments and the traversal ends without error; and
    the invocation that follows the [n]th passed item returns the
    stream-closed signal. *)
Theorem take_passes_first_n (m : TakeOperator.t) (h : Heap) (n : Z) (S : list loc) :
  count_is (TakeOperator.E m) h n -> 0 <= n -> int64_range n ->
  exists (f : OperatorFunc) (h1 : Heap),
    TakeOperator.Op m h = Some (Ok f, h1) /\
    let k := Z.to_nat (Z.min n (Z.of_nat (length S))) in
    (exists h2, invoke_all f (Some <$> S) h1
       = Some ((passed <$> take k S) ++ replicate (length S - k) closed, h2)) /\
    (exists h2, Stream.drive [f] Stream.collect None S [] h1
       = Some ((None, Some <$> take k S), h2)) /\
    (n <= Z.of_nat (length S) ->
     exists h2, invoke_all f (Some <$> take (Z.to_nat n) S) h1
                = Some (passed <$> take (Z.to_nat n) S, h2) /\
                forall env : ptr, f env h2 = Some (closed, h2)).
Proof.
  intros Hcount Hpos Hrange.
  exists (TakeOperator.func n (length (counters h))), (count_heap h).
  split; [apply take_op_ok; exact Hcount|].
  pose proof (count_heap_counter h) as Hc.
  assert (Htake : take (Z.to_nat (Z.min n (Z.of_nat (length S)))) S
                  = take (Z.to_nat n) S).
  { destruct (Z.le_ge_cases n (Z.of_nat (length S))) as [Hle|Hge].
    - rewrite Z.min_l by lia. reflexivity.
    - rewrite Z.min_r by lia. rewrite Nat2Z.id.
      rewrite firstn_all. symmetry. apply take_ge. lia. }
  assert (Hlen : (length S - Z.to_nat (Z.min n (Z.of_nat (length S))))%nat
                 = (length S - Z.to_nat n)%nat) by lia.
  cbv zeta. rewrite Htake, Hlen. split; [|split].
  - destruct (take_invoke_all n (length (counters h)) S Hrange (count_heap h) 0 Hc)
      as (h2 & Hrun & _); [lia|].
    exists h2. rewrite Z.sub_0_r in Hrun. exact Hrun.
  - destruct (take_drive n (length (counters h)) S Hrange (count_heap h) 0 [] Hc)
      as (h2 & Hrun & _); [lia|].
    exists h2. rewrite Z.sub_0_r in Hrun. exact Hrun.
  - intros Hle.
    destruct (take_invoke_all n (length (counters h)) (take (Z.to_nat n) S)
                Hrange (count_heap h) 0 Hc) as (h2 & Hrun & Hc2 & _); [lia|].
    exists h2. rewrite Z.sub_0_r in Hrun.
    rewrite length_take in Hrun, Hc2.
    replace (Z.to_nat n `min` length S - Z.to_nat n)%nat with 0%nat in Hrun by lia.
    simpl in Hrun. rewrite app_nil_r in Hrun.
    rewrite take_take in Hrun. rewrite Nat.min_id in Hrun.
    split; [exact Hrun|].
    intros env. eapply take_func_closed; [exact Hc2|]. lia.
Qed.

(** ** The Skip closure *)

Lemma skip_func_suppress (n : Z) (c : loc) (env : ptr) (h : Heap) (k : Z) :
  counters h !! c = Some k -> k < n ->
  SkipOperator.func n c env h
  = Some (suppressed, with_counter h c (int64_incr k)).
Proof.
  intros Hc Hlt.
  unfold SkipOperator.func, M_bind, load_int64, store_int64, M_ret.
  rewrite Hc. destruct (Z.ltb_spec k n); [|lia].
  rewrite Hc. reflexivity.
Qed.

Lemma skip_func_pass (n : Z) (c : loc) (env : ptr) (h : Heap) (k : Z) :
  counters h !! c = Some k -> n <= k ->
  SkipOperator.func n c env h = Some ((env, None), h).
Proof.
  intros Hc Hge.
  unfold SkipOperator.func, M_bind, load_int64, M_ret.
  rewrite Hc. destruct (Z.ltb_spec k n); [lia|]. reflexivity.
Qed.

Lemma skip_invoke_all (n : Z) (c : loc) (S : list loc) :
  int64_range n ->
  forall (h : Heap) (k : Z),
    counters h !! c = Some k -> 0 <= k ->
    exists h',
      invoke_all (SkipOperator.func n c) (Some <$> S) h
      = Some (replicate (Z.to_nat (n - k) `min` length S) suppressed
                ++ (passed <$> drop (Z.to_nat (n - k)) S), h')
      /\ frames h' = frames h.
Proof.
  intros Hn. induction S as [|l S IH]; intros h k Hc Hk.
  - exists h. rewrite drop_nil. simpl. rewrite Nat.min_0_r. simpl. auto.
  - cbn [fmap list_fmap invoke_all].
    destruct (Z.lt_ge_cases k n) as [Hlt|Hge].
    + erewrite M_bind_Some by (eapply skip_func_suppress; [exact Hc | lia]).
      rewrite (int64_incr_exact k n) by (lia || assumption).
      destruct (IH (with_counter h c (k + 1)) (k + 1)) as (h' & Hrun & Hf).
      { eapply with_counter_lookup; eauto. }
      { lia. }
      exists h'. erewrite M_bind_Some by exact Hrun.
      replace (Z.to_nat (n - k)) with (Datatypes.S (Z.to_nat (n - (k + 1)))) by lia.
      simpl. split; [reflexivity | exact Hf].
    + erewrite M_bind_Some by (eapply skip_func_pass; [exact Hc | lia]).
      destruct (IH h k Hc Hk) as (h' & Hrun & Hf).
      exists h'. erewrite M_bind_Some by exact Hrun.
      replace (Z.to_nat (n - k)) with 0%nat in * by lia.
      simpl in *. rewrite drop_0 in Hrun. split; [reflexivity | exact Hf].
Qed.

Lemma skip_drive (n : Z) (c : loc) (S : list loc) :
  int64_range n ->
  forall (h : Heap) (k : Z) (seen : list ptr),
    counters h !! c = Some k -> 0 <= k ->
    exists h',
      Stream.drive [SkipOperator.func n c] Stream.collect None S seen h
      = Some ((None, seen ++ (Some <$> drop (Z.to_nat (n - k)) S)), h')
      /\ frames h' = frames h.
Proof.
  intros Hn. induction S as [|l S IH]; intros h k seen Hc Hk.
  - exists h. rewrite drop_nil. simpl. rewrite app_nil_r. auto.
  - destruct (Z.lt_ge_cases k n) as [Hlt|Hge].
    + erewrite drive_one_suppressed
        by (eapply skip_func_suppress; [exact Hc | lia]).
      rewrite (int64_incr_exact k n) by (lia || assumption).
      destruct (IH (with_counter h c (k + 1)) (k + 1) seen) as (h' & Hrun & Hf).
      { eapply with_counter_lookup; eauto. }
      { lia. }
      exists h'. rewrite Hrun.
      replace (Z.to_nat (n - k)) with (Datatypes.S (Z.to_nat (n - (k + 1)))) by lia.
      simpl. split; [reflexivity | exact Hf].
    + erewrite drive_one_collect
        by (eapply skip_func_pass; [exact Hc | lia]).
      destruct (IH h k (seen ++ [Some l]) Hc Hk) as (h' & Hrun & Hf).
      exists h'. rewrite Hrun.
      replace (Z.to_nat (n - k)) with 0%nat by lia.
      rewrite !drop_0. simpl. rewrite <- app_assoc. simpl.
      split; [reflexivity | exact Hf].
Qed.

(** C3. For every source sequence [S] and every count expression that
    evaluates to an integer [n], the step function built by
    [SkipOperator.Op] returns a null Environment for exactly the first
    [min(n, |S|)] Environments and returns every later Environment itself,
    in order; under the traversal loop the callback receives [S] without
    its first [min(n, |S|)] items; no Environment frame is changed. *)
Theorem skip_drops_first_n (m : SkipOperator.t) (h : Heap) (n : Z) (S : list loc) :
  count_is (SkipOperator.E m) h n -> int64_range n ->
  exists (f : OperatorFunc) (h1 : Heap),
    SkipOperator.Op m h = Some (Ok f, h1) /\
    let k := Z.to_nat (Z.min n (Z.of_nat (length S))) in
    (exists h2, invoke_all f (Some <$> S) h1
       = Some (replicate k suppressed ++ (passed <$> drop k S), h2)
       /\ frames h2 = frames h1) /\
    (exists h2, Stream.drive [f] Stream.collect None S [] h1
       = Some ((None, Some <$> drop k S), h2)
       /\ frames h2 = frames h1).
Proof.
  intros Hcount Hrange.
  exists (SkipOperator.func n (length (counters h))), (count_heap h).
  split; [apply skip_op_ok; exact Hcount|].
  pose proof (count_heap_counter h) as Hc.
  assert (Hdrop : drop (Z.to_nat (Z.min n (Z.of_nat (length S)))) S
                  = drop (Z.to_nat n) S).
  { destruct (Z.le_ge_cases n (Z.of_nat (length S))) as [Hle|Hge].
    - rewrite Z.min_l by lia. reflexivity.
    - rewrite Z.min_r by lia. rewrite Nat2Z.id.
      rewrite drop_all. symmetry. apply drop_ge. lia. }
  assert (Hlen : Z.to_nat (Z.min n (Z.of_nat (length S)))
                 = (Z.to_nat n `min` length S)%nat) by lia.
  cbv zeta. rewrite Hdrop, Hlen. split.
  - destruct (skip_invoke_all n (length (counters h)) S Hrange (count_heap h) 0 Hc)
      as (h2 & Hrun & Hf); [lia|].
    exists h2. rewrite Z.sub_0_r in Hrun. auto.
  - destruct (skip_drive n (length (counters h)) S Hrange (count_heap h) 0 [] Hc)
      as (h2 & Hrun & Hf); [lia|].
    exists h2. rewrite Z.sub_0_r in Hrun. auto.
Qed.

(** ** Exhausted and degenerate counts *)

Lemma take_func_closed_inv (n : Z) (c : loc) (env : ptr) (h h' : Heap) :
  TakeOperator.func n c env h = Some (closed, h') ->
  h' = h /\ exists k, counters h !! c = Some k /\ n <= k.
Proof.
  unfold TakeOperator.func, M_bind, load_int64, store_int64, M_ret, closed.
  destruct (counters h !! c) as [k|] eqn:Hc; [|discriminate].
  destruct (Z.ltb_spec k n) as [Hlt|Hge].
  - rewrite Hc. discriminate.
  - intros [= <-]. split; [reflexivity|]. exists k. auto.
Qed.

Lemma invoke_all_constant (f : OperatorFunc) (h : Heap) (r : ptr -> ptr * option error) :
  (forall env, f env h = Some (r env, h)) ->
  forall envs, invoke_all f envs h = Some (r <$> envs, h).
Proof.
  intros Hf. induction envs as [|env envs IH]; [reflexivity|].
  cbn [invoke_all]. erewrite M_bind_Some by apply Hf.
  erewrite M_bind_Some by exact IH. reflexivity.
Qed.

(** C8. Once a step function built by one call to [TakeOperator.Op] has
    returned the stream-closed signal, that invocation has left the heap as
    it was, and the same step function returns the stream-closed signal on
    every later invocation, whatever Environment it is given and whatever
    has happened to the Environment frames since; a further traversal
    driven through it hands no item to the callback and ends without
    error. *)
Theorem take_closed_is_final (m : TakeOperator.t) (h h1 : Heap) (f : OperatorFunc)
    (env : ptr) (h2 h3 : Heap) :
  TakeOperator.Op m h = Some (Ok f, h1) ->
  f env h2 = Some (closed, h3) ->
  h3 = h2 /\
  (forall (h4 : Heap) (env' : ptr),
     counters h4 = counters h2 -> f env' h4 = Some (closed, h4)) /\
  (forall envs : list ptr,
     invoke_all f envs h2 = Some (replicate (length envs) closed, h2)) /\
  (forall S : list loc,
     Stream.drive [f] Stream.collect None S [] h2 = Some ((None, []), h2)).
Proof.
  intros Hop Hclosed.
  apply take_op_inv in Hop as (n & _ & -> & _).
  apply take_func_closed_inv in Hclosed as (-> & k & Hc & Hge).
  assert (Hall : forall (h4 : Heap) (env' : ptr), counters h4 = counters h2 ->
            TakeOperator.func n (length (counters h)) env' h4 = Some (closed, h4)).
  { intros h4 env' Heq. eapply take_func_closed; [|exact Hge].
    rewrite Heq. exact Hc. }
  split; [reflexivity|]. split; [exact Hall|]. split.
  - intros envs.
    rewrite (invoke_all_constant _ h2 (fun _ => closed))
      by (intros; apply Hall; reflexivity).
    f_equal. f_equal. induction envs as [|e envs IH]; [reflexivity|].
    simpl. f_equal. exact IH.
  - intros [|l S]; [reflexivity|].
    apply drive_one_closed. apply Hall. reflexivity.
Qed.

(** C9. When the count expression evaluates to an integer [n <= 0], the
    step function built by [TakeOperator.Op] returns the stream-closed
    signal from its first invocation on, so a traversal hands nothing to
    the callback; and the step function built by [SkipOperator.Op] returns
    every Environment it is given, from the first invocation on, and leaves
    the heap as it is. *)
Theorem nonpositive_count (mt : TakeOperator.t) (ms : SkipOperator.t)
    (h : Heap) (n : Z) :
  count_is (TakeOperator.E mt) h n ->
  count_is (SkipOperator.E ms) h n ->
  n <= 0 ->
  (exists (f : OperatorFunc) (h1 : Heap),
     TakeOperator.Op mt h = Some (Ok f, h1) /\
     (forall env : ptr, f env h1 = Some (closed, h1)) /\
     (forall S : list loc,
        Stream.drive [f] Stream.collect None S [] h1 = Some ((None, []), h1))) /\
  (exists (f : OperatorFunc) (h1 : Heap),
     SkipOperator.Op ms h = Some (Ok f, h1) /\
     (forall env : ptr, f env h1 = Some ((env, None), h1)) /\
     (forall envs : list ptr,
        invoke_all f envs h1 = Some ((fun env => (env, None)) <$> envs, h1))).
Proof.
  intros Ht Hs Hn. pose proof (count_heap_counter h) as Hc. split.
  - exists (TakeOperator.func n (length (counters h))), (count_heap h).
    split; [apply take_op_ok; exact Ht|].
    assert (Hall : forall env : ptr,
              TakeOperator.func n (length (counters h)) env (count_heap h)
              = Some (closed, count_heap h)).
    { intros env. eapply take_func_closed; [exact Hc | exact Hn]. }
    split; [exact Hall|].
    intros [|l S]; [reflexivity|]. apply drive_one_closed. apply Hall.
  - exists (SkipOperator.func n (length (counters h))), (count_heap h).
    split; [apply skip_op_ok; exact Hs|].
    assert (Hall : forall env : ptr,
              SkipOperator.func n (length (counters h)) env (count_heap h)
              = Some ((env, None), count_heap h)).
    { intros env. eapply skip_func_pass; [exact Hc | exact Hn]. }
    split; [exact Hall|].
    apply invoke_all_constant. exact Hall.
Qed.

(** ** Construction-time evaluation of the count *)

Lemma take_op_unfold (m : TakeOperator.t) (h : Heap) :
  TakeOperator.Op m h
  = match Eval (TakeOperator.E m) (count_heap h) (Some (length (frames h))) with
    | Error err => Some (Error err, count_heap h)
    | Ok v =>
        match (if negb (ValueType_eqb (Value_Type v) IntegerValue)
               then CastAsInteger v else Ok v) with
        | Error err => Some (Error err, count_heap h)
        | Ok v' =>
            match Value_V_int64 v' with
            | None => None
            | Some n => Some (Ok (TakeOperator.func n (length (counters h))),
                              count_heap h)
            end
        end
    end.
Proof.
  unfold TakeOperator.Op, M_bind, new_int64, new_Environment, Expr_Eval. simpl.
  change {| frames := frames h ++ [zero_Environment];
            counters := counters h ++ [0] |} with (count_heap h).
  destruct (Eval (TakeOperator.E m) (count_heap h) (Some (length (frames h))))
    as [v|err]; [|reflexivity].
  destruct (if negb (ValueType_eqb (Value_Type v) IntegerValue)
            then CastAsInteger v else Ok v) as [v'|err]; [|reflexivity].
  destruct (Value_V_int64 v'); reflexivity.
Qed.

Lemma skip_op_unfold (m : SkipOperator.t) (h : Heap) :
  SkipOperator.Op m h
  = match Eval (SkipOperator.E m) (count_heap h) (Some (length (frames h))) with
    | Error err => Some (Error err, count_heap h)
    | Ok v =>
        match (if negb (ValueType_eqb (Value_Type v) IntegerValue)
               then CastAsInteger v else Ok v) with
        | Error err => Some (Error err, count_heap h)
        | Ok v' =>
            match Value_V_int64 v' with
            | None => None
            | Some n => Some (Ok (SkipOperator.func n (length (counters h))),
                              count_heap h)
            end
        end
    end.
Proof.
  unfold SkipOperator.Op, M_bind, new_int64, new_Environment, Expr_Eval. simpl.
  change {| frames := frames h ++ [zero_Environment];
            counters := counters h ++ [0] |} with (count_heap h).
  destruct (Eval (SkipOperator.E m) (count_heap h) (Some (length (frames h))))
    as [v|err]; [|reflexivity].
  destruct (if negb (ValueType_eqb (Value_Type v) IntegerValue)
            then CastAsInteger v else Ok v) as [v'|err]; [|reflexivity].
  destruct (Value_V_int64 v'); reflexivity.
Qed.

Lemma not_integer_type (v : Value) :
  Value_Type v <> IntegerValue ->
  negb (ValueType_eqb (Value_Type v) IntegerValue) = true.
Proof.
  intros Hne. destruct (ValueType_eqb (Value_Type v) IntegerValue) eqn:Heq;
    [|reflexivity].
  apply ValueType_eqb_eq in Heq. contradiction.
Qed.

(** ** Counting the evaluations of the count *)

Lemma traced_take_func (n : Z) (c : loc) (env : ptr) (h : Heap) :
  Traced.take_func n c env h
  = match TakeOperator.func n c env h with
    | Some (r, h') => Some ((r, []), h')
    | None => None
    end.
Proof.
  unfold Traced.take_func, TakeOperator.func, Traced.bind, Traced.lift,
    Traced.ret, M_bind, M_ret, load_int64, store_int64.
  destruct (counters h !! c) as [k|] eqn:Hc; [|reflexivity].
  destruct (k <? n); [|reflexivity].
  cbn [counters]. rewrite Hc. reflexivity.
Qed.

Lemma traced_skip_func (n : Z) (c : loc) (env : ptr) (h : Heap) :
  Traced.skip_func n c env h
  = match SkipOperator.func n c env h with
    | Some (r, h') => Some ((r, []), h')
    | None => None
    end.
Proof.
  unfold Traced.skip_func, SkipOperator.func, Traced.bind, Traced.lift,
    Traced.ret, M_bind, M_ret, load_int64, store_int64.
  destruct (counters h !! c) as [k|] eqn:Hc; [|reflexivity].
  destruct (k <? n); [|reflexivity].
  cbn [counters]. rewrite Hc. reflexivity.
Qed.

Lemma traced_invoke_all (f : Traced.Func) (g : OperatorFunc) (envs : list ptr) :
  (forall env h, f env h = match g env h with
                           | Some (r, h') => Some ((r, []), h')
                           | None => None
                           end) ->
  forall h,
    Traced.invoke_all f envs h
    = match invoke_all g envs h with
      | Some (rs, h') => Some ((rs, []), h')
      | None => None
      end.
Proof.
  intros Hfg. induction envs as [|env envs IH]; intros h; [reflexivity|].
  cbn [Traced.invoke_all invoke_all]. unfold Traced.bind, M_bind.
  rewrite Hfg. destruct (g env h) as [[r h1]|]; [|reflexivity].
  rewrite IH. destruct (invoke_all g envs h1) as [[rs h2]|]; reflexivity.
Qed.

Lemma traced_take_op_unfold (m : TakeOperator.t) (h : Heap) :
  Traced.take_Op m h
  = match Eval (TakeOperator.E m) (count_heap h) (Some (length (frames h))) with
    | Error err =>
        Some ((Error err, [(TakeOperator.E m, Some (length (frames h)))]),
              count_heap h)
    | Ok v =>
        match (if negb (ValueType_eqb (Value_Type v) IntegerValue)
               then CastAsInteger v else Ok v) with
        | Error err =>
            Some ((Error err, [(TakeOperator.E m, Some (length (frames h)))]),
                  count_heap h)
        | Ok v' =>
            match Value_V_int64 v' with
            | None => None
            | Some n =>
                Some ((Ok (Traced.take_func n (length (counters h))),
                       [(TakeOperator.E m, Some (length (frames h)))]),
                      count_heap h)
            end
        end
    end.
Proof.
  unfold Traced.take_Op, Traced.bind, Traced.lift, Traced.eval, Traced.ret,
    new_int64, new_Environment, M_panic. simpl.
  change {| frames := frames h ++ [zero_Environment];
            counters := counters h ++ [0] |} with (count_heap h).
  destruct (Eval (TakeOperator.E m) (count_heap h) (Some (length (frames h))))
    as [v|err]; [|reflexivity].
  destruct (if negb (ValueType_eqb (Value_Type v) IntegerValue)
            then CastAsInteger v else Ok v) as [v'|err]; [|reflexivity].
  destruct (Value_V_int64 v'); reflexivity.
Qed.

Lemma traced_skip_op_unfold (m : SkipOperator.t) (h : Heap) :
  Traced.skip_Op m h
  = match Eval (SkipOperator.E m) (count_heap h) (Some (length (frames h))) with
    | Error err =>
        Some ((Error err, [(SkipOperator.E m, Some (length (frames h)))]),
              count_heap h)
    | Ok v =>
        match (if negb (ValueType_eqb (Value_Type v) IntegerValue)
               then CastAsInteger v else Ok v) with
        | Error err =>
            Some ((Error err, [(SkipOperator.E m, Some (length (frames h)))]),
                  count_heap h)
        | Ok v' =>
            match Value_V_int64 v' with
            | None => None
            | Some n =>
                Some ((Ok (Traced.skip_func n (length (counters h))),
                       [(SkipOperator.E m, Some (length (frames h)))]),
                      count_heap h)
            end
        end
    end.
Proof.
  unfold Traced.skip_Op, Traced.bind, Traced.lift, Traced.eval, Traced.ret,
    new_int64, new_Environment, M_panic. simpl.
  change {| frames := frames h ++ [zero_Environment];
            counters := counters h ++ [0] |} with (count_heap h).
  destruct (Eval (SkipOperator.E m) (count_heap h) (Some (length (frames h))))
    as [v|err]; [|reflexivity].
  destruct (if negb (ValueType_eqb (Value_Type v) IntegerValue)
            then CastAsInteger v else Ok v) as [v'|err]; [|reflexivity].
  destruct (Value_V_int64 v'); reflexivity.
Qed.

(** C7. [TakeOperator.Op] and [SkipOperator.Op] evaluate the count
    expression exactly once, at construction, against a freshly allocated
    empty Environment: read with the evaluations made visible, [Op]
    reports that one evaluation whatever its outcome is, and the step
    function it builds reports none, however often it is invoked.  An
    evaluation error is returned by [Op]; a result that is not an integer
    value and that [CastAsInteger] rejects makes [Op] return the
    conversion error; in both cases no step function is produced.  The
    outcome of [Op], step function included, is determined by the value the
    expression has at that one evaluation: two count expressions that agree
    there give the same outcome however they differ on other Environments,
    and the step function is the closure over the integer [n] and the
    counter. *)
Theorem count_evaluated_at_construction (e : Expr) (h : Heap) :
  let h0 := count_heap h in
  let empty := Some (length (frames h)) in
  let c := length (counters h) in
  frames h0 !! length (frames h) = Some zero_Environment /\
  (forall err, Eval e h0 empty = Error err ->
     TakeOperator.Op (Take e) h = Some (Error err, h0) /\
     SkipOperator.Op (Skip e) h = Some (Error err, h0) /\
     Traced.take_Op (Take e) h = Some ((Error err, [(e, empty)]), h0) /\
     Traced.skip_Op (Skip e) h = Some ((Error err, [(e, empty)]), h0)) /\
  (forall v err,
     Eval e h0 empty = Ok v -> Value_Type v <> IntegerValue ->
     CastAsInteger v = Error err ->
     TakeOperator.Op (Take e) h = Some (Error err, h0) /\
     SkipOperator.Op (Skip e) h = Some (Error err, h0) /\
     Traced.take_Op (Take e) h = Some ((Error err, [(e, empty)]), h0) /\
     Traced.skip_Op (Skip e) h = Some ((Error err, [(e, empty)]), h0)) /\
  (forall n, count_is e h n ->
     TakeOperator.Op (Take e) h = Some (Ok (TakeOperator.func n c), h0) /\
     SkipOperator.Op (Skip e) h = Some (Ok (SkipOperator.func n c), h0) /\
     Traced.take_Op (Take e) h
     = Some ((Ok (Traced.take_func n c), [(e, empty)]), h0) /\
     Traced.skip_Op (Skip e) h
     = Some ((Ok (Traced.skip_func n c), [(e, empty)]), h0)) /\
  (forall r t h1,
     Traced.take_Op (Take e) h = Some ((r, t), h1)
     \/ Traced.skip_Op (Skip e) h = Some ((r, t), h1) ->
     t = [(e, empty)]) /\
  ((Traced.take_Op (Take e) h = None <-> TakeOperator.Op (Take e) h = None) /\
   (Traced.skip_Op (Skip e) h = None <-> SkipOperator.Op (Skip e) h = None)) /\
  (forall (n : Z) (k : loc) (envs : list ptr) (h1 : Heap),
     Traced.invoke_all (Traced.take_func n k) envs h1
     = match invoke_all (TakeOperator.func n k) envs h1 with
       | Some (rs, h2) => Some ((rs, []), h2)
       | None => None
       end /\
     Traced.invoke_all (Traced.skip_func n k) envs h1
     = match invoke_all (SkipOperator.func n k) envs h1 with
       | Some (rs, h2) => Some ((rs, []), h2)
       | None => None
       end) /\
  (forall e', Eval e' h0 empty = Eval e h0 empty ->
     TakeOperator.Op (Take e') h = TakeOperator.Op (Take e) h /\
     SkipOperator.Op (Skip e') h = SkipOperator.Op (Skip e) h) /\
  (forall f h1, TakeOperator.Op (Take e) h = Some (Ok f, h1) ->
     exists n, count_is e h n /\ f = TakeOperator.func n c) /\
  (forall f h1, SkipOperator.Op (Skip e) h = Some (Ok f, h1) ->
     exists n, count_is e h n /\ f = SkipOperator.func n c).
Proof.
  cbv zeta.
  split; [simpl; apply list_lookup_middle; reflexivity|].
  split.
  { intros err Herr.
    rewrite take_op_unfold, skip_op_unfold,
      traced_take_op_unfold, traced_skip_op_unfold. simpl.
    rewrite Herr. auto. }
  split.
  { intros v err Hv Hty Hcast.
    rewrite take_op_unfold, skip_op_unfold,
      traced_take_op_unfold, traced_skip_op_unfold. simpl.
    rewrite Hv, (not_integer_type v Hty), Hcast. auto. }
  split.
  { intros n Hn.
    split; [apply (take_op_ok (Take e) h n Hn)|].
    split; [apply (skip_op_ok (Skip e) h n Hn)|].
    apply count_is_inv in Hn as (v & Hv & Hcast).
    rewrite traced_take_op_unfold, traced_skip_op_unfold. simpl.
    rewrite Hv, Hcast. auto. }
  split.
  { intros r t h1.
    rewrite traced_take_op_unfold, traced_skip_op_unfold. simpl.
    destruct (Eval e (count_heap h) (Some (length (frames h)))) as [v|err].
    - destruct (if negb (ValueType_eqb (Value_Type v) IntegerValue)
                then CastAsInteger v else Ok v) as [v'|err].
      + destruct (Value_V_int64 v'); intros [Heq|Heq]; congruence.
      + intros [Heq|Heq]; congruence.
    - intros [Heq|Heq]; congruence. }
  split.
  { rewrite take_op_unfold, skip_op_unfold,
      traced_take_op_unfold, traced_skip_op_unfold. simpl.
    destruct (Eval e (count_heap h) (Some (length (frames h)))) as [v|err];
      [|split; split; discriminate].
    destruct (if negb (ValueType_eqb (Value_Type v) IntegerValue)
              then CastAsInteger v else Ok v) as [v'|err];
      [|split; split; discriminate].
    destruct (Value_V_int64 v'); split; split; (discriminate || reflexivity). }
  split.
  { intros n k envs h1. split.
    - apply traced_invoke_all. apply traced_take_func.
    - apply traced_invoke_all. apply traced_skip_func. }
  split.
  { intros e' Heq. rewrite !take_op_unfold, !skip_op_unfold. simpl.
    rewrite Heq. auto. }
  split.
  - intros f h1 Hop. apply take_op_inv in Hop as (n & Hn & -> & _).
    exists n. auto.
  - intros f h1 Hop. apply skip_op_inv in Hop as (n & Hn & -> & _).
    exists n. auto.
Qed.

(** ** Filter *)

Lemma filter_func_eval_error (m : FilterOperator.t) (env : ptr) (h : Heap) (err : error) :
  Eval (FilterOperator.E m) h env = Error err ->
  FilterOperator.func m env h = Some ((None, Some err), h).
Proof.
  intros He. unfold FilterOperator.func, M_bind, Expr_Eval. rewrite He. reflexivity.
Qed.

Lemma filter_func_truthy_error (m : FilterOperator.t) (env : ptr) (h : Heap)
    (v : Value) (err : error) :
  Eval (FilterOperator.E m) h env = Ok v -> IsTruthy v = Error err ->
  FilterOperator.func m env h = Some ((None, Some err), h).
Proof.
  intros He Ht. unfold FilterOperator.func, M_bind, Expr_Eval.
  rewrite He, Ht. reflexivity.
Qed.

Lemma filter_func_decides (m : FilterOperator.t) (env : ptr) (h : Heap)
    (v : Value) (b : bool) :
  Eval (FilterOperator.E m) h env = Ok v -> IsTruthy v = Ok b ->
  FilterOperator.func m env h
  = Some (if b then (env, None) else suppressed, h).
Proof.
  intros He Ht. unfold FilterOperator.func, M_bind, Expr_Eval.
  rewrite He, Ht. destruct b; reflexivity.
Qed.

Lemma filter_func_on_row (m : FilterOperator.t) (h : Heap) (l : loc) :
  (exists v b, Eval (FilterOperator.E m) h (Some l) = Ok v /\ IsTruthy v = Ok b) ->
  FilterOperator.func m (Some l) h
  = Some (if truthy (FilterOperator.E m) h l then passed l else suppressed, h).
Proof.
  intros (v & b & He & Ht). unfold truthy. rewrite He, Ht.
  apply (filter_func_decides m (Some l) h v b He Ht).
Qed.

Lemma filter_drive_app (m : FilterOperator.t) (h : Heap) (ending : option error)
    (pre rest : list loc) :
  (forall l, l ∈ pre ->
     exists v b, Eval (FilterOperator.E m) h (Some l) = Ok v /\ IsTruthy v = Ok b) ->
  forall seen : list ptr,
    Stream.drive [FilterOperator.func m] Stream.collect ending (pre ++ rest) seen h
    = Stream.drive [FilterOperator.func m] Stream.collect ending rest
        (seen ++ (Some <$> List.filter (truthy (FilterOperator.E m) h) pre)) h.
Proof.
  induction pre as [|l pre IH]; intros Hall seen.
  - simpl. rewrite app_nil_r. reflexivity.
  - assert (Hl := filter_func_on_row m h l (Hall l ltac:(left))).
    assert (Hrest : forall l', l' ∈ pre ->
              exists v b, Eval (FilterOperator.E m) h (Some l') = Ok v
                          /\ IsTruthy v = Ok b)
      by (intros l' Hin; apply Hall; right; exact Hin).
    cbn [List.filter app]. destruct (truthy (FilterOperator.E m) h l).
    + erewrite drive_one_collect by exact Hl.
      rewrite (IH Hrest). simpl. rewrite <- app_assoc. reflexivity.
    + erewrite drive_one_suppressed by exact Hl.
      apply (IH Hrest).
Qed.

Lemma filter_drive (m : FilterOperator.t) (h : Heap) (S : list loc) :
  (forall l, l ∈ S ->
     exists v b, Eval (FilterOperator.E m) h (Some l) = Ok v /\ IsTruthy v = Ok b) ->
  forall seen : list ptr,
    Stream.drive [FilterOperator.func m] Stream.collect None S seen h
    = Some ((None, seen ++ (Some <$> List.filter (truthy (FilterOperator.E m) h) S)), h).
Proof.
  intros Hall seen.
  rewrite <- (app_nil_r S) at 1. rewrite (filter_drive_app m h None S [] Hall seen).
  reflexivity.
Qed.

Lemma filter_invoke_all (m : FilterOperator.t) (h : Heap) (S : list loc) :
  (forall l, l ∈ S ->
     exists v b, Eval (FilterOperator.E m) h (Some l) = Ok v /\ IsTruthy v = Ok b) ->
  invoke_all (FilterOperator.func m) (Some <$> S) h
  = Some ((fun l => if truthy (FilterOperator.E m) h l then passed l else suppressed)
            <$> S, h).
Proof.
  induction S as [|l S IH]; intros Hall; [reflexivity|].
  cbn [fmap list_fmap invoke_all].
  erewrite M_bind_Some
    by (apply filter_func_on_row; apply Hall; left).
  erewrite M_bind_Some
    by (apply IH; intros l' Hin; apply Hall; right; exact Hin).
  reflexivity.
Qed.

(** C4. The step function built by [FilterOperator.Op] returns an
    evaluation error or a truthiness-conversion error as its error; for a
    falsy result it returns a null Environment; for a truthy result it
    returns the very pointer it was given; in every case the heap is left
    as it was, so no frame is allocated or written.  Over a source sequence
    [S] on which the predicate evaluates, the callback receives exactly the
    sub-sequence of [S] on which it is truthy, in order; an item on which
    the step function then fails ends the traversal with that error. *)
Theorem filter_keeps_truthy (m : FilterOperator.t) (h : Heap) (S : list loc) :
  (forall l, l ∈ S ->
     exists v b, Eval (FilterOperator.E m) h (Some l) = Ok v /\ IsTruthy v = Ok b) ->
  exists f : OperatorFunc,
    FilterOperator.Op m h = Some (Ok f, h) /\
    (forall env h2 err,
       Eval (FilterOperator.E m) h2 env = Error err ->
       f env h2 = Some ((None, Some err), h2)) /\
    (forall env h2 v err,
       Eval (FilterOperator.E m) h2 env = Ok v -> IsTruthy v = Error err ->
       f env h2 = Some ((None, Some err), h2)) /\
    (forall env h2 v,
       Eval (FilterOperator.E m) h2 env = Ok v -> IsTruthy v = Ok false ->
       f env h2 = Some ((None, None), h2)) /\
    (forall env h2 v,
       Eval (FilterOperator.E m) h2 env = Ok v -> IsTruthy v = Ok true ->
       f env h2 = Some ((env, None), h2)) /\
    invoke_all f (Some <$> S) h
    = Some ((fun l => if truthy (FilterOperator.E m) h l then passed l else suppressed)
              <$> S, h) /\
    Stream.drive [f] Stream.collect None S [] h
    = Some ((None, Some <$> List.filter (truthy (FilterOperator.E m) h) S), h) /\
    (forall (l : loc) (rest : list loc) (env : ptr) (err : error),
       f (Some l) h = Some ((env, Some err), h) -> err <> ErrStreamClosed ->
       Stream.drive [f] Stream.collect None (S ++ l :: rest) [] h
       = Some ((Some err, Some <$> List.filter (truthy (FilterOperator.E m) h) S), h)).
Proof.
  intros Hall. exists (FilterOperator.func m).
  split; [reflexivity|].
  split; [intros; apply filter_func_eval_error; assumption|].
  split; [intros; eapply filter_func_truthy_error; eassumption|].
  split; [intros env h2 v He Ht; apply (filter_func_decides m env h2 v false He Ht)|].
  split; [intros env h2 v He Ht; apply (filter_func_decides m env h2 v true He Ht)|].
  split; [apply filter_invoke_all; exact Hall|].
  split; [apply (filter_drive m h S Hall [])|].
  intros l rest env err Hl Hne.
  rewrite (filter_drive_app m h None S (l :: rest) Hall []).
  apply (drive_one_error _ _ _ _ _ _ _ _ env err Hl Hne).
Qed.

(** ** Frames *)

Lemma update_Environment_Some (l : loc) (g : Environment -> Environment)
    (h : Heap) (e : Environment) :
  frames h !! l = Some e ->
  update_Environment l g h = Some (tt, with_frame h l (g e)).
Proof. intros Hl. unfold update_Environment. rewrite Hl. reflexivity. Qed.

Lemma with_frame_lookup (h : Heap) (l : loc) (e e' : Environment) :
  frames h !! l = Some e -> frames (with_frame h l e') !! l = Some e'.
Proof.
  intros Hl. simpl. apply list_lookup_insert_eq.
  apply lookup_lt_Some in Hl. exact Hl.
Qed.

Lemma with_frame_lookup_ne (h : Heap) (l l' : loc) (e' : Environment) :
  l <> l' -> frames (with_frame h l e') !! l' = frames h !! l'.
Proof. intros Hne. simpl. apply list_lookup_insert_ne. exact Hne. Qed.

Lemma with_frame_twice (h : Heap) (l : loc) (e1 e2 : Environment) :
  with_frame (with_frame h l e1) l e2 = with_frame h l e2.
Proof. unfold with_frame. simpl. rewrite list_insert_insert_eq. reflexivity. Qed.

Lemma with_frame_same (h : Heap) (l : loc) (e : Environment) :
  frames h !! l = Some e -> with_frame h l e = h.
Proof.
  intros Hl. unfold with_frame. rewrite list_insert_id by exact Hl.
  destruct h; reflexivity.
Qed.

Lemma with_new_frame_lookup (h : Heap) :
  frames (with_new_frame h) !! length (frames h) = Some zero_Environment.
Proof. simpl. apply list_lookup_middle. reflexivity. Qed.

(** One step of a heap computation: a write to the frame at a location
    known to be allocated, and the evaluation of an expression whose value
    is known. *)
Ltac write_frame H :=
  erewrite M_bind_Some
    by (apply update_Environment_Some;
        first [exact H | eapply with_frame_lookup; exact H]).

Ltac eval_expr H :=
  erewrite M_bind_Some by (unfold Expr_Eval; rewrite H; reflexivity);
  cbn beta iota.

(** ** Map *)

Lemma map_func_ok (m : MapOperator.t) (newEnv : loc) (env : ptr) (h : Heap)
    (v : Value) (e0 : Environment) :
  Eval (MapOperator.E m) h env = Ok v ->
  frames h !! newEnv = Some e0 ->
  MapOperator.func m newEnv env h
  = Some ((Some newEnv, None),
          with_frame h newEnv {| Vars := Vars e0; V := Some v; Outer := env |}).
Proof.
  intros He Hl. unfold MapOperator.func.
  eval_expr He.
  unfold Environment_SetCurrentValue, Environment_set_Outer.
  write_frame Hl.
  write_frame Hl.
  rewrite with_frame_twice. reflexivity.
Qed.

Lemma map_func_error (m : MapOperator.t) (newEnv : loc) (env : ptr) (h : Heap)
    (err : error) :
  Eval (MapOperator.E m) h env = Error err ->
  MapOperator.func m newEnv env h = Some ((None, Some err), h).
Proof.
  intros He. unfold MapOperator.func.
  eval_expr He.
  reflexivity.
Qed.

Lemma map_func_never_filters (m : MapOperator.t) (newEnv : loc) (env : ptr)
    (h h' : Heap) :
  MapOperator.func m newEnv env h <> Some ((None, None), h').
Proof.
  unfold MapOperator.func, M_bind, Expr_Eval.
  destruct (Eval (MapOperator.E m) h env) as [v|err]; [|discriminate].
  unfold Environment_SetCurrentValue, Environment_set_Outer, update_Environment.
  destruct (frames h !! newEnv) as [e0|]; [|discriminate].
  simpl. destruct (<[newEnv:=_]> (frames h) !! newEnv); discriminate.
Qed.

Lemma map_drive (m : MapOperator.t) (h1 : Heap) (newEnv : loc)
    (vals : loc -> Value) (S : list loc) :
  (forall l e0, l ∈ S ->
     Eval (MapOperator.E m) (with_frame h1 newEnv e0) (Some l) = Ok (vals l)) ->
  forall (e0 : Environment) (seen : list Environment),
    is_Some (frames h1 !! newEnv) ->
    Vars e0 = ∅ ->
    exists e1,
      Stream.drive [MapOperator.func m newEnv] snapshot None S seen
        (with_frame h1 newEnv e0)
      = Some ((None,
               seen ++ ((fun l => {| Vars := ∅; V := Some (vals l); Outer := Some l |})
                          <$> S)),
              with_frame h1 newEnv e1).
Proof.
  induction S as [|l S IH]; intros Hall e0 seen [e Hnew] Hvars.
  - exists e0. simpl. rewrite app_nil_r. reflexivity.
  - assert (Hl : frames (with_frame h1 newEnv e0) !! newEnv = Some e0)
      by (eapply with_frame_lookup; exact Hnew).
    pose proof (map_func_ok m newEnv (Some l) _ (vals l) e0
                  (Hall l e0 ltac:(left)) Hl) as Hstep.
    rewrite with_frame_twice, Hvars in Hstep.
    cbn [Stream.drive].
    erewrite M_bind_Some by (eapply apply_one; exact Hstep).
    cbn beta iota.
    erewrite M_bind_Some.
    2:{ unfold snapshot. erewrite M_bind_Some.
        2:{ unfold load_Environment.
            erewrite with_frame_lookup by exact Hnew. reflexivity. }
        reflexivity. }
    cbn beta iota.
    destruct (IH (fun l' e' Hin => Hall l' e' ltac:(right; exact Hin))
                {| Vars := ∅; V := Some (vals l); Outer := Some l |}
                (seen ++ [{| Vars := ∅; V := Some (vals l); Outer := Some l |}])
                (ex_intro _ e Hnew) eq_refl) as (e1 & Hrun).
    exists e1. rewrite <- app_assoc in Hrun. exact Hrun.
Qed.

(** C5. The step function built by [MapOperator.Op] never returns a null
    Environment without an error.  When the expression evaluates to [v]
    against the incoming Environment, it returns its output frame, whose
    current value is then [v] and whose outer reference is the incoming
    Environment; no other frame and no counter is changed.  When the
    evaluation fails it returns that error and no Environment, and leaves
    the heap as it was.  Over a source sequence [S] on which the expression
    evaluates, the callback is handed one Environment per item of [S], in
    order, each with the value of the expression at that item as current
    value and that item as outer frame. *)
Theorem map_one_output_per_input (m : MapOperator.t) (h : Heap)
    (vals : loc -> Value) (S : list loc) :
  (forall l e0, l ∈ S ->
     Eval (MapOperator.E m)
       (with_frame (with_new_frame h) (length (frames h)) e0) (Some l)
     = Ok (vals l)) ->
  exists (f : OperatorFunc) (newEnv : loc),
    MapOperator.Op m h = Some (Ok f, with_new_frame h) /\
    frames (with_new_frame h) !! newEnv = Some zero_Environment /\
    (forall env h2 v,
       is_Some (frames h2 !! newEnv) ->
       Eval (MapOperator.E m) h2 env = Ok v ->
       exists h3 out,
         f env h2 = Some ((Some newEnv, None), h3) /\
         frames h3 !! newEnv = Some out /\ V out = Some v /\ Outer out = env /\
         (forall l, l <> newEnv -> frames h3 !! l = frames h2 !! l) /\
         counters h3 = counters h2) /\
    (forall env h2 err,
       Eval (MapOperator.E m) h2 env = Error err ->
       f env h2 = Some ((None, Some err), h2)) /\
    (forall env h2 h3, f env h2 <> Some ((None, None), h3)) /\
    (exists h2,
       Stream.drive [f] snapshot None S [] (with_new_frame h)
       = Some ((None,
                (fun l => {| Vars := ∅; V := Some (vals l); Outer := Some l |}) <$> S),
               h2)).
Proof.
  intros Hall. exists (MapOperator.func m (length (frames h))), (length (frames h)).
  pose proof (with_new_frame_lookup h) as Hnew.
  split; [reflexivity|]. split; [exact Hnew|].
  split; [|split; [|split]].
  - intros env h2 v [e0 He0] He.
    eexists _, _. split; [apply (map_func_ok m _ env h2 v e0 He He0)|].
    split; [eapply with_frame_lookup; exact He0|].
    split; [reflexivity|]. split; [reflexivity|].
    split; [|reflexivity].
    intros l Hne. apply with_frame_lookup_ne. congruence.
  - intros env h2 err He. apply map_func_error. exact He.
  - intros env h2 h3. apply map_func_never_filters.
  - destruct (map_drive m (with_new_frame h) (length (frames h)) vals S Hall
                zero_Environment [] (ex_intro _ _ Hnew) eq_refl) as (e1 & Hrun).
    rewrite (with_frame_same _ _ _ Hnew) in Hrun.
    exists (with_frame (with_new_frame h) (length (frames h)) e1). exact Hrun.
Qed.

(** ** Reduce *)

Lemma acc_frame_rebind (a a' : Value) (outer : ptr) :
  {| Vars := <[accEnvKey := a']> (Vars (acc_frame a outer));
     V := V (acc_frame a outer); Outer := Outer (acc_frame a outer) |}
  = acc_frame a' outer.
Proof. unfold acc_frame. simpl. rewrite insert_insert_eq. reflexivity. Qed.

Lemma accumulate_ok (op : ReduceOperator.t) (newEnv : loc) (h : Heap)
    (e0 : Environment) (a a' : Value) (outer : ptr) (item : loc) :
  frames h !! newEnv = Some e0 ->
  acc_apply (ReduceOperator.Accumulator op) h newEnv a item = Ok a' ->
  ReduceOperator.accumulate op newEnv (Some item) tt
    (with_frame h newEnv (acc_frame a outer))
  = Some ((None, tt), with_frame h newEnv (acc_frame a' (Some item))).
Proof.
  intros Hnew Hacc. unfold ReduceOperator.accumulate.
  unfold Environment_set_Outer, Environment_Set.
  write_frame Hnew.
  rewrite with_frame_twice. cbn [Vars V acc_frame].
  change {| Vars := <[accEnvKey:=a]> ∅; V := None; Outer := Some item |}
    with (acc_frame a (Some item)).
  erewrite M_bind_Some
    by (unfold Expr_Eval; unfold acc_apply in Hacc; rewrite Hacc; reflexivity).
  cbn beta iota.
  write_frame Hnew.
  rewrite with_frame_twice, acc_frame_rebind. reflexivity.
Qed.

Lemma last_outer_cons (outer : ptr) (item : loc) (items : list loc) :
  last_outer outer (item :: items) = last_outer (Some item) items.
Proof.
  unfold last_outer. destruct items as [|item' items]; [reflexivity|].
  rewrite last_cons_cons.
  destruct (last (item' :: items)) eqn:Hlast; [reflexivity|].
  apply last_None in Hlast. discriminate.
Qed.

(** Draining a source with the accumulation callback is the fold. *)
Lemma drain_ok (op : ReduceOperator.t) (newEnv : loc) (h : Heap)
    (e0 : Environment) (ending : option error) (items : list loc) :
  frames h !! newEnv = Some e0 ->
  forall (a a' : Value) (outer : ptr),
    fold_acc (acc_apply (ReduceOperator.Accumulator op) h newEnv) a items = Ok a' ->
    Stream.drive [] (ReduceOperator.accumulate op newEnv) ending items tt
      (with_frame h newEnv (acc_frame a outer))
    = Some ((Stream.consume ending, tt),
            with_frame h newEnv (acc_frame a' (last_outer outer items))).
Proof.
  intros Hnew. induction items as [|item items IH]; intros a a' outer Hfold.
  - simpl in Hfold. injection Hfold as <-. reflexivity.
  - cbn [fold_acc] in Hfold.
    destruct (acc_apply (ReduceOperator.Accumulator op) h newEnv a item)
      as [a1|err] eqn:Hstep; [|discriminate].
    cbn [Stream.drive Stream.apply].
    erewrite M_bind_Some by reflexivity. cbn beta iota.
    erewrite M_bind_Some by (eapply accumulate_ok; eassumption).
    cbn beta iota. rewrite (IH a1 a' (Some item) Hfold).
    rewrite last_outer_cons. reflexivity.
Qed.

Lemma lookup_chain_local (fuel : nat) (fs : list Environment) (l : loc)
    (name : string) (e : Environment) (v : Value) :
  fs !! l = Some e -> Vars e !! name = Some v ->
  lookup_chain (Datatypes.S fuel) fs l name = Some v.
Proof. intros Hl Hv. simpl. rewrite Hl, Hv. reflexivity. Qed.

Lemma Environment_Get_local (l : loc) (name : string) (h : Heap)
    (e : Environment) (v : Value) :
  frames h !! l = Some e -> Vars e !! name = Some v ->
  Environment_Get l name h = Some ((v, None), h).
Proof.
  intros Hl Hv. unfold Environment_Get. rewrite Hl.
  rewrite (lookup_chain_local _ _ _ _ e v Hl Hv). reflexivity.
Qed.

Lemma reduce_func_ok (newEnv : loc) (env : ptr) (h : Heap) (e : Environment)
    (a : Value) :
  frames h !! newEnv = Some e -> Vars e !! accEnvKey = Some a ->
  ReduceOperator.func newEnv env h
  = Some ((Some newEnv, None),
          with_frame h newEnv {| Vars := Vars e; V := Some a; Outer := env |}).
Proof.
  intros Hl Ha. unfold ReduceOperator.func.
  erewrite M_bind_Some by (eapply Environment_Get_local; eassumption).
  unfold Environment_SetCurrentValue, Environment_set_Outer.
  write_frame Hl.
  write_frame Hl.
  rewrite with_frame_twice. reflexivity.
Qed.

(** The three stages of [ReduceOperator.Op]: the seed, the heap in which
    the sub-stream is drained, and the outcome of the drain. *)
Lemma reduce_op_unfold (op : ReduceOperator.t) (h : Heap) :
  ReduceOperator.Op op h
  = match Eval (ReduceOperator.Seed op) (with_new_frame h)
            (Some (length (frames h))) with
    | Error err => Some (Error err, with_new_frame h)
    | Ok seed =>
        match Stream.Iterate (ReduceOperator.Stream op)
                (ReduceOperator.accumulate op (length (frames h))) tt
                (with_frame (with_new_frame h) (length (frames h))
                   (acc_frame seed None)) with
        | None => None
        | Some ((Some err, _), h') => Some (Error err, h')
        | Some ((None, _), h') =>
            Some (Ok (ReduceOperator.func (length (frames h))), h')
        end
    end.
Proof.
  unfold ReduceOperator.Op.
  erewrite M_bind_Some by reflexivity.
  change {| frames := frames h ++ [zero_Environment]; counters := counters h |}
    with (with_new_frame h).
  erewrite M_bind_Some by reflexivity.
  destruct (Eval (ReduceOperator.Seed op) (with_new_frame h)
              (Some (length (frames h)))) as [seed|err]; [|reflexivity].
  unfold Environment_Set.
  erewrite M_bind_Some
    by (apply update_Environment_Some; apply with_new_frame_lookup).
  change {| Vars := <[accEnvKey:=seed]> (Vars zero_Environment);
            V := V zero_Environment; Outer := Outer zero_Environment |}
    with (acc_frame seed None).
  unfold M_bind at 1.
  destruct (Stream.Iterate _ _ _ _) as [[[[err|] u] h']|]; reflexivity.
Qed.

Lemma iterate_source (U : Type) (items : list loc) (ending : option error)
    (fn : Stream.callback U) (u : U) (h : Heap) :
  Stream.Iterate (source_stream items ending) fn u h
  = Stream.drive [] fn ending items u h.
Proof. reflexivity. Qed.

Lemma reduce_op_source (op : ReduceOperator.t) (h : Heap) (items : list loc)
    (ending : option error) (seed a : Value) :
  ReduceOperator.Stream op = source_stream items ending ->
  Eval (ReduceOperator.Seed op) (with_new_frame h) (Some (length (frames h)))
  = Ok seed ->
  fold_acc (acc_apply (ReduceOperator.Accumulator op) (with_new_frame h)
              (length (frames h))) seed items = Ok a ->
  ReduceOperator.Op op h
  = Some (match Stream.consume ending with
          | Some err => Error err
          | None => Ok (ReduceOperator.func (length (frames h)))
          end,
          with_frame (with_new_frame h) (length (frames h))
            (acc_frame a (last_outer None items))).
Proof.
  intros Hs Hseed Hfold.
  rewrite reduce_op_unfold, Hseed, Hs, iterate_source.
  erewrite drain_ok by (try apply with_new_frame_lookup; exact Hfold).
  destruct (Stream.consume ending); reflexivity.
Qed.

Lemma reduce_func_after_drain (newEnv : loc) (env : ptr) (h : Heap)
    (e0 : Environment) (a : Value) (outer : ptr) :
  frames h !! newEnv = Some e0 ->
  ReduceOperator.func newEnv env (with_frame h newEnv (acc_frame a outer))
  = Some ((Some newEnv, None),
          with_frame h newEnv
            {| Vars := <[accEnvKey := a]> ∅; V := Some a; Outer := env |}).
Proof.
  intros Hnew.
  rewrite (reduce_func_ok newEnv env _ (acc_frame a outer) a).
  - rewrite with_frame_twice. reflexivity.
  - eapply with_frame_lookup. exact Hnew.
  - simpl. apply lookup_insert_eq.
Qed.

(** ** Heaps that differ in group keys only *)





(** ** Reduce over any sub-stream *)

Lemma accumulate_writes (op : ReduceOperator.t) (nl l : loc) (h : Heap)
    (e : Environment) :
  frames h !! nl = Some e ->
  ReduceOperator.accumulate op nl (Some l) tt h
  = Some ((fst (acc_write (ReduceOperator.Accumulator op) nl l h), tt),
          with_frame h nl (snd (acc_write (ReduceOperator.Accumulator op) nl l h))).
Proof.
  intros Hnl. unfold ReduceOperator.accumulate, acc_write. rewrite Hnl.
  unfold Environment_set_Outer.
  write_frame Hnl.
  unfold M_bind at 1. unfold Expr_Eval at 1.
  destruct (Eval (ReduceOperator.Accumulator op) _ (Some nl)) as [v|err].
  - unfold Environment_Set.
    erewrite M_bind_Some
      by (apply update_Environment_Some; eapply with_frame_lookup; exact Hnl).
    rewrite with_frame_twice. reflexivity.
  - reflexivity.
Qed.

(** What [stand_in] has recorded so far does not steer the traversal. *)
Lemma drive_stand_in (fs : list OperatorFunc) (nl : loc)
    (w : loc -> Heap -> Environment) (ending : option error) (items : list loc) :
  forall (seen : list (loc * Heap)) (h hF : Heap) (r : option error)
         (tr : list (loc * Heap)),
    Stream.drive fs (stand_in nl w) ending items seen h = Some ((r, tr), hF) ->
    exists new,
      tr = seen ++ new /\
      Forall (fun e => is_Some (frames (snd e) !! nl)) new /\
      forall seen',
        Stream.drive fs (stand_in nl w) ending items seen' h
        = Some ((r, seen' ++ new), hF).
Proof.
  induction items as [|l items IH]; intros seen h hF r tr Hrun.
  - cbn [Stream.drive] in Hrun. unfold M_ret in Hrun. simplify_eq.
    exists []. rewrite app_nil_r. split; [reflexivity|]. split; [constructor|].
    intros seen'. rewrite app_nil_r. reflexivity.
  - cbn [Stream.drive] in Hrun |- *. unfold M_bind at 1 in Hrun.
    destruct (Stream.apply fs (Some l) h) as [[[env err] h1]|] eqn:Happly;
      [|discriminate].
    destruct err as [err|].
    + assert (Hout : Some ((Stream.consume (Some err), seen), h1) = Some ((r, tr), hF))
        by (destruct env; exact Hrun).
      simplify_eq.
      exists []. rewrite app_nil_r. split; [reflexivity|]. split; [constructor|].
      intros seen'. rewrite app_nil_r.
      erewrite M_bind_Some by exact Happly. destruct env; reflexivity.
    + destruct env as [l'|].
      * unfold M_bind at 1 in Hrun. unfold stand_in at 1 in Hrun.
        destruct (frames h1 !! nl) as [e|] eqn:Hnl; [|discriminate].
        cbn beta iota in Hrun.
        destruct (IH _ _ _ _ _ Hrun) as (new & -> & Hpres & Hany).
        exists ((l', h1) :: new).
        split; [rewrite <- app_assoc; reflexivity|].
        split; [constructor; [cbn [snd]; rewrite Hnl; eauto | exact Hpres]|].
        intros seen'. erewrite M_bind_Some by exact Happly. cbn beta iota.
        unfold M_bind at 1. unfold stand_in at 1. rewrite Hnl. cbn beta iota.
        rewrite Hany, <- app_assoc. reflexivity.
      * destruct (IH _ _ _ _ _ Hrun) as (new & -> & Hpres & Hany).
        exists new. split; [reflexivity|]. split; [exact Hpres|].
        intros seen'. erewrite M_bind_Some by exact Happly. apply Hany.
Qed.

(** Reduce's accumulation callback is one of the callbacks [stand_in]
    stands for: as long as the accumulator expression evaluates, the drain
    goes through the heaps that [stand_in] records. *)
Lemma drain_as_stand_in (op : ReduceOperator.t) (nl : loc)
    (fs : list OperatorFunc) (ending : option error) (items : list loc) :
  let w := fun l h => snd (acc_write (ReduceOperator.Accumulator op) nl l h) in
  forall (h hF : Heap) (r : option error) (tr : list (loc * Heap)),
    Stream.drive fs (stand_in nl w) ending items [] h = Some ((r, tr), hF) ->
    Forall (fun e => fst (acc_write (ReduceOperator.Accumulator op) nl
                            (fst e) (snd e)) = None) tr ->
    Stream.drive fs (ReduceOperator.accumulate op nl) ending items tt h
    = Some ((r, tt), hF).
Proof.
  intros w. induction items as [|l items IH]; intros h hF r tr Hrun Hok.
  - cbn [Stream.drive] in Hrun |- *. unfold M_ret in Hrun |- *. simplify_eq. reflexivity.
  - cbn [Stream.drive] in Hrun |- *. unfold M_bind at 1 in Hrun.
    destruct (Stream.apply fs (Some l) h) as [[[env err] h1]|] eqn:Happly;
      [|discriminate].
    erewrite M_bind_Some by exact Happly.
    destruct err as [err|].
    + assert (Hout : Some ((Stream.consume (Some err), @nil (loc * Heap)), h1)
                     = Some ((r, tr), hF))
        by (destruct env; exact Hrun).
      simplify_eq. destruct env; reflexivity.
    + destruct env as [l'|]; [|apply (IH _ _ _ _ Hrun Hok)].
      unfold M_bind at 1 in Hrun. unfold stand_in at 1 in Hrun.
      destruct (frames h1 !! nl) as [e|] eqn:Hnl; [|discriminate].
      cbn beta iota in Hrun.
      destruct (drive_stand_in _ _ _ _ _ _ _ _ _ _ Hrun) as (new & -> & _ & Hany).
      specialize (Hany []). cbn [app] in Hany, Hok.
      inversion Hok as [|? ? Hhead Htail]; subst. cbn [fst snd] in Hhead.
      erewrite M_bind_Some by (eapply accumulate_writes; exact Hnl).
      rewrite Hhead. cbn beta iota.
      apply (IH _ _ _ _ Hany Htail).
Qed.



Lemma iterate_stand_in_present (s : Stream.t) (nl : loc)
    (w : loc -> Heap -> Environment) (h hF : Heap) (r : option error)
    (tr : list (loc * Heap)) :
  Stream.Iterate s (stand_in nl w) [] h = Some ((r, tr), hF) ->
  Forall (fun e => is_Some (frames (snd e) !! nl)) tr.
Proof.
  unfold Stream.Iterate, M_bind.
  destruct (Stream.construct (Stream.operators s) h) as [[[fs|err] hc]|];
    [|unfold M_ret; intros; simplify_eq; constructor|discriminate].
  intros Hrun.
  destruct (drive_stand_in _ _ _ _ _ _ _ _ _ _ Hrun) as (new & -> & Hpres & _).
  exact Hpres.
Qed.

Lemma iterate_as_stand_in (op : ReduceOperator.t) (nl : loc) (s : Stream.t)
    (h hF : Heap) (r : option error) (tr : list (loc * Heap)) :
  Stream.Iterate s
    (stand_in nl (fun l h => snd (acc_write (ReduceOperator.Accumulator op) nl l h)))
    [] h = Some ((r, tr), hF) ->
  Forall (fun e => fst (acc_write (ReduceOperator.Accumulator op) nl
                          (fst e) (snd e)) = None) tr ->
  Stream.Iterate s (ReduceOperator.accumulate op nl) tt h = Some ((r, tt), hF).
Proof.
  unfold Stream.Iterate, M_bind.
  destruct (Stream.construct (Stream.operators s) h) as [[[fs|err] hc]|];
    [|unfold M_ret; intros; simplify_eq; reflexivity|discriminate].
  apply drain_as_stand_in.
Qed.


(** ** Traces *)


Lemma weave_present (nl : loc) (w : loc -> Heap -> Environment)
    (trace : list (loc * Heap)) :
  forall x,
    Forall (fun e => is_Some (frames (snd e) !! nl)) (fst (weave nl w x trace)) ->
    Forall (fun e => is_Some (frames (snd e) !! nl)) trace.
Proof.
  induction trace as [|[l hk] trace IH]; intros x Hall; [constructor|].
  cbn [weave fst snd] in Hall. inversion Hall as [|? ? Hhead Htail]; subst.
  constructor; [|exact (IH _ Htail)].
  cbn [snd] in Hhead |- *. apply lookup_lt_is_Some in Hhead.
  apply lookup_lt_is_Some. simpl in Hhead. rewrite length_insert in Hhead.
  exact Hhead.
Qed.

Lemma acc_write_acc_frame (acc : Expr) (nl l : loc) (hk : Heap) (a : Value)
    (o : ptr) :
  is_Some (frames hk !! nl) ->
  acc_write acc nl l (with_frame hk nl (acc_frame a o))
  = match acc_apply acc hk nl a l with
    | Ok v => (None, acc_frame v (Some l))
    | Error err => (Some err, acc_frame a (Some l))
    end.
Proof.
  intros [e He]. unfold acc_write.
  rewrite (with_frame_lookup hk nl e _ He), with_frame_twice.
  unfold acc_apply. cbn [Vars V Outer acc_frame].
  change {| Vars := <[accEnvKey:=a]> ∅; V := None; Outer := Some l |}
    with (acc_frame a (Some l)).
  destruct (Eval acc (with_frame hk nl (acc_frame a (Some l))) (Some nl));
    [|reflexivity].
  unfold acc_frame. rewrite insert_insert_eq. reflexivity.
Qed.

Lemma weave_fold (acc : Expr) (nl : loc) (trace : list (loc * Heap)) :
  forall (a a' : Value) (o : ptr),
    Forall (fun e => is_Some (frames (snd e) !! nl)) trace ->
    fold_trace acc nl a trace = Ok a' ->
    Forall (fun e => fst (acc_write acc nl (fst e) (snd e)) = None)
      (fst (weave nl (fun l h => snd (acc_write acc nl l h)) (acc_frame a o) trace))
    /\ snd (weave nl (fun l h => snd (acc_write acc nl l h)) (acc_frame a o) trace)
       = acc_frame a' (last_outer o (fst <$> trace)).
Proof.
  induction trace as [|[l hk] trace IH]; intros a a' o Hpres Hfold.
  - cbn [fold_trace] in Hfold. simplify_eq. split; [constructor | reflexivity].
  - inversion Hpres as [|? ? Hhead Htail]; subst. cbn [snd] in Hhead.
    cbn [fold_trace] in Hfold.
    destruct (acc_apply acc hk nl a l) as [a1|err] eqn:Hstep; [|discriminate].
    cbn [weave fst snd fmap list_fmap].
    rewrite (acc_write_acc_frame acc nl l hk a o Hhead), Hstep. cbn [fst snd].
    destruct (IH a1 a' (Some l) Htail Hfold) as [Hok Hfin].
    split.
    { constructor; [|exact Hok]. cbn [fst snd].
      rewrite (acc_write_acc_frame acc nl l hk a o Hhead), Hstep. reflexivity. }
    rewrite Hfin. change (fst (l, hk)) with l. rewrite last_outer_cons. reflexivity.
Qed.

(** The outcome of [ReduceOperator.Op] over a sub-stream that hands over
    [trace]: the accumulator is the fold over the trace, the heap is the
    one the sub-stream leaves, with Reduce's frame in it. *)
Lemma reduce_op_hands_over (op : ReduceOperator.t) (h hfin : Heap)
    (trace : list (loc * Heap)) (ending : option error) (seed a : Value) :
  Eval (ReduceOperator.Seed op) (with_new_frame h) (Some (length (frames h)))
  = Ok seed ->
  hands_over (ReduceOperator.Stream op) (length (frames h)) (with_new_frame h)
    trace ending hfin ->
  fold_trace (ReduceOperator.Accumulator op) (length (frames h)) seed trace = Ok a ->
  ReduceOperator.Op op h
  = Some (match ending with
          | Some err => Error err
          | None => Ok (ReduceOperator.func (length (frames h)))
          end,
          with_frame hfin (length (frames h))
            (acc_frame a (last_outer None (fst <$> trace)))).
Proof.
  intros Hseed [_ Hrun] Hfold.
  specialize (Hrun (fun l h' => snd (acc_write (ReduceOperator.Accumulator op)
                                       (length (frames h)) l h'))
                   (acc_frame seed None)).
  pose proof (iterate_stand_in_present _ _ _ _ _ _ _ Hrun) as Hpres.
  apply weave_present in Hpres.
  destruct (weave_fold _ _ trace seed a None Hpres Hfold) as [Hok Hfin].
  rewrite reduce_op_unfold, Hseed.
  rewrite (iterate_as_stand_in op _ _ _ _ _ _ Hrun Hok).
  rewrite Hfin. destruct ending; reflexivity.
Qed.






(** ** GroupBy *)

Lemma groupby_func_ok (op : GroupByOperator.t) (newEnv : loc) (env : ptr)
    (h : Heap) (v : Value) (e0 : Environment) :
  Eval (GroupByOperator.E op) h env = Ok v ->
  frames h !! newEnv = Some e0 ->
  GroupByOperator.func op newEnv env h
  = Some ((Some newEnv, None),
          with_frame h newEnv
            {| Vars := <[groupEnvKey := v]> (Vars e0); V := V e0; Outer := env |}).
Proof.
  intros He Hl. unfold GroupByOperator.func.
  eval_expr He.
  unfold Environment_Set, Environment_set_Outer.
  write_frame Hl.
  write_frame Hl.
  rewrite with_frame_twice. reflexivity.
Qed.

(** C10. The reserved names are the printable strings ["_group"] and
    ["_acc"].  GroupBy's step function, on every incoming Environment on
    which its expression evaluates, binds the group key under ["_group"]
    in its one output frame and makes the incoming Environment the outer
    frame; Reduce, whatever its sub-stream is, keeps the accumulator under
    ["_acc"] in its output frame, during the fold and after it.  A binding
    of the same name in the incoming Environment is therefore shadowed:
    looked up from the incoming Environment the name gives the incoming
    binding, looked up from the operator's output frame it gives the group
    key, respectively the accumulator. *)
Theorem reserved_names_shadow (gop : GroupByOperator.t) (rop : ReduceOperator.t)
    (h hfin : Heap) (trace : list (loc * Heap)) (seed a : Value) :
  Eval (ReduceOperator.Seed rop) (with_new_frame h) (Some (length (frames h)))
  = Ok seed ->
  hands_over (ReduceOperator.Stream rop) (length (frames h)) (with_new_frame h)
    trace None hfin ->
  fold_trace (ReduceOperator.Accumulator rop) (length (frames h)) seed trace
  = Ok a ->
  groupEnvKey = "_group"%string /\ accEnvKey = "_acc"%string /\
  printable groupEnvKey = true /\ printable accEnvKey = true /\
  (exists f : OperatorFunc,
     GroupByOperator.Op gop h = Some (Ok f, with_new_frame h) /\
     (forall (h2 : Heap) (env : ptr) (e0 : Environment) (key : Value),
        frames h2 !! length (frames h) = Some e0 ->
        Eval (GroupByOperator.E gop) h2 env = Ok key ->
        exists h3 out,
          f env h2 = Some ((Some (length (frames h)), None), h3) /\
          frames h3 !! length (frames h) = Some out /\
          Vars out !! "_group"%string = Some key /\ Outer out = env /\
          Environment_Get (length (frames h)) "_group" h3
          = Some ((key, None), h3)) /\
     (forall (h2 : Heap) (l : loc) (e : Environment) (u key : Value),
        is_Some (frames h2 !! length (frames h)) -> l <> length (frames h) ->
        frames h2 !! l = Some e -> Vars e !! "_group"%string = Some u ->
        Eval (GroupByOperator.E gop) h2 (Some l) = Ok key ->
        exists h3,
          f (Some l) h2 = Some ((Some (length (frames h)), None), h3) /\
          Environment_Get l "_group" h3 = Some ((u, None), h3) /\
          Environment_Get (length (frames h)) "_group" h3
          = Some ((key, None), h3))) /\
  (exists (f : OperatorFunc) (h1 : Heap) (out : Environment),
     ReduceOperator.Op rop h = Some (Ok f, h1) /\
     frames h1 !! length (frames h) = Some out /\
     Vars out !! "_acc"%string = Some a /\
     (forall env : ptr,
        exists h2 out',
          f env h1 = Some ((Some (length (frames h)), None), h2) /\
          frames h2 !! length (frames h) = Some out' /\
          Vars out' !! "_acc"%string = Some a /\
          V out' = Some a /\ Outer out' = env /\
          Environment_Get (length (frames h)) "_acc" h2 = Some ((a, None), h2)) /\
     (forall (l : loc) (e : Environment) (u : Value),
        l <> length (frames h) ->
        frames h1 !! l = Some e -> Vars e !! "_acc"%string = Some u ->
        exists h2,
          f (Some l) h1 = Some ((Some (length (frames h)), None), h2) /\
          Environment_Get l "_acc" h2 = Some ((u, None), h2) /\
          Environment_Get (length (frames h)) "_acc" h2 = Some ((a, None), h2))).
Proof.
  intros Hseed Hover Hfold.
  split; [reflexivity|]. split; [reflexivity|].
  split; [reflexivity|]. split; [reflexivity|].
  split.
  - exists (GroupByOperator.func gop (length (frames h))).
    split; [reflexivity|]. split.
    + intros h2 env e0 key He0 Hkey.
      eexists _, _.
      split; [apply (groupby_func_ok gop _ env h2 key e0 Hkey He0)|].
      split; [eapply with_frame_lookup; exact He0|].
      split; [apply lookup_insert_eq|]. split; [reflexivity|].
      eapply Environment_Get_local;
        [eapply with_frame_lookup; exact He0 | apply lookup_insert_eq].
    + intros h2 l e u key [e0 He0] Hne Hl Hu Hkey.
      eexists.
      split; [apply (groupby_func_ok gop _ (Some l) h2 key e0 Hkey He0)|].
      split.
      * eapply Environment_Get_local; [|exact Hu].
        rewrite with_frame_lookup_ne by congruence. exact Hl.
      * eapply Environment_Get_local;
          [eapply with_frame_lookup; exact He0 | apply lookup_insert_eq].
  - destruct Hover as [[efin Hfin] Hrun].
    eexists _, _, _.
    split; [apply (reduce_op_hands_over rop h hfin trace None seed a Hseed
                     (conj (ex_intro _ efin Hfin) Hrun) Hfold)|].
    split; [eapply with_frame_lookup; exact Hfin|].
    split; [apply lookup_insert_eq|].
    split.
    + intros env. eexists _, _.
      split; [eapply reduce_func_after_drain; exact Hfin|].
      split; [eapply with_frame_lookup; exact Hfin|].
      split; [apply lookup_insert_eq|].
      split; [reflexivity|]. split; [reflexivity|].
      eapply Environment_Get_local;
        [eapply with_frame_lookup; exact Hfin | apply lookup_insert_eq].
    + intros l e u Hne Hl Hu.
      rewrite with_frame_lookup_ne in Hl by congruence.
      eexists.
      split; [eapply reduce_func_after_drain; exact Hfin|].
      split.
      * eapply Environment_Get_local; [|exact Hu].
        rewrite with_frame_lookup_ne by congruence. exact Hl.
      * eapply Environment_Get_local;
          [eapply with_frame_lookup; exact Hfin | apply lookup_insert_eq].
Qed.

End Properties.

(** * The sample expressions and the group key *)









(** * Concrete runs *)

(** [take(2)] over three rows. *)
Lemma take_passes_first_n_run :
  exists (f : OperatorFunc) (h1 : Heap),
    TakeOperator.Op (VM := Sample.methods)
      (Take (Sample.lit (NewIntegerValue 2))) (Sample.rows [10; 20; 30])
    = Some (Ok f, h1) /\
    let k := Z.to_nat (Z.min 2 (Z.of_nat (length [0%nat; 1%nat; 2%nat]))) in
    (exists h2, invoke_all f (Some <$> [0%nat; 1%nat; 2%nat]) h1
       = Some ((passed <$> take k [0%nat; 1%nat; 2%nat])
                 ++ replicate (length [0%nat; 1%nat; 2%nat] - k) closed, h2)) /\
    (exists h2, Stream.drive [f] Stream.collect None [0%nat; 1%nat; 2%nat] [] h1
       = Some ((None, Some <$> take k [0%nat; 1%nat; 2%nat]), h2)) /\
    (2 <= Z.of_nat (length [0%nat; 1%nat; 2%nat]) ->
     exists h2, invoke_all f (Some <$> take (Z.to_nat 2) [0%nat; 1%nat; 2%nat]) h1
                = Some (passed <$> take (Z.to_nat 2) [0%nat; 1%nat; 2%nat], h2) /\
                forall env : ptr, f env h2 = Some (closed, h2)).
Proof.
  apply (take_passes_first_n (VM := Sample.methods)).
  - exists (NewIntegerValue 2). split; [reflexivity | left; reflexivity].
  - lia.
  - unfold int64_range, int64_min, int64_max. lia.
Defined.

(** [skip(1)] over three rows. *)
Lemma skip_drops_first_n_run :
  exists (f : OperatorFunc) (h1 : Heap),
    SkipOperator.Op (VM := Sample.methods)
      (Skip (Sample.lit (NewBoolValue true))) (Sample.rows [10; 20; 30])
    = Some (Ok f, h1) /\
    let k := Z.to_nat (Z.min 1 (Z.of_nat (length [0%nat; 1%nat; 2%nat]))) in
    (exists h2, invoke_all f (Some <$> [0%nat; 1%nat; 2%nat]) h1
       = Some (replicate k suppressed ++ (passed <$> drop k [0%nat; 1%nat; 2%nat]), h2)
       /\ frames h2 = frames h1) /\
    (exists h2, Stream.drive [f] Stream.collect None [0%nat; 1%nat; 2%nat] [] h1
       = Some ((None, Some <$> drop k [0%nat; 1%nat; 2%nat]), h2)
       /\ frames h2 = frames h1).
Proof.
  apply (skip_drops_first_n (VM := Sample.methods)).
  - exists (NewBoolValue true). split; [reflexivity|].
    right. split; [discriminate | reflexivity].
  - unfold int64_range, int64_min, int64_max. lia.
Defined.

(** A [take(1)] closure that has let one row through is closed for good. *)
Lemma take_closed_is_final_run :
  let f := TakeOperator.func 1 0 in
  let h2 := {| frames := [zero_Environment]; counters := [1] |} in
  h2 = h2 /\
  (forall (h4 : Heap) (env' : ptr),
     counters h4 = counters h2 -> f env' h4 = Some (closed, h4)) /\
  (forall envs : list ptr,
     invoke_all f envs h2 = Some (replicate (length envs) closed, h2)) /\
  (forall S : list loc,
     Stream.drive [f] Stream.collect None S [] h2 = Some ((None, []), h2)).
Proof.
  apply (take_closed_is_final (VM := Sample.methods)
           (Take (Sample.lit (NewIntegerValue 1))) empty_Heap
           (count_heap empty_Heap) (TakeOperator.func 1 0) None).
  - reflexivity.
  - reflexivity.
Defined.

(** [take(-3)] and [skip(-3)]. *)
Lemma nonpositive_count_run :
  (exists (f : OperatorFunc) (h1 : Heap),
     TakeOperator.Op (VM := Sample.methods)
       (Take (Sample.lit (NewIntegerValue (-3)))) (Sample.rows [10; 20])
     = Some (Ok f, h1) /\
     (forall env : ptr, f env h1 = Some (closed, h1)) /\
     (forall S : list loc,
        Stream.drive [f] Stream.collect None S [] h1 = Some ((None, []), h1))) /\
  (exists (f : OperatorFunc) (h1 : Heap),
     SkipOperator.Op (VM := Sample.methods)
       (Skip (Sample.lit (NewIntegerValue (-3)))) (Sample.rows [10; 20])
     = Some (Ok f, h1) /\
     (forall env : ptr, f env h1 = Some ((env, None), h1)) /\
     (forall envs : list ptr,
        invoke_all f envs h1 = Some ((fun env => (env, None)) <$> envs, h1))).
Proof.
  apply (nonpositive_count (VM := Sample.methods)
           (Take (Sample.lit (NewIntegerValue (-3))))
           (Skip (Sample.lit (NewIntegerValue (-3)))) (Sample.rows [10; 20]) (-3)).
  - exists (NewIntegerValue (-3)). split; [reflexivity | left; reflexivity].
  - exists (NewIntegerValue (-3)). split; [reflexivity | left; reflexivity].
  - lia.
Defined.

(** [filter(x > 3)] over the rows 1, 2, 3, 4, 5 keeps the last two. *)
Lemma filter_keeps_truthy_run :
  exists f : OperatorFunc,
    FilterOperator.Op (VM := Sample.methods)
      (Filter (Sample.gt Sample.current 3)) (Sample.rows [1; 2; 3; 4; 5])
    = Some (Ok f, Sample.rows [1; 2; 3; 4; 5]) /\
    Stream.drive [f] Stream.collect None [0; 1; 2; 3; 4]%nat []
      (Sample.rows [1; 2; 3; 4; 5])
    = Some ((None, [Some 3; Some 4]%nat), Sample.rows [1; 2; 3; 4; 5]).
Proof.
  destruct (filter_keeps_truthy (VM := Sample.methods)
              (Filter (Sample.gt Sample.current 3)) (Sample.rows [1; 2; 3; 4; 5])
              [0; 1; 2; 3; 4]%nat) as (f & Hop & _ & _ & _ & _ & _ & Hrun & _).
  - intros l Hl.
    repeat (apply elem_of_cons in Hl as [-> | Hl];
            [eexists _, _; split; reflexivity|]).
    apply elem_of_nil in Hl. contradiction.
  - exists f. split; [exact Hop | exact Hrun].
Defined.

(** [map(x + 10)] over the rows 1, 2, 3: three outputs, in order. *)
Lemma map_one_output_per_input_run :
  exists (f : OperatorFunc) (h2 : Heap),
    MapOperator.Op (Map (Sample.add Sample.current (Sample.lit (NewIntegerValue 10))))
      (Sample.rows [1; 2; 3])
    = Some (Ok f, with_new_frame (Sample.rows [1; 2; 3])) /\
    Stream.drive [f] snapshot None [0; 1; 2]%nat []
      (with_new_frame (Sample.rows [1; 2; 3]))
    = Some ((None,
             [ {| Vars := ∅; V := Some (NewIntegerValue 11); Outer := Some 0%nat |};
               {| Vars := ∅; V := Some (NewIntegerValue 12); Outer := Some 1%nat |};
               {| Vars := ∅; V := Some (NewIntegerValue 13); Outer := Some 2%nat |} ]),
            h2).
Proof.
  destruct (map_one_output_per_input
              (Map (Sample.add Sample.current (Sample.lit (NewIntegerValue 10))))
              (Sample.rows [1; 2; 3])
              (fun l => NewIntegerValue (Z.of_nat l + 11))
              [0; 1; 2]%nat) as (f & newEnv & Hop & _ & _ & _ & _ & h2 & Hrun).
  - intros l e0 Hl.
    repeat (apply elem_of_cons in Hl as [-> | Hl]; [reflexivity|]).
    apply elem_of_nil in Hl. contradiction.
  - exists f, h2. split; [exact Hop | exact Hrun].
Defined.




(** Rows that bind ["_group"] and ["_acc"] themselves: GroupBy's key and
    Reduce's accumulator shadow the row's bindings in the output frames. *)
Lemma reserved_names_shadow_run :
  let rop := {| ReduceOperator.Seed := Sample.lit (NewIntegerValue 0);
                ReduceOperator.Accumulator :=
                  Sample.add (Sample.var accEnvKey) Sample.current;
                ReduceOperator.Stream :=
                  {| Stream.source := [0; 1; 2]%nat; Stream.source_err := None;
                     Stream.operators :=
                       [SkipOperator.operator (VM := Sample.methods)
                          (Skip (Sample.lit (NewIntegerValue 1)))] |} |} in
  let row (x : Z) := {| Vars := <["_acc"%string := NewIntegerValue 100]>
                                  (<["_group"%string := NewIntegerValue 7]> ∅);
                        V := Some (NewIntegerValue x); Outer := None |} in
  let h := {| frames := [row 1; row 2; row 3]; counters := [] |} in
  (exists (f : OperatorFunc) (h3 : Heap) (out : Environment),
     GroupByOperator.Op (GroupBy Sample.current) h = Some (Ok f, with_new_frame h) /\
     f (Some 0%nat) (with_new_frame h) = Some ((Some 3%nat, None), h3) /\
     frames h3 !! 3%nat = Some out /\
     Vars out !! "_group"%string = Some (NewIntegerValue 1) /\
     Environment_Get 0%nat "_group" h3 = Some ((NewIntegerValue 7, None), h3) /\
     Environment_Get 3%nat "_group" h3 = Some ((NewIntegerValue 1, None), h3)) /\
  (exists (f : OperatorFunc) (h1 h2 : Heap),
     ReduceOperator.Op rop h = Some (Ok f, h1) /\
     f (Some 0%nat) h1 = Some ((Some 3%nat, None), h2) /\
     Environment_Get 0%nat "_acc" h2 = Some ((NewIntegerValue 100, None), h2) /\
     Environment_Get 3%nat "_acc" h2 = Some ((NewIntegerValue 5, None), h2)).
Proof.
  intros rop row h.
  set (hk := {| frames := frames h ++ [zero_Environment; zero_Environment];
                counters := [1] |}).
  destruct (reserved_names_shadow (GroupBy Sample.current) rop h hk
              [(1%nat, hk); (2%nat, hk)] (NewIntegerValue 0) (NewIntegerValue 5))
    as (_ & _ & _ & _ & (f & Hop & Hbind & Hshadow)
        & (g & h1 & out1 & Hrop & _ & _ & _ & Hacc)).
  - reflexivity.
  - split; [eexists; reflexivity | intros w x; reflexivity].
  - vm_compute. reflexivity.
  - split.
    + destruct (Hbind (with_new_frame h) (Some 0%nat) zero_Environment
                  (NewIntegerValue 1))
        as (h3 & out & Hrun & Hout & Hkey & _ & Hget); [reflexivity..|].
      destruct (Hshadow (with_new_frame h) 0%nat (row 1)
                  (NewIntegerValue 7) (NewIntegerValue 1))
        as (h3' & Hrun' & Huser & _).
      { eexists. reflexivity. }
      { discriminate. }
      { reflexivity. }
      { reflexivity. }
      { reflexivity. }
      rewrite Hrun in Hrun'. injection Hrun' as <-.
      exists f, h3, out.
      split; [exact Hop|]. split; [exact Hrun|]. split; [exact Hout|].
      split; [exact Hkey|]. split; [exact Huser | exact Hget].
    + rewrite Hrop.
      destruct (Hacc 0%nat (row 1) (NewIntegerValue 100))
        as (h2 & Hrun & Huser & Hget).
      { discriminate. }
      { pose proof Hrop as Hcomputed.
        assert (Hh1 : ReduceOperator.Op rop h
                      = Some (Ok (ReduceOperator.func 3),
                              with_frame hk 3
                                (acc_frame (NewIntegerValue 5) (Some 2%nat))))
          by reflexivity.
        rewrite Hh1 in Hcomputed. injection Hcomputed as _ <-. reflexivity. }
      { reflexivity. }
      exists g, h1, h2. auto.
Defined.

(** A literal count of 2: one evaluation, at construction, and none by
    the step function over three invocations.  A count that is a text:
    [CastAsInteger] rejects it and no step function is built; a count that
    fails to evaluate: the same. *)
Lemma count_evaluated_at_construction_run :
  Traced.take_Op (VM := Sample.methods) (Take (Sample.lit (NewIntegerValue 2)))
    empty_Heap
  = Some ((Ok (Traced.take_func 2 0),
           [(Sample.lit (NewIntegerValue 2), Some 0%nat)]), count_heap empty_Heap)
  /\
  Traced.evaluations
    (Traced.invoke_all (Traced.take_func 2 0) [Some 0%nat; Some 0%nat; Some 0%nat])
    (count_heap empty_Heap) = []
  /\
  TakeOperator.Op (VM := Sample.methods) (Take (Sample.lit (NewTextValue "two")))
    empty_Heap
  = Some (Error (TypeConversionError "cannot cast to integer"), count_heap empty_Heap)
  /\
  SkipOperator.Op (VM := Sample.methods) (Skip Sample.current) empty_Heap
  = Some (Error (EvaluationError "no current value"), count_heap empty_Heap).
Proof.
  destruct (count_evaluated_at_construction (VM := Sample.methods)
              (Sample.lit (NewIntegerValue 2)) empty_Heap)
    as (_ & _ & _ & Hok & _ & _ & Hstep & _).
  destruct (count_evaluated_at_construction (VM := Sample.methods)
              (Sample.lit (NewTextValue "two")) empty_Heap)
    as (_ & _ & Hcast & _).
  destruct (count_evaluated_at_construction (VM := Sample.methods)
              Sample.current empty_Heap)
    as (_ & Heval & _).
  split; [|split; [|split]].
  - apply (Hok 2). exists (NewIntegerValue 2). split; [reflexivity | left; reflexivity].
  - unfold Traced.evaluations.
    rewrite (proj1 (Hstep 2 0%nat [Some 0%nat; Some 0%nat; Some 0%nat]
                      (count_heap empty_Heap))).
    reflexivity.
  - apply (Hcast (NewTextValue "two")); [reflexivity | discriminate | reflexivity].
  - apply Heval. reflexivity.
Defined.

(** * Whole pipelines *)

(** The rows 1 to 5 through [skip(1)], [take(2)] and [map(x + 10)]: the
    callback sees 12 and 13, each in Map's output frame with the row as
    outer frame. *)
Example skip_take_map_pipeline :
  fst <$> Stream.Iterate
            {| Stream.source := [0; 1; 2; 3; 4]%nat;
               Stream.source_err := None;
               Stream.operators :=
                 [ SkipOperator.operator (VM := Sample.methods)
                     (Skip (Sample.lit (NewIntegerValue 1)));
                   TakeOperator.operator (VM := Sample.methods)
                     (Take (Sample.lit (NewIntegerValue 2)));
                   MapOperator.operator
                     (Map (Sample.add Sample.current
                             (Sample.lit (NewIntegerValue 10)))) ] |}
            snapshot [] (Sample.rows [1; 2; 3; 4; 5])
  = Some (None,
          [ {| Vars := ∅; V := Some (NewIntegerValue 12); Outer := Some 1%nat |};
            {| Vars := ∅; V := Some (NewIntegerValue 13); Outer := Some 2%nat |} ]).
Proof. vm_compute. reflexivity. Qed.

(** [reduce(0, _acc + x)] whose sub-stream is the rows 1 to 5 through
    [skip(1)] and [take(2)]: the accumulator is 2 + 3. *)
Example reduce_over_skip_take :
  match ReduceOperator.Op
          {| ReduceOperator.Seed := Sample.lit (NewIntegerValue 0);
             ReduceOperator.Accumulator :=
               Sample.add (Sample.var accEnvKey) Sample.current;
             ReduceOperator.Stream :=
               {| Stream.source := [0; 1; 2; 3; 4]%nat;
                  Stream.source_err := None;
                  Stream.operators :=
                    [ SkipOperator.operator (VM := Sample.methods)
                        (Skip (Sample.lit (NewIntegerValue 1)));
                      TakeOperator.operator (VM := Sample.methods)
                        (Take (Sample.lit (NewIntegerValue 2))) ] |} |}
          (Sample.rows [1; 2; 3; 4; 5]) with
  | Some (Ok f, h1) =>
      match f None h1 with
      | Some ((Some l, err), h2) => Some (l, err, V <$> frames h2 !! l)
      | Some ((None, _), _) => None
      | None => None
      end
  | _ => None
  end
  = Some (5%nat, None, Some (Some (NewIntegerValue 5))).
Proof. vm_compute. reflexivity. Qed.

(** A Take operator is reusable: every call of [Op] builds a closure with a
    counter of its own, so a second traversal of the same operator again
    lets two rows through. *)
Example take_operator_reused :
  let s := {| Stream.source := [0; 1; 2]%nat;
              Stream.source_err := None;
              Stream.operators :=
                [ TakeOperator.operator (VM := Sample.methods)
                    (Take (Sample.lit (NewIntegerValue 2))) ] |} in
  match Stream.Iterate s Stream.collect [] (Sample.rows [1; 2; 3]) with
  | Some ((err1, seen1), h1) =>
      match Stream.Iterate s Stream.collect [] h1 with
      | Some ((err2, seen2), _) => Some (seen1, seen2)
      | None => None
      end
  | None => None
  end
  = Some ([Some 0; Some 1]%nat, [Some 0; Some 1]%nat).
Proof. vm_compute. reflexivity. Qed.

(** * Further properties of the operators *)

Section Composition.

Context `{VM : ValueMethods}.

(** ** Several step functions under the traversal loop *)

Lemma apply_cons (f : OperatorFunc) (fs : list OperatorFunc) (env : ptr)
    (h h' : Heap) (r : ptr * option error) :
  f env h = Some (r, h') ->
  Stream.apply (f :: fs) env h
  = match r with
    | (_, Some err) => Some ((None, Some err), h')
    | (None, None) => Some ((None, None), h')
    | (Some l, None) => Stream.apply fs (Some l) h'
    end.
Proof.
  intros Hf. cbn [Stream.apply]. erewrite M_bind_Some by exact Hf.
  destruct r as [[l|] [err|]]; reflexivity.
Qed.

Lemma drive_cons (fs : list OperatorFunc) (ending : option error) (l : loc)
    (items : list loc) (seen : list ptr) (h h' : Heap) (r : ptr * option error) :
  Stream.apply fs (Some l) h = Some (r, h') ->
  Stream.drive fs Stream.collect ending (l :: items) seen h
  = match r with
    | (_, Some ErrStreamClosed) => Some ((None, seen), h')
    | (_, Some err) => Some ((Some err, seen), h')
    | (None, None) => Stream.drive fs Stream.collect ending items seen h'
    | (Some l', None) =>
        Stream.drive fs Stream.collect ending items (seen ++ [Some l']) h'
    end.
Proof.
  intros Hf. cbn [Stream.drive]. erewrite M_bind_Some by exact Hf.
  destruct r as [[l'|] [[]|]]; reflexivity.
Qed.

(** ** The counter closures as transitions on their counter *)

Lemma take_func_step (n : Z) (c : loc) (env : ptr) (h : Heap) (k : Z) :
  counters h !! c = Some k -> 0 <= k -> int64_range n ->
  TakeOperator.func n c env h
  = Some (if k <? n then (env, None) else closed,
          if k <? n then with_counter h c (k + 1) else h).
Proof.
  intros Hc Hk Hn. destruct (Z.ltb_spec k n).
  - rewrite (take_func_pass n c env h k Hc) by assumption.
    rewrite (int64_incr_exact k n) by assumption. reflexivity.
  - apply (take_func_closed n c env h k Hc). assumption.
Qed.

Lemma skip_func_step (n : Z) (c : loc) (env : ptr) (h : Heap) (k : Z) :
  counters h !! c = Some k -> 0 <= k -> int64_range n ->
  SkipOperator.func n c env h
  = Some (if k <? n then suppressed else (env, None),
          if k <? n then with_counter h c (k + 1) else h).
Proof.
  intros Hc Hk Hn. destruct (Z.ltb_spec k n).
  - rewrite (skip_func_suppress n c env h k Hc) by assumption.
    rewrite (int64_incr_exact k n) by assumption. reflexivity.
  - apply (skip_func_pass n c env h k Hc). assumption.
Qed.

Lemma with_counter_lookup_ne (h : Heap) (c c' : loc) (z : Z) :
  c <> c' -> counters (with_counter h c z) !! c' = counters h !! c'.
Proof. intros Hne. simpl. apply list_lookup_insert_ne. exact Hne. Qed.

(** ** Skip followed by Take *)

Lemma skip_take_drive (n1 n2 : Z) (c1 c2 : loc) (S : list loc) :
  c1 <> c2 -> int64_range n1 -> int64_range n2 ->
  forall (h : Heap) (k1 k2 : Z) (seen : list ptr),
    counters h !! c1 = Some k1 -> counters h !! c2 = Some k2 ->
    0 <= k1 -> 0 <= k2 ->
    exists h',
      Stream.drive [SkipOperator.func n1 c1; TakeOperator.func n2 c2]
        Stream.collect None S seen h
      = Some ((None,
               seen ++ (Some <$> take (Z.to_nat (n2 - k2))
                                   (drop (Z.to_nat (n1 - k1)) S))), h')
      /\ frames h' = frames h.
Proof.
  intros Hne Hn1 Hn2. induction S as [|l S IH]; intros h k1 k2 seen Hc1 Hc2 Hk1 Hk2.
  - exists h. rewrite drop_nil, take_nil. simpl. rewrite app_nil_r. auto.
  - destruct (Z.ltb_spec k1 n1) as [Hlt1|Hge1].
    + erewrite drive_cons.
      2:{ erewrite apply_cons by (apply skip_func_step; eassumption).
          destruct (Z.ltb_spec k1 n1); [reflexivity | lia]. }
      cbn beta iota.
      destruct (IH (with_counter h c1 (k1 + 1)) (k1 + 1) k2 seen) as (h' & Hrun & Hf).
      { eapply with_counter_lookup; eassumption. }
      { rewrite with_counter_lookup_ne by exact Hne. exact Hc2. }
      { lia. } { lia. }
      exists h'. rewrite Hrun.
      replace (Z.to_nat (n1 - k1)) with (Datatypes.S (Z.to_nat (n1 - (k1 + 1)))) by lia.
      auto.
    + replace (Z.to_nat (n1 - k1)) with 0%nat by lia. rewrite drop_0.
      destruct (Z.ltb_spec k2 n2) as [Hlt2|Hge2].
      * erewrite drive_cons.
        2:{ erewrite apply_cons by (apply skip_func_step; eassumption).
            destruct (Z.ltb_spec k1 n1); [lia|]. cbn beta iota.
            erewrite apply_cons by (apply take_func_step; eassumption).
            destruct (Z.ltb_spec k2 n2); [reflexivity | lia]. }
        cbn beta iota.
        destruct (IH (with_counter h c2 (k2 + 1)) k1 (k2 + 1) (seen ++ [Some l]))
          as (h' & Hrun & Hf).
        { rewrite with_counter_lookup_ne by congruence. exact Hc1. }
        { eapply with_counter_lookup; eassumption. }
        { lia. } { lia. }
        exists h'. rewrite Hrun.
        replace (Z.to_nat (n1 - k1)) with 0%nat by lia. rewrite drop_0.
        replace (Z.to_nat (n2 - k2)) with (Datatypes.S (Z.to_nat (n2 - (k2 + 1)))) by lia.
        simpl. rewrite <- app_assoc. auto.
      * erewrite drive_cons.
        2:{ erewrite apply_cons by (apply skip_func_step; eassumption).
            destruct (Z.ltb_spec k1 n1); [lia|]. cbn beta iota.
            erewrite apply_cons by (apply take_func_step; eassumption).
            destruct (Z.ltb_spec k2 n2); [lia | reflexivity]. }
        cbn beta iota. exists h.
        replace (Z.to_nat (n2 - k2)) with 0%nat by lia.
        rewrite take_0. simpl. rewrite app_nil_r. auto.
Qed.

(** ** Take followed by Take *)

Lemma take_take_drive (n1 n2 : Z) (c1 c2 : loc) (S : list loc) :
  c1 <> c2 -> int64_range n1 -> int64_range n2 ->
  forall (h : Heap) (k1 k2 : Z) (seen : list ptr),
    counters h !! c1 = Some k1 -> counters h !! c2 = Some k2 ->
    0 <= k1 -> 0 <= k2 ->
    exists h',
      Stream.drive [TakeOperator.func n1 c1; TakeOperator.func n2 c2]
        Stream.collect None S seen h
      = Some ((None,
               seen ++ (Some <$> take (Z.to_nat (Z.min (n1 - k1) (n2 - k2))) S)), h')
      /\ frames h' = frames h.
Proof.
  intros Hne Hn1 Hn2. induction S as [|l S IH]; intros h k1 k2 seen Hc1 Hc2 Hk1 Hk2.
  - exists h. rewrite take_nil. simpl. rewrite app_nil_r. auto.
  - destruct (Z.ltb_spec k1 n1) as [Hlt1|Hge1].
    + assert (Hc2' : counters (with_counter h c1 (k1 + 1)) !! c2 = Some k2)
        by (rewrite with_counter_lookup_ne by exact Hne; exact Hc2).
      destruct (Z.ltb_spec k2 n2) as [Hlt2|Hge2].
      * erewrite drive_cons.
        2:{ erewrite apply_cons by (apply take_func_step; eassumption).
            destruct (Z.ltb_spec k1 n1); [|lia]. cbn beta iota.
            erewrite apply_cons by (apply take_func_step; eassumption).
            destruct (Z.ltb_spec k2 n2); [reflexivity | lia]. }
        cbn beta iota.
        destruct (IH (with_counter (with_counter h c1 (k1 + 1)) c2 (k2 + 1))
                    (k1 + 1) (k2 + 1) (seen ++ [Some l])) as (h' & Hrun & Hf).
        { rewrite with_counter_lookup_ne by congruence.
          eapply with_counter_lookup; eassumption. }
        { eapply with_counter_lookup; eassumption. }
        { lia. } { lia. }
        exists h'. rewrite Hrun.
        replace (Z.to_nat (Z.min (n1 - k1) (n2 - k2)))
          with (Datatypes.S (Z.to_nat (Z.min (n1 - (k1 + 1)) (n2 - (k2 + 1))))) by lia.
        simpl. rewrite <- app_assoc. auto.
      * erewrite drive_cons.
        2:{ erewrite apply_cons by (apply take_func_step; eassumption).
            destruct (Z.ltb_spec k1 n1); [|lia]. cbn beta iota.
            erewrite apply_cons by (apply take_func_step; eassumption).
            destruct (Z.ltb_spec k2 n2); [lia | reflexivity]. }
        cbn beta iota. eexists.
        replace (Z.to_nat (Z.min (n1 - k1) (n2 - k2))) with 0%nat by lia.
        rewrite take_0. simpl. rewrite app_nil_r. auto.
    + erewrite drive_cons.
      2:{ erewrite apply_cons by (apply take_func_step; eassumption).
          destruct (Z.ltb_spec k1 n1); [lia | reflexivity]. }
      cbn beta iota. exists h.
      replace (Z.to_nat (Z.min (n1 - k1) (n2 - k2))) with 0%nat by lia.
      rewrite take_0. simpl. rewrite app_nil_r. auto.
Qed.

(** ** Skip followed by Skip *)

Lemma skip_skip_drive (n1 n2 : Z) (c1 c2 : loc) (S : list loc) :
  c1 <> c2 -> int64_range n1 -> int64_range n2 ->
  forall (h : Heap) (k1 k2 : Z) (seen : list ptr),
    counters h !! c1 = Some k1 -> counters h !! c2 = Some k2 ->
    0 <= k1 -> 0 <= k2 ->
    exists h',
      Stream.drive [SkipOperator.func n1 c1; SkipOperator.func n2 c2]
        Stream.collect None S seen h
      = Some ((None,
               seen ++ (Some <$> drop (Z.to_nat (n1 - k1) + Z.to_nat (n2 - k2)) S)), h')
      /\ frames h' = frames h.
Proof.
  intros Hne Hn1 Hn2. induction S as [|l S IH]; intros h k1 k2 seen Hc1 Hc2 Hk1 Hk2.
  - exists h. rewrite drop_nil. simpl. rewrite app_nil_r. auto.
  - destruct (Z.ltb_spec k1 n1) as [Hlt1|Hge1].
    + erewrite drive_cons.
      2:{ erewrite apply_cons by (apply skip_func_step; eassumption).
          destruct (Z.ltb_spec k1 n1); [reflexivity | lia]. }
      cbn beta iota.
      destruct (IH (with_counter h c1 (k1 + 1)) (k1 + 1) k2 seen) as (h' & Hrun & Hf).
      { eapply with_counter_lookup; eassumption. }
      { rewrite with_counter_lookup_ne by exact Hne. exact Hc2. }
      { lia. } { lia. }
      exists h'. rewrite Hrun.
      replace (Z.to_nat (n1 - k1)) with (Datatypes.S (Z.to_nat (n1 - (k1 + 1)))) by lia.
      auto.
    + replace (Z.to_nat (n1 - k1)) with 0%nat by lia. rewrite Nat.add_0_l.
      destruct (Z.ltb_spec k2 n2) as [Hlt2|Hge2].
      * erewrite drive_cons.
        2:{ erewrite apply_cons by (apply skip_func_step; eassumption).
            destruct (Z.ltb_spec k1 n1); [lia|]. cbn beta iota.
            erewrite apply_cons by (apply skip_func_step; eassumption).
            destruct (Z.ltb_spec k2 n2); [reflexivity | lia]. }
        cbn beta iota.
        destruct (IH (with_counter h c2 (k2 + 1)) k1 (k2 + 1) seen) as (h' & Hrun & Hf).
        { rewrite with_counter_lookup_ne by congruence. exact Hc1. }
        { eapply with_counter_lookup; eassumption. }
        { lia. } { lia. }
        exists h'. rewrite Hrun.
        replace (Z.to_nat (n1 - k1)) with 0%nat by lia. rewrite Nat.add_0_l.
        replace (Z.to_nat (n2 - k2)) with (Datatypes.S (Z.to_nat (n2 - (k2 + 1)))) by lia.
        auto.
      * erewrite drive_cons.
        2:{ erewrite apply_cons by (apply skip_func_step; eassumption).
            destruct (Z.ltb_spec k1 n1); [lia|]. cbn beta iota.
            erewrite apply_cons by (apply skip_func_step; eassumption).
            destruct (Z.ltb_spec k2 n2); [lia | reflexivity]. }
        cbn beta iota.
        destruct (IH h k1 k2 (seen ++ [Some l]) Hc1 Hc2 Hk1 Hk2) as (h' & Hrun & Hf).
        exists h'. rewrite Hrun.
        replace (Z.to_nat (n1 - k1)) with 0%nat by lia.
        replace (Z.to_nat (n2 - k2)) with 0%nat by lia.
        simpl. rewrite !drop_0. rewrite <- app_assoc. auto.
Qed.

(** ** Take followed by Skip *)

Lemma take_skip_drive (n1 n2 : Z) (c1 c2 : loc) (S : list loc) :
  c1 <> c2 -> int64_range n1 -> int64_range n2 ->
  forall (h : Heap) (k1 k2 : Z) (seen : list ptr),
    counters h !! c1 = Some k1 -> counters h !! c2 = Some k2 ->
    0 <= k1 -> 0 <= k2 ->
    exists h',
      Stream.drive [TakeOperator.func n1 c1; SkipOperator.func n2 c2]
        Stream.collect None S seen h
      = Some ((None,
               seen ++ (Some <$> drop (Z.to_nat (n2 - k2))
                                   (take (Z.to_nat (n1 - k1)) S))), h')
      /\ frames h' = frames h.
Proof.
  intros Hne Hn1 Hn2. induction S as [|l S IH]; intros h k1 k2 seen Hc1 Hc2 Hk1 Hk2.
  - exists h. rewrite take_nil, drop_nil. simpl. rewrite app_nil_r. auto.
  - destruct (Z.ltb_spec k1 n1) as [Hlt1|Hge1].
    + assert (Hc2' : counters (with_counter h c1 (k1 + 1)) !! c2 = Some k2)
        by (rewrite with_counter_lookup_ne by exact Hne; exact Hc2).
      assert (Hc1' : counters (with_counter h c1 (k1 + 1)) !! c1 = Some (k1 + 1))
        by (eapply with_counter_lookup; eassumption).
      replace (Z.to_nat (n1 - k1)) with (Datatypes.S (Z.to_nat (n1 - (k1 + 1)))) by lia.
      destruct (Z.ltb_spec k2 n2) as [Hlt2|Hge2].
      * erewrite drive_cons.
        2:{ erewrite apply_cons by (apply take_func_step; eassumption).
            destruct (Z.ltb_spec k1 n1); [|lia]. cbn beta iota.
            erewrite apply_cons by (apply skip_func_step; eassumption).
            destruct (Z.ltb_spec k2 n2); [reflexivity | lia]. }
        cbn beta iota.
        destruct (IH (with_counter (with_counter h c1 (k1 + 1)) c2 (k2 + 1))
                    (k1 + 1) (k2 + 1) seen) as (h' & Hrun & Hf).
        { rewrite with_counter_lookup_ne by congruence. exact Hc1'. }
        { eapply with_counter_lookup; eassumption. }
        { lia. } { lia. }
        exists h'. rewrite Hrun.
        replace (Z.to_nat (n2 - k2)) with (Datatypes.S (Z.to_nat (n2 - (k2 + 1)))) by lia.
        auto.
      * erewrite drive_cons.
        2:{ erewrite apply_cons by (apply take_func_step; eassumption).
            destruct (Z.ltb_spec k1 n1); [|lia]. cbn beta iota.
            erewrite apply_cons by (apply skip_func_step; eassumption).
            destruct (Z.ltb_spec k2 n2); [lia | reflexivity]. }
        cbn beta iota.
        destruct (IH (with_counter h c1 (k1 + 1)) (k1 + 1) k2 (seen ++ [Some l]))
          as (h' & Hrun & Hf); [assumption | assumption | lia | lia |].
        exists h'. rewrite Hrun.
        replace (Z.to_nat (n2 - k2)) with 0%nat by lia.
        rewrite !drop_0. simpl. rewrite <- app_assoc. auto.
    + erewrite drive_cons.
      2:{ erewrite apply_cons by (apply take_func_step; eassumption).
          destruct (Z.ltb_spec k1 n1); [lia | reflexivity]. }
      cbn beta iota. exists h.
      replace (Z.to_nat (n1 - k1)) with 0%nat by lia.
      rewrite take_0, drop_nil. simpl. rewrite app_nil_r. auto.
Qed.

(** ** Construction of a two-operator pipeline *)

Lemma construct_two (op1 op2 : Operator) (f1 f2 : OperatorFunc) (h h1 h2 : Heap) :
  Op op1 h = Some (Ok f1, h1) -> Op op2 h1 = Some (Ok f2, h2) ->
  Stream.construct [op1; op2] h = Some (Ok [f1; f2], h2).
Proof.
  intros H1 H2. cbn [Stream.construct].
  erewrite M_bind_Some by exact H1. cbn beta iota.
  erewrite M_bind_Some by (erewrite M_bind_Some by exact H2; reflexivity).
  reflexivity.
Qed.

Lemma iterate_two {U : Type} (op1 op2 : Operator) (f1 f2 : OperatorFunc)
    (h h1 h2 : Heap) (S : list loc) (ending : option error)
    (fn : Stream.callback U) (u : U) :
  Op op1 h = Some (Ok f1, h1) -> Op op2 h1 = Some (Ok f2, h2) ->
  Stream.Iterate {| Stream.source := S; Stream.source_err := ending;
                    Stream.operators := [op1; op2] |} fn u h
  = Stream.drive [f1; f2] fn ending S u h2.
Proof.
  intros H1 H2. unfold Stream.Iterate. cbn [Stream.operators].
  erewrite M_bind_Some by (eapply construct_two; eassumption).
  reflexivity.
Qed.

Lemma count_heap_counter_old (h : Heap) (c : loc) (k : Z) :
  counters h !! c = Some k -> counters (count_heap h) !! c = Some k.
Proof.
  intros Hc. simpl. rewrite lookup_app_l; [exact Hc|].
  apply lookup_lt_Some in Hc. exact Hc.
Qed.

Lemma count_heap_counters_length (h : Heap) :
  length (counters (count_heap h)) = Datatypes.S (length (counters h)).
Proof. simpl. rewrite length_app. simpl. lia. Qed.

Lemma two_counters (h : Heap) :
  counters (count_heap (count_heap h)) !! length (counters h) = Some 0
  /\ counters (count_heap (count_heap h)) !! length (counters (count_heap h)) = Some 0
  /\ length (counters h) <> length (counters (count_heap h)).
Proof.
  split; [|split].
  - apply count_heap_counter_old, count_heap_counter.
  - apply count_heap_counter.
  - rewrite count_heap_counters_length. lia.
Qed.

(** X1. A source [S] piped through [skip(a)] and then [take(b)] hands the
    callback the first [b] of the Environments that follow the first [a]
    ones, and the traversal ends without error. *)
Theorem skip_then_take (ms : SkipOperator.t) (mt : TakeOperator.t) (h : Heap)
    (a b : Z) (S : list loc) :
  count_is (SkipOperator.E ms) h a ->
  count_is (TakeOperator.E mt) (count_heap h) b ->
  int64_range a -> int64_range b ->
  exists h',
    Stream.Iterate
      {| Stream.source := S; Stream.source_err := None;
         Stream.operators := [SkipOperator.operator ms; TakeOperator.operator mt] |}
      Stream.collect [] h
    = Some ((None, Some <$> take (Z.to_nat b) (drop (Z.to_nat a) S)), h').
Proof.
  intros Ha Hb Hra Hrb.
  rewrite (iterate_two (SkipOperator.operator ms) (TakeOperator.operator mt)
             _ _ h _ _ S None Stream.collect []
             (skip_op_ok ms h a Ha) (take_op_ok mt (count_heap h) b Hb)).
  destruct (two_counters h) as (Hc1 & Hc2 & Hne).
  destruct (skip_take_drive a b _ _ S Hne Hra Hrb _ 0 0 [] Hc1 Hc2)
    as (h' & Hrun & _); [lia | lia |].
  exists h'. rewrite !Z.sub_0_r in Hrun. exact Hrun.
Qed.

(** X2. A source [S] piped through [take(a)] and then [skip(b)] hands the
    callback the first [a] Environments of [S] without their first [b]:
    the two operators do not commute. *)
Theorem take_then_skip (mt : TakeOperator.t) (ms : SkipOperator.t) (h : Heap)
    (a b : Z) (S : list loc) :
  count_is (TakeOperator.E mt) h a ->
  count_is (SkipOperator.E ms) (count_heap h) b ->
  int64_range a -> int64_range b ->
  exists h',
    Stream.Iterate
      {| Stream.source := S; Stream.source_err := None;
         Stream.operators := [TakeOperator.operator mt; SkipOperator.operator ms] |}
      Stream.collect [] h
    = Some ((None, Some <$> drop (Z.to_nat b) (take (Z.to_nat a) S)), h').
Proof.
  intros Ha Hb Hra Hrb.
  rewrite (iterate_two (TakeOperator.operator mt) (SkipOperator.operator ms)
             _ _ h _ _ S None Stream.collect []
             (take_op_ok mt h a Ha) (skip_op_ok ms (count_heap h) b Hb)).
  destruct (two_counters h) as (Hc1 & Hc2 & Hne).
  destruct (take_skip_drive a b _ _ S Hne Hra Hrb _ 0 0 [] Hc1 Hc2)
    as (h' & Hrun & _); [lia | lia |].
  exists h'. rewrite !Z.sub_0_r in Hrun. exact Hrun.
Qed.

(** X3. Two Take operators in a row act as one Take of the smaller count:
    [take(a)] then [take(b)] hands the callback the first [min(a, b)]
    Environments of [S]. *)
Theorem take_then_take (m1 m2 : TakeOperator.t) (h : Heap) (a b : Z) (S : list loc) :
  count_is (TakeOperator.E m1) h a ->
  count_is (TakeOperator.E m2) (count_heap h) b ->
  int64_range a -> int64_range b ->
  exists h',
    Stream.Iterate
      {| Stream.source := S; Stream.source_err := None;
         Stream.operators := [TakeOperator.operator m1; TakeOperator.operator m2] |}
      Stream.collect [] h
    = Some ((None, Some <$> take (Z.to_nat (Z.min a b)) S), h').
Proof.
  intros Ha Hb Hra Hrb.
  rewrite (iterate_two (TakeOperator.operator m1) (TakeOperator.operator m2)
             _ _ h _ _ S None Stream.collect []
             (take_op_ok m1 h a Ha) (take_op_ok m2 (count_heap h) b Hb)).
  destruct (two_counters h) as (Hc1 & Hc2 & Hne).
  destruct (take_take_drive a b _ _ S Hne Hra Hrb _ 0 0 [] Hc1 Hc2)
    as (h' & Hrun & _); [lia | lia |].
  exists h'. rewrite !Z.sub_0_r in Hrun. exact Hrun.
Qed.

(** X4. Two Skip operators in a row act as one Skip of the sum of the
    counts, a negative count counting for zero: [skip(a)] then [skip(b)]
    hands the callback [S] without its first [max(a, 0) + max(b, 0)]
    Environments. *)
Theorem skip_then_skip (m1 m2 : SkipOperator.t) (h : Heap) (a b : Z) (S : list loc) :
  count_is (SkipOperator.E m1) h a ->
  count_is (SkipOperator.E m2) (count_heap h) b ->
  int64_range a -> int64_range b ->
  exists h',
    Stream.Iterate
      {| Stream.source := S; Stream.source_err := None;
         Stream.operators := [SkipOperator.operator m1; SkipOperator.operator m2] |}
      Stream.collect [] h
    = Some ((None, Some <$> drop (Z.to_nat (Z.max a 0 + Z.max b 0)) S), h').
Proof.
  intros Ha Hb Hra Hrb.
  rewrite (iterate_two (SkipOperator.operator m1) (SkipOperator.operator m2)
             _ _ h _ _ S None Stream.collect []
             (skip_op_ok m1 h a Ha) (skip_op_ok m2 (count_heap h) b Hb)).
  destruct (two_counters h) as (Hc1 & Hc2 & Hne).
  destruct (skip_skip_drive a b _ _ S Hne Hra Hrb _ 0 0 [] Hc1 Hc2)
    as (h' & Hrun & _); [lia | lia |].
  exists h'. rewrite !Z.sub_0_r in Hrun.
  replace (Z.to_nat (Z.max a 0 + Z.max b 0)) with (Z.to_nat a + Z.to_nat b)%nat by lia.
  exact Hrun.
Qed.

(** ** Filter followed by Filter *)

Lemma evaluates_on_cons (m : FilterOperator.t) (h : Heap) (l : loc) (S : list loc) :
  evaluates_on m h (l :: S) ->
  (exists v b, Eval (FilterOperator.E m) h (Some l) = Ok v /\ IsTruthy v = Ok b)
  /\ evaluates_on m h S.
Proof.
  intros Hall. split; [apply Hall; left|].
  intros l' Hin. apply Hall. right. exact Hin.
Qed.

Lemma filter_filter_drive (mp mq : FilterOperator.t) (h : Heap) (S : list loc) :
  evaluates_on mp h S -> evaluates_on mq h S ->
  forall seen : list ptr,
    Stream.drive [FilterOperator.func mp; FilterOperator.func mq]
      Stream.collect None S seen h
    = Some ((None,
             seen ++ (Some <$> List.filter
                        (fun l => truthy (FilterOperator.E mp) h l
                                  && truthy (FilterOperator.E mq) h l) S)), h).
Proof.
  induction S as [|l S IH]; intros Hp Hq seen.
  - simpl. rewrite app_nil_r. reflexivity.
  - apply evaluates_on_cons in Hp as [Hpl Hp].
    apply evaluates_on_cons in Hq as [Hql Hq].
    pose proof (filter_func_on_row mp h l Hpl) as Hfp.
    pose proof (filter_func_on_row mq h l Hql) as Hfq.
    cbn [List.filter].
    unfold passed, suppressed in Hfp, Hfq.
    destruct (truthy (FilterOperator.E mp) h l) eqn:Htp; rewrite ?Htp in Hfp.
    + destruct (truthy (FilterOperator.E mq) h l) eqn:Htq; rewrite ?Htq in Hfq.
      * erewrite drive_cons
          by (erewrite apply_cons by exact Hfp; cbn beta iota;
              erewrite apply_cons by exact Hfq; reflexivity).
        cbn beta iota. rewrite (IH Hp Hq). simpl. rewrite <- app_assoc. reflexivity.
      * erewrite drive_cons
          by (erewrite apply_cons by exact Hfp; cbn beta iota;
              erewrite apply_cons by exact Hfq; reflexivity).
        cbn beta iota. apply (IH Hp Hq).
    + erewrite drive_cons by (erewrite apply_cons by exact Hfp; reflexivity).
      cbn beta iota. apply (IH Hp Hq).
Qed.

Lemma filter_ext_in (p q : loc -> bool) (S : list loc) :
  (forall l, p l = q l) -> List.filter p S = List.filter q S.
Proof.
  intros Hext. induction S as [|l S IH]; [reflexivity|].
  simpl. rewrite Hext, IH. reflexivity.
Qed.

(** X5. When both predicates evaluate, with a truthiness, on every
    Environment of the source, two Filter operators in a row keep
    exactly the Environments on which both predicates are truthy, in
    order, and leave the heap as it was; the order of the two operators
    then does not matter, and a Filter applied twice keeps what it keeps
    once. *)
Theorem filter_then_filter (mp mq : FilterOperator.t) (h : Heap) (S : list loc) :
  evaluates_on mp h S -> evaluates_on mq h S ->
  let through (ops : list Operator) :=
    Stream.Iterate {| Stream.source := S; Stream.source_err := None;
                      Stream.operators := ops |} Stream.collect [] h in
  through [FilterOperator.operator mp; FilterOperator.operator mq]
  = Some ((None, Some <$> List.filter
                   (fun l => truthy (FilterOperator.E mp) h l
                             && truthy (FilterOperator.E mq) h l) S), h)
  /\ through [FilterOperator.operator mq; FilterOperator.operator mp]
     = through [FilterOperator.operator mp; FilterOperator.operator mq]
  /\ through [FilterOperator.operator mp; FilterOperator.operator mp]
     = through [FilterOperator.operator mp].
Proof.
  intros Hp Hq through.
  assert (Htwo : forall m1 m2,
            through [FilterOperator.operator m1; FilterOperator.operator m2]
            = Stream.drive [FilterOperator.func m1; FilterOperator.func m2]
                Stream.collect None S [] h) by reflexivity.
  assert (Hone : through [FilterOperator.operator mp]
                 = Stream.drive [FilterOperator.func mp] Stream.collect None S [] h)
    by reflexivity.
  rewrite !Htwo, Hone.
  rewrite (filter_filter_drive mp mq h S Hp Hq []).
  rewrite (filter_filter_drive mq mp h S Hq Hp []).
  rewrite (filter_filter_drive mp mp h S Hp Hp []).
  rewrite (filter_drive mp h S Hp []).
  split; [reflexivity|]. split.
  - rewrite (filter_ext_in
               (fun l => truthy (FilterOperator.E mq) h l
                         && truthy (FilterOperator.E mp) h l)
               (fun l => truthy (FilterOperator.E mp) h l
                         && truthy (FilterOperator.E mq) h l) S)
      by (intros l; apply andb_comm).
    reflexivity.
  - rewrite (filter_ext_in
               (fun l => truthy (FilterOperator.E mp) h l
                         && truthy (FilterOperator.E mp) h l)
               (truthy (FilterOperator.E mp) h) S)
      by (intros l; apply andb_diag).
    reflexivity.
Qed.

(** ** Step functions that rewrite one frame of their own *)

Lemma snapshot_frame (h1 : Heap) (l : loc) (e e' : Environment)
    (seen : list Environment) :
  frames h1 !! l = Some e ->
  snapshot (Some l) seen (with_frame h1 l e')
  = Some ((None, seen ++ [e']), with_frame h1 l e').
Proof.
  intros Hl. unfold snapshot.
  erewrite M_bind_Some
    by (unfold load_Environment; erewrite with_frame_lookup by exact Hl;
        reflexivity).
  reflexivity.
Qed.

Lemma last_cons_default {B : Type} (x : B) (l : list B) (d : B) :
  default d (last (x :: l)) = default x (last l).
Proof.
  destruct l as [|y l]; [reflexivity|].
  rewrite last_cons_cons.
  destruct (last (y :: l)) eqn:Hlast; [reflexivity|].
  apply last_None in Hlast. discriminate.
Qed.

Lemma writer_drive_snapshot (f : OperatorFunc) (h1 : Heap) (newEnv : loc)
    (I : Environment -> Prop) (out : loc -> Environment) (S : list loc) :
  is_Some (frames h1 !! newEnv) ->
  (forall l, I (out l)) ->
  (forall l e0, l ∈ S -> I e0 ->
     f (Some l) (with_frame h1 newEnv e0)
     = Some ((Some newEnv, None), with_frame h1 newEnv (out l))) ->
  forall (e0 : Environment) (seen : list Environment),
    I e0 ->
    Stream.drive [f] snapshot None S seen (with_frame h1 newEnv e0)
    = Some ((None, seen ++ (out <$> S)),
            with_frame h1 newEnv (default e0 (last (out <$> S)))).
Proof.
  intros [e Hnew] Hout. induction S as [|l S IH]; intros Hstep e0 seen He0.
  - simpl. rewrite app_nil_r. reflexivity.
  - cbn [Stream.drive].
    erewrite M_bind_Some
      by (eapply apply_one; apply Hstep; [left | exact He0]).
    cbn beta iota.
    erewrite M_bind_Some by (eapply snapshot_frame; exact Hnew).
    cbn beta iota.
    rewrite (IH (fun l' e' Hin => Hstep l' e' ltac:(right; exact Hin))
               (out l) (seen ++ [out l]) (Hout l)).
    cbn [fmap list_fmap]. rewrite last_cons_default.
    rewrite <- app_assoc. reflexivity.
Qed.

Lemma writer_drive_collect (f : OperatorFunc) (h1 : Heap) (newEnv : loc)
    (I : Environment -> Prop) (out : loc -> Environment) (S : list loc) :
  (forall l, I (out l)) ->
  (forall l e0, l ∈ S -> I e0 ->
     f (Some l) (with_frame h1 newEnv e0)
     = Some ((Some newEnv, None), with_frame h1 newEnv (out l))) ->
  forall (e0 : Environment) (seen : list ptr),
    I e0 ->
    Stream.drive [f] Stream.collect None S seen (with_frame h1 newEnv e0)
    = Some ((None, seen ++ replicate (length S) (Some newEnv)),
            with_frame h1 newEnv (default e0 (last (out <$> S)))).
Proof.
  intros Hout. induction S as [|l S IH]; intros Hstep e0 seen He0.
  - simpl. rewrite app_nil_r. reflexivity.
  - erewrite drive_one_collect by (apply Hstep; [left | exact He0]).
    rewrite (IH (fun l' e' Hin => Hstep l' e' ltac:(right; exact Hin))
               (out l) (seen ++ [Some newEnv]) (Hout l)).
    cbn [fmap list_fmap length replicate]. rewrite last_cons_default.
    rewrite <- app_assoc. reflexivity.
Qed.

(** ** GroupBy over a sequence *)

Lemma groupby_func_error (op : GroupByOperator.t) (newEnv : loc) (env : ptr)
    (h : Heap) (err : error) :
  Eval (GroupByOperator.E op) h env = Error err ->
  GroupByOperator.func op newEnv env h = Some ((None, Some err), h).
Proof.
  intros He. unfold GroupByOperator.func, M_bind, Expr_Eval.
  rewrite He. reflexivity.
Qed.

Lemma groupby_func_never_filters (op : GroupByOperator.t) (newEnv : loc)
    (env : ptr) (h h' : Heap) :
  GroupByOperator.func op newEnv env h <> Some ((None, None), h').
Proof.
  unfold GroupByOperator.func, M_bind, Expr_Eval.
  destruct (Eval (GroupByOperator.E op) h env) as [v|err]; [|discriminate].
  unfold Environment_Set, Environment_set_Outer, update_Environment.
  destruct (frames h !! newEnv) as [e0|]; [|discriminate].
  simpl. destruct (<[newEnv:=_]> (frames h) !! newEnv); discriminate.
Qed.

(** X6. GroupBy annotates and does nothing else.  Its step function never
    suppresses an Environment; an evaluation error is returned as it is,
    with no Environment and the heap untouched, so that an expression
    failing with the stream-closed sentinel ends the traversal there,
    without error; over a source sequence [S] on which the expression
    evaluates, the callback is handed one frame per item, in order, that
    binds the item's key under the group name, has no current value of its
    own and has the item as outer frame. *)
Theorem groupby_annotates_each_item (op : GroupByOperator.t) (h : Heap)
    (keys : loc -> Value) (S : list loc) :
  (forall l e0, l ∈ S ->
     Eval (GroupByOperator.E op)
       (with_frame (with_new_frame h) (length (frames h)) e0) (Some l)
     = Ok (keys l)) ->
  exists f : OperatorFunc,
    GroupByOperator.Op op h = Some (Ok f, with_new_frame h) /\
    (forall env h2 err,
       Eval (GroupByOperator.E op) h2 env = Error err ->
       f env h2 = Some ((None, Some err), h2)) /\
    (forall env h2 h3, f env h2 <> Some ((None, None), h3)) /\
    (forall (U : Type) (fn : Stream.callback U) (ending : option error)
            (l : loc) (items : list loc) (u : U) (h2 : Heap),
       Eval (GroupByOperator.E op) h2 (Some l) = Error ErrStreamClosed ->
       Stream.drive [f] fn ending (l :: items) u h2 = Some ((None, u), h2)) /\
    (exists h2,
       Stream.drive [f] snapshot None S [] (with_new_frame h)
       = Some ((None,
                (fun l => {| Vars := <[groupEnvKey := keys l]> ∅;
                             V := None; Outer := Some l |}) <$> S),
               h2)).
Proof.
  intros Hall. exists (GroupByOperator.func op (length (frames h))).
  pose proof (with_new_frame_lookup h) as Hnew.
  split; [reflexivity|].
  split; [intros env h2 err He; apply groupby_func_error; exact He|].
  split; [intros env h2 h3; apply groupby_func_never_filters|].
  split.
  { intros U fn ending l items u h2 He.
    apply drive_one_closed. apply groupby_func_error. exact He. }
  eexists.
  rewrite <- (with_frame_same _ _ _ Hnew) at 1.
  rewrite (writer_drive_snapshot _ _ _
             (fun e0 => (forall key, <[groupEnvKey := key]> (Vars e0)
                                     = <[groupEnvKey := key]> ∅)
                        /\ V e0 = None)
             (fun l => {| Vars := <[groupEnvKey := keys l]> ∅;
                          V := None; Outer := Some l |}) S).
  - reflexivity.
  - eexists. exact Hnew.
  - intros l. split; [|reflexivity].
    intros key. simpl. apply insert_insert_eq.
  - intros l e0 Hin [Hvars Hv].
    rewrite (groupby_func_ok op _ (Some l) _ (keys l) e0 (Hall l e0 Hin))
      by (eapply with_frame_lookup; exact Hnew).
    rewrite with_frame_twice, Hvars, Hv. reflexivity.
  - split; [intros key; reflexivity | reflexivity].
Qed.

(** X7. Map hands out one frame.  Over a source sequence [S] on which the
    expression evaluates, every Environment pointer the callback receives
    is the same pointer, and once the traversal is over the frame behind it
    holds the value and the outer frame of the last item only: a callback
    that keeps the pointers keeps [|S|] aliases of the last output. *)
Theorem map_outputs_alias (m : MapOperator.t) (h : Heap)
    (vals : loc -> Value) (S : list loc) :
  (forall l e0, l ∈ S ->
     Eval (MapOperator.E m)
       (with_frame (with_new_frame h) (length (frames h)) e0) (Some l)
     = Ok (vals l)) ->
  exists (f : OperatorFunc) (newEnv : loc) (h2 : Heap),
    MapOperator.Op m h = Some (Ok f, with_new_frame h) /\
    Stream.drive [f] Stream.collect None S [] (with_new_frame h)
    = Some ((None, replicate (length S) (Some newEnv)), h2) /\
    (forall pre l, S = pre ++ [l] ->
       frames h2 !! newEnv
       = Some {| Vars := ∅; V := Some (vals l); Outer := Some l |}).
Proof.
  intros Hall.
  pose proof (with_new_frame_lookup h) as Hnew.
  exists (MapOperator.func m (length (frames h))), (length (frames h)).
  eexists. split; [reflexivity|].
  rewrite <- (with_frame_same _ _ _ Hnew) at 1.
  rewrite (writer_drive_collect _ _ _ (fun e0 => Vars e0 = ∅)
             (fun l => {| Vars := ∅; V := Some (vals l); Outer := Some l |}) S).
  - split; [reflexivity|].
    intros pre l ->. rewrite fmap_app. change (?g <$> [l]) with [g l].
    rewrite last_snoc. simpl default.
    eapply with_frame_lookup. exact Hnew.
  - reflexivity.
  - intros l e0 Hin Hvars.
    rewrite (map_func_ok m _ (Some l) _ (vals l) e0 (Hall l e0 Hin))
      by (eapply with_frame_lookup; exact Hnew).
    rewrite with_frame_twice, Hvars. reflexivity.
  - reflexivity.
Qed.

(** ** Reduce after construction *)

Lemma reduce_func_rewrites (newEnv : loc) (env : ptr) (h : Heap) (a : Value)
    (e0 : Environment) :
  is_Some (frames h !! newEnv) ->
  Vars e0 = <[accEnvKey := a]> ∅ ->
  ReduceOperator.func newEnv env (with_frame h newEnv e0)
  = Some ((Some newEnv, None),
          with_frame h newEnv
            {| Vars := <[accEnvKey := a]> ∅; V := Some a; Outer := env |}).
Proof.
  intros [e Hnew] Hvars.
  rewrite (reduce_func_ok newEnv env _ e0 a).
  - rewrite with_frame_twice, Hvars. reflexivity.
  - eapply with_frame_lookup. exact Hnew.
  - rewrite Hvars. apply lookup_insert_eq.
Qed.

Lemma reduce_invoke_all (newEnv : loc) (h : Heap) (a : Value) (envs : list ptr) :
  is_Some (frames h !! newEnv) ->
  forall e0 : Environment,
    Vars e0 = <[accEnvKey := a]> ∅ ->
    invoke_all (ReduceOperator.func newEnv) envs (with_frame h newEnv e0)
    = Some (replicate (length envs) (Some newEnv, None),
            with_frame h newEnv
              (default e0
                 (last ((fun env => {| Vars := <[accEnvKey := a]> ∅;
                                       V := Some a; Outer := env |}) <$> envs)))).
Proof.
  intros Hnew. induction envs as [|env envs IH]; intros e0 Hvars.
  - reflexivity.
  - cbn [invoke_all].
    erewrite M_bind_Some by (apply reduce_func_rewrites; eassumption).
    erewrite M_bind_Some by (apply IH; reflexivity).
    cbn [fmap list_fmap length replicate]. rewrite last_cons_default.
    reflexivity.
Qed.

(** X8. The step function of Reduce can be invoked any number of times:
    every invocation returns the same output frame with the same final
    accumulator as current value, and only the outer reference follows the
    Environment it was last given. *)
Theorem reduce_step_repeats (op : ReduceOperator.t) (h : Heap)
    (items : list loc) (seed a : Value) (envs : list ptr) :
  ReduceOperator.Stream op = source_stream items None ->
  Eval (ReduceOperator.Seed op) (with_new_frame h) (Some (length (frames h)))
  = Ok seed ->
  fold_acc (acc_apply (ReduceOperator.Accumulator op) (with_new_frame h)
              (length (frames h))) seed items = Ok a ->
  exists (f : OperatorFunc) (h1 h2 : Heap),
    ReduceOperator.Op op h = Some (Ok f, h1) /\
    invoke_all f envs h1
    = Some (replicate (length envs) (Some (length (frames h)), None), h2) /\
    (forall pre env, envs = pre ++ [env] ->
       frames h2 !! length (frames h)
       = Some {| Vars := <[accEnvKey := a]> ∅; V := Some a; Outer := env |}).
Proof.
  intros Hs Hseed Hfold.
  pose proof (with_new_frame_lookup h) as Hnew.
  eexists _, _, _.
  split; [apply (reduce_op_source op h items None seed a Hs Hseed Hfold)|].
  rewrite (reduce_invoke_all _ _ a envs) by (eauto || reflexivity).
  split; [reflexivity|].
  intros pre env ->. rewrite fmap_app. change (?g <$> [env]) with [g env].
  rewrite last_snoc. simpl default.
  eapply with_frame_lookup. exact Hnew.
Qed.


Lemma construct_one (op : Operator) (f : OperatorFunc) (h h1 : Heap) :
  Op op h = Some (Ok f, h1) ->
  Stream.construct [op] h = Some (Ok [f], h1).
Proof.
  intros H1. cbn [Stream.construct].
  erewrite M_bind_Some by exact H1. reflexivity.
Qed.


(** ** Closures built by separate calls of [Op] *)

Lemma take_func_others (n : Z) (c : loc) (env : ptr) (h h' : Heap)
    (r : ptr * option error) :
  TakeOperator.func n c env h = Some (r, h') ->
  frames h' = frames h
  /\ forall c', c' <> c -> counters h' !! c' = counters h !! c'.
Proof.
  unfold TakeOperator.func, M_bind, load_int64, store_int64, M_ret.
  destruct (counters h !! c) as [k|] eqn:Hc; [|discriminate].
  destruct (k <? n).
  - rewrite Hc. intros [= <- <-]. split; [reflexivity|].
    intros c' Hne. simpl. apply list_lookup_insert_ne. congruence.
  - intros [= <- <-]. auto.
Qed.

Lemma take_invoke_all_others (n : Z) (c : loc) (envs : list ptr) :
  forall (h h' : Heap) (rs : list (ptr * option error)),
    invoke_all (TakeOperator.func n c) envs h = Some (rs, h') ->
    frames h' = frames h
    /\ forall c', c' <> c -> counters h' !! c' = counters h !! c'.
Proof.
  induction envs as [|env envs IH]; intros h h' rs.
  - intros [= <- <-]. auto.
  - cbn [invoke_all]. unfold M_bind at 1.
    destruct (TakeOperator.func n c env h) as [[r h1]|] eqn:Hstep; [|discriminate].
    unfold M_bind at 1.
    destruct (invoke_all (TakeOperator.func n c) envs h1) as [[rs1 h2]|] eqn:Hrest;
      [|discriminate].
    intros [= <- <-].
    destruct (take_func_others n c env h h1 r Hstep) as [Hf1 Hc1].
    destruct (IH h1 h2 rs1 Hrest) as [Hf2 Hc2].
    split; [congruence|].
    intros c' Hne. rewrite Hc2, Hc1 by exact Hne. reflexivity.
Qed.

(** X11. An operator can be used again.  Each call of [TakeOperator.Op]
    builds a step function with a counter of its own: of two step functions
    built one after the other, by the same operator or by two, each lets
    its full count of Environments through, however many Environments have
    gone through the other in the meantime. *)
Theorem take_closures_independent (m1 m2 : TakeOperator.t) (h : Heap)
    (n1 n2 : Z) (S1 S2 : list loc) :
  count_is (TakeOperator.E m1) h n1 ->
  count_is (TakeOperator.E m2) (count_heap h) n2 ->
  0 <= n1 -> int64_range n1 -> 0 <= n2 -> int64_range n2 ->
  exists (f1 f2 : OperatorFunc) (h2 : Heap),
    TakeOperator.Op m1 h = Some (Ok f1, count_heap h) /\
    TakeOperator.Op m2 (count_heap h) = Some (Ok f2, h2) /\
    (exists rs h3 h4,
       invoke_all f1 (Some <$> S1) h2 = Some (rs, h3) /\
       invoke_all f2 (Some <$> S2) h3
       = Some ((passed <$> take (Z.to_nat n2) S2)
                 ++ replicate (length S2 - Z.to_nat n2) closed, h4)) /\
    (exists rs h3 h4,
       invoke_all f2 (Some <$> S2) h2 = Some (rs, h3) /\
       invoke_all f1 (Some <$> S1) h3
       = Some ((passed <$> take (Z.to_nat n1) S1)
                 ++ replicate (length S1 - Z.to_nat n1) closed, h4)).
Proof.
  intros H1 H2 Hp1 Hr1 Hp2 Hr2.
  destruct (two_counters h) as (Hc1 & Hc2 & Hne).
  eexists _, _, _.
  split; [apply take_op_ok; exact H1|].
  split; [apply take_op_ok; exact H2|].
  split.
  - destruct (take_invoke_all n1 _ S1 Hr1 _ 0 Hc1) as (h3 & Hrun1 & _); [lia|].
    destruct (take_invoke_all_others _ _ _ _ _ _ Hrun1) as [_ Hothers].
    destruct (take_invoke_all n2 (length (counters (count_heap h))) S2 Hr2 h3 0)
      as (h4 & Hrun2 & _).
    { rewrite Hothers by congruence. exact Hc2. }
    { lia. }
    rewrite Z.sub_0_r in Hrun2. eauto.
  - destruct (take_invoke_all n2 _ S2 Hr2 _ 0 Hc2) as (h3 & Hrun2 & _); [lia|].
    destruct (take_invoke_all_others _ _ _ _ _ _ Hrun2) as [_ Hothers].
    destruct (take_invoke_all n1 (length (counters h)) S1 Hr1 h3 0)
      as (h4 & Hrun1 & _).
    { rewrite Hothers by congruence. exact Hc1. }
    { lia. }
    rewrite Z.sub_0_r in Hrun1. eauto.
Qed.

(** ** Where Take ends the traversal *)

Lemma take_drive_cut (n : Z) (c : loc) (S : list loc) :
  int64_range n ->
  forall (h : Heap) (k : Z) (seen : list ptr),
    counters h !! c = Some k -> 0 <= k <= n ->
    n - k < Z.of_nat (length S) ->
    exists h',
      forall (T : list loc) (ending : option error),
        Stream.drive [TakeOperator.func n c] Stream.collect ending (S ++ T) seen h
        = Some ((None, seen ++ (Some <$> take (Z.to_nat (n - k)) S)), h').
Proof.
  intros Hn. induction S as [|l S IH]; intros h k seen Hc Hk Hlen.
  - simpl in Hlen. lia.
  - destruct (Z.eq_dec k n) as [->|Hne].
    + exists h. intros T ending. cbn [app].
      erewrite drive_one_closed by (eapply take_func_closed; [exact Hc | lia]).
      replace (Z.to_nat (n - n)) with 0%nat by lia.
      rewrite take_0. simpl. rewrite app_nil_r. reflexivity.
    + destruct (IH (with_counter h c (k + 1)) (k + 1) (seen ++ [Some l]))
        as (h' & Hrun).
      { eapply with_counter_lookup; eauto. }
      { lia. }
      { simpl in Hlen. lia. }
      exists h'. intros T ending. cbn [app].
      erewrite drive_one_collect by (eapply take_func_pass; [exact Hc | lia]).
      rewrite (int64_incr_exact k n) by (lia || assumption).
      rewrite Hrun.
      replace (Z.to_nat (n - k)) with (Datatypes.S (Z.to_nat (n - (k + 1)))) by lia.
      simpl. rewrite <- app_assoc. reflexivity.
Qed.

Lemma take_drive_short (n : Z) (c : loc) (S : list loc) :
  int64_range n ->
  forall (h : Heap) (k : Z) (seen : list ptr),
    counters h !! c = Some k -> 0 <= k ->
    Z.of_nat (length S) <= n - k ->
    exists h',
      Stream.drive [TakeOperator.func n c] Stream.collect None S seen h
      = Some ((None, seen ++ (Some <$> S)), h').
Proof.
  intros Hn. induction S as [|l S IH]; intros h k seen Hc Hk Hlen.
  - exists h. simpl. rewrite app_nil_r. reflexivity.
  - simpl in Hlen.
    destruct (IH (with_counter h c (k + 1)) (k + 1) (seen ++ [Some l]))
      as (h' & Hrun).
    { eapply with_counter_lookup; eauto. }
    { lia. }
    { lia. }
    exists h'.
    erewrite drive_one_collect by (eapply take_func_pass; [exact Hc | lia]).
    rewrite (int64_incr_exact k n) by (lia || assumption).
    rewrite Hrun. simpl. rewrite <- app_assoc. reflexivity.
Qed.

(** X13. Take ends the traversal at its [(n+1)]th item.  When the source
    has more than [n] items, the traversal returns without error as soon as
    the step function is given the [(n+1)]th: whatever the source holds
    after it, further items or an error of its own, has no effect on the
    result or on the heap.  When the source has at most [n] items and ends
    without error, all of them reach the callback and the traversal ends
    without error. *)
Theorem take_cuts_traversal (m : TakeOperator.t) (h : Heap) (n : Z) (S : list loc) :
  count_is (TakeOperator.E m) h n -> 0 <= n -> int64_range n ->
  exists (f : OperatorFunc) (h1 : Heap),
    TakeOperator.Op m h = Some (Ok f, h1) /\
    (n < Z.of_nat (length S) ->
     exists h2,
       forall (T : list loc) (ending : option error),
         Stream.drive [f] Stream.collect ending (S ++ T) [] h1
         = Some ((None, Some <$> take (Z.to_nat n) S), h2)) /\
    (Z.of_nat (length S) <= n ->
     exists h2,
       Stream.drive [f] Stream.collect None S [] h1
       = Some ((None, Some <$> S), h2)).
Proof.
  intros Hcount Hpos Hrange.
  exists (TakeOperator.func n (length (counters h))), (count_heap h).
  split; [apply take_op_ok; exact Hcount|].
  pose proof (count_heap_counter h) as Hc. split.
  - intros Hlen.
    destruct (take_drive_cut n _ S Hrange _ 0 [] Hc) as (h2 & Hrun); [lia | lia |].
    exists h2. intros T ending. rewrite Hrun, Z.sub_0_r. reflexivity.
  - intros Hlen.
    destruct (take_drive_short n _ S Hrange _ 0 [] Hc) as (h2 & Hrun);
      [lia | lia |].
    exists h2. exact Hrun.
Qed.

(** ** What a derived frame lets through *)

Lemma Environment_Get_outer (newEnv l : loc) (name : string) (h : Heap)
    (out e : Environment) (u : Value) :
  frames h !! newEnv = Some out -> Vars out !! name = None ->
  Outer out = Some l ->
  frames h !! l = Some e -> Vars e !! name = Some u ->
  Environment_Get newEnv name h = Some ((u, None), h).
Proof.
  intros Hout Hmiss Houter Hl Hu. unfold Environment_Get. rewrite Hout.
  pose proof (lookup_lt_Some _ _ _ Hl) as Hlt.
  destruct (length (frames h)) as [|k] eqn:Hlen; [lia|].
  cbn [lookup_chain]. rewrite Hout, Hmiss, Houter, Hl, Hu. reflexivity.
Qed.

(** X14. The frames that Map and GroupBy hand on keep the row in scope.
    After a step on an incoming Environment, a name that the incoming
    Environment binds is found by a lookup from the output frame with the
    incoming binding, for every name through Map's frame, which binds
    nothing, and for every name but the group name through GroupBy's. *)
Theorem derived_frames_keep_row_in_scope (m : MapOperator.t)
    (g : GroupByOperator.t) (newEnv l : loc) (name : string) (h : Heap)
    (e0 e : Environment) (u vm vg : Value) :
  frames h !! newEnv = Some e0 -> Vars e0 !! name = None ->
  l <> newEnv -> frames h !! l = Some e -> Vars e !! name = Some u ->
  Eval (MapOperator.E m) h (Some l) = Ok vm ->
  Eval (GroupByOperator.E g) h (Some l) = Ok vg ->
  (exists h',
     MapOperator.func m newEnv (Some l) h = Some ((Some newEnv, None), h') /\
     Environment_Get newEnv name h' = Some ((u, None), h')) /\
  (name <> groupEnvKey ->
   exists h',
     GroupByOperator.func g newEnv (Some l) h = Some ((Some newEnv, None), h') /\
     Environment_Get newEnv name h' = Some ((u, None), h')).
Proof.
  intros Hnew Hmiss Hne Hl Hu Hm Hg. split.
  - eexists. split; [apply (map_func_ok m newEnv (Some l) h vm e0 Hm Hnew)|].
    eapply Environment_Get_outer.
    + eapply with_frame_lookup. exact Hnew.
    + exact Hmiss.
    + reflexivity.
    + rewrite with_frame_lookup_ne by congruence. exact Hl.
    + exact Hu.
  - intros Hname.
    eexists. split; [apply (groupby_func_ok g newEnv (Some l) h vg e0 Hg Hnew)|].
    eapply Environment_Get_outer.
    + eapply with_frame_lookup. exact Hnew.
    + simpl. rewrite lookup_insert_ne by congruence. exact Hmiss.
    + reflexivity.
    + rewrite with_frame_lookup_ne by congruence. exact Hl.
    + exact Hu.
Qed.

(** ** Reduce over a grouped stream *)

Lemma with_frame_swap (h : Heap) (l1 l2 : loc) (e1 e2 : Environment) :
  l1 <> l2 ->
  with_frame (with_frame h l1 e1) l2 e2 = with_frame (with_frame h l2 e2) l1 e1.
Proof.
  intros Hne. unfold with_frame. simpl.
  rewrite list_insert_insert_ne by congruence. reflexivity.
Qed.

Lemma with_two_new_frames_lookup (h : Heap) :
  frames (with_two_new_frames h) !! length (frames h) = Some zero_Environment
  /\ frames (with_two_new_frames h) !! Datatypes.S (length (frames h))
     = Some zero_Environment.
Proof.
  unfold with_two_new_frames. simpl. split.
  - rewrite lookup_app_l by (rewrite length_app; simpl; lia).
    apply list_lookup_middle. reflexivity.
  - apply list_lookup_middle. rewrite length_app. simpl. lia.
Qed.

Lemma groupby_alloc_after_seed (h : Heap) (x : Environment) :
  with_new_frame (with_frame (with_new_frame h) (length (frames h)) x)
  = with_frame
      (with_frame (with_two_new_frames h) (Datatypes.S (length (frames h)))
         zero_Environment)
      (length (frames h)) x
  /\ length (frames (with_frame (with_new_frame h) (length (frames h)) x))
     = Datatypes.S (length (frames h)).
Proof.
  destruct (with_two_new_frames_lookup h) as [_ Hg].
  split.
  - rewrite (with_frame_same _ _ _ Hg).
    unfold with_frame, with_new_frame, with_two_new_frames. simpl. f_equal.
    rewrite (insert_app_l (frames h ++ [zero_Environment]) [zero_Environment])
      by (rewrite length_app; simpl; lia).
    reflexivity.
  - simpl. rewrite length_insert, length_app. simpl. lia.
Qed.

Lemma grouped_drain (gop : GroupByOperator.t) (rop : ReduceOperator.t)
    (h : Heap) (keys : loc -> Value) (items : list loc) :
  let newEnv := length (frames h) in
  let groupEnv := Datatypes.S (length (frames h)) in
  (forall l x y, l ∈ items ->
     Eval (GroupByOperator.E gop)
       (with_frame (with_frame (with_two_new_frames h) groupEnv y) newEnv x)
       (Some l) = Ok (keys l)) ->
  forall (a a' : Value) (outer : ptr) (y : Environment),
    (forall key, <[groupEnvKey := key]> (Vars y) = <[groupEnvKey := key]> ∅) ->
    V y = None ->
    fold_acc
      (fun a item =>
         acc_apply (ReduceOperator.Accumulator rop)
           (with_frame (with_two_new_frames h) groupEnv
              (group_frame (keys item) item))
           newEnv a groupEnv)
      a items = Ok a' ->
    exists outer' y',
      Stream.drive [GroupByOperator.func gop groupEnv]
        (ReduceOperator.accumulate rop newEnv) None items tt
        (with_frame (with_frame (with_two_new_frames h) groupEnv y) newEnv
           (acc_frame a outer))
      = Some ((None, tt),
              with_frame (with_frame (with_two_new_frames h) groupEnv y') newEnv
                (acc_frame a' outer')).
Proof.
  intros newEnv groupEnv.
  destruct (with_two_new_frames_lookup h) as [Hn Hg].
  fold newEnv in Hn. fold groupEnv in Hg.
  assert (Hne : groupEnv <> newEnv) by (unfold groupEnv, newEnv; lia).
  induction items as [|item items IH]; intros Hkey a a' outer y Hvars Hv Hfold.
  - simpl in Hfold. injection Hfold as <-. exists outer, y. reflexivity.
  - cbn [fold_acc] in Hfold.
    destruct (acc_apply (ReduceOperator.Accumulator rop)
                (with_frame (with_two_new_frames h) groupEnv
                   (group_frame (keys item) item)) newEnv a groupEnv)
      as [a1|] eqn:Hstep; [|discriminate].
    cbn [Stream.drive].
    erewrite M_bind_Some.
    2:{ eapply apply_one.
        rewrite (with_frame_swap _ groupEnv newEnv) by exact Hne.
        apply (groupby_func_ok gop groupEnv (Some item) _ (keys item) y).
        - rewrite <- (with_frame_swap _ groupEnv newEnv) by exact Hne.
          apply Hkey. left.
        - eapply with_frame_lookup.
          rewrite with_frame_lookup_ne by congruence. exact Hg. }
    cbn beta iota.
    rewrite with_frame_twice, Hvars, Hv.
    change {| Vars := <[groupEnvKey:=keys item]> ∅; V := None; Outer := Some item |}
      with (group_frame (keys item) item).
    rewrite <- (with_frame_swap _ groupEnv newEnv) by exact Hne.
    erewrite M_bind_Some.
    2:{ eapply accumulate_ok; [|exact Hstep].
        rewrite with_frame_lookup_ne by exact Hne. exact Hn. }
    cbn beta iota.
    apply (IH (fun l x y0 Hin => Hkey l x y0 ltac:(right; exact Hin))
             a1 a' (Some groupEnv) (group_frame (keys item) item)).
    + intros key. simpl. apply insert_insert_eq.
    + reflexivity.
    + exact Hfold.
Qed.

(** X15. Reduce over a stream that GroupBy has annotated still folds the
    whole stream into one accumulator.  With a GroupBy as the only operator
    of the sub-stream, [ReduceOperator.Op] gives the accumulator expression
    each item in turn, seen through GroupBy's frame that binds the item's
    key, and the step function returns the single value of that fold over
    all the items, whatever their keys are. *)
Theorem reduce_after_groupby_is_one_fold (gop : GroupByOperator.t)
    (rop : ReduceOperator.t) (h : Heap) (keys : loc -> Value)
    (items : list loc) (seed a : Value) :
  ReduceOperator.Stream rop
  = {| Stream.source := items; Stream.source_err := None;
       Stream.operators := [GroupByOperator.operator gop] |} ->
  Eval (ReduceOperator.Seed rop) (with_new_frame h) (Some (length (frames h)))
  = Ok seed ->
  (forall l x y, l ∈ items ->
     Eval (GroupByOperator.E gop)
       (with_frame
          (with_frame (with_two_new_frames h) (Datatypes.S (length (frames h))) y)
          (length (frames h)) x)
       (Some l) = Ok (keys l)) ->
  fold_acc
    (fun a item =>
       acc_apply (ReduceOperator.Accumulator rop)
         (with_frame (with_two_new_frames h) (Datatypes.S (length (frames h)))
            (group_frame (keys item) item))
         (length (frames h)) a (Datatypes.S (length (frames h))))
    seed items = Ok a ->
  exists (f : OperatorFunc) (h1 : Heap),
    ReduceOperator.Op rop h = Some (Ok f, h1) /\
    (forall env : ptr, exists h2 out,
       f env h1 = Some ((Some (length (frames h)), None), h2) /\
       frames h2 !! length (frames h) = Some out /\
       V out = Some a /\ Outer out = env).
Proof.
  intros Hs Hseed Hkey Hfold.
  destruct (with_two_new_frames_lookup h) as [Hn Hg].
  destruct (groupby_alloc_after_seed h (acc_frame seed None)) as [Halloc Hlen].
  destruct (grouped_drain gop rop h keys items Hkey seed a None zero_Environment)
    as (outer' & y' & Hdrain); [intros key; reflexivity | reflexivity | exact Hfold |].
  eexists _, _. split.
  - rewrite reduce_op_unfold, Hseed, Hs. unfold Stream.Iterate.
    cbn [Stream.operators Stream.source Stream.source_err].
    erewrite M_bind_Some.
    2:{ apply construct_one. cbn [Op GroupByOperator.operator].
        unfold GroupByOperator.Op.
        erewrite M_bind_Some by reflexivity. reflexivity. }
    cbn beta iota.
    change {| frames := frames (with_frame (with_new_frame h) (length (frames h))
                                  (acc_frame seed None)) ++ [zero_Environment];
              counters := counters (with_frame (with_new_frame h) (length (frames h))
                                      (acc_frame seed None)) |}
      with (with_new_frame (with_frame (with_new_frame h) (length (frames h))
                              (acc_frame seed None))).
    rewrite Halloc, Hlen, Hdrain. reflexivity.
  - intros env. eexists _, _.
    split.
    + apply (reduce_func_after_drain _ env _ zero_Environment).
      rewrite with_frame_lookup_ne by lia. exact Hn.
    + split.
      * eapply with_frame_lookup.
        rewrite with_frame_lookup_ne by lia. exact Hn.
      * split; reflexivity.
Qed.

End Composition.

(** * The renderings of the operators *)

Section Renderings.

Context `{EF : ExprFormat}.

Lemma list_ascii_of_string_app (a b : string) :
  String.list_ascii_of_string (a +:+ b)
  = String.list_ascii_of_string a ++ String.list_ascii_of_string b.
Proof.
  induction a as [|c a IH]; [reflexivity|].
  simpl. rewrite IH. reflexivity.
Qed.

Lemma string_app_inv_tail (a b c : string) : a +:+ c = b +:+ c -> a = b.
Proof.
  intros Heq. apply (f_equal String.list_ascii_of_string) in Heq.
  rewrite !list_ascii_of_string_app in Heq. apply app_inv_tail in Heq.
  rewrite <- (String.string_of_list_ascii_of_string a).
  rewrite <- (String.string_of_list_ascii_of_string b).
  rewrite Heq. reflexivity.
Qed.

(** X16. The text an operator prints tells what the operator is: the
    renderings of a Map, a Filter, a Take, a Skip, a GroupBy and a Reduce
    are six different texts whatever their expressions are, and two
    operators of one of the five one-expression kinds that print the same
    text have expressions that print the same text. *)
Theorem renderings_tell_operators_apart :
  (forall (m : MapOperator.t) (f : FilterOperator.t) (t : TakeOperator.t)
          (s : SkipOperator.t) (g : GroupByOperator.t) (r : ReduceOperator.t),
     NoDup [MapOperator_String m; FilterOperator_String f; TakeOperator_String t;
            SkipOperator_String s; GroupByOperator_String g;
            ReduceOperator_String r]) /\
  (forall m m', MapOperator_String m = MapOperator_String m' ->
                Sprint_s (MapOperator.E m) = Sprint_s (MapOperator.E m')) /\
  (forall m m', FilterOperator_String m = FilterOperator_String m' ->
                Sprint_s (FilterOperator.E m) = Sprint_s (FilterOperator.E m')) /\
  (forall m m', TakeOperator_String m = TakeOperator_String m' ->
                Sprint_s (TakeOperator.E m) = Sprint_s (TakeOperator.E m')) /\
  (forall m m', SkipOperator_String m = SkipOperator_String m' ->
                Sprint_s (SkipOperator.E m) = Sprint_s (SkipOperator.E m')) /\
  (forall m m', GroupByOperator_String m = GroupByOperator_String m' ->
                Sprint_s (GroupByOperator.E m) = Sprint_s (GroupByOperator.E m')).
Proof.
  split.
  - intros m f t s g r.
    unfold MapOperator_String, FilterOperator_String, TakeOperator_String,
      SkipOperator_String, GroupByOperator_String, ReduceOperator_String.
    repeat (apply NoDup_cons; split;
            [rewrite ?elem_of_cons, elem_of_nil; simpl; intuition discriminate|]).
    apply NoDup_nil_2.
  - repeat split; intros m m' Heq;
      unfold MapOperator_String, FilterOperator_String, TakeOperator_String,
        SkipOperator_String, GroupByOperator_String in Heq;
      simpl in Heq; injection Heq as Heq;
      apply (string_app_inv_tail _ _ ")"); exact Heq.
Qed.

End Renderings.

(** * Further concrete runs *)

(** The rows 1 to 5 through [skip(1)] and [take(2)]: the second and third. *)
Lemma skip_then_take_run :
  exists h',
    Stream.Iterate
      {| Stream.source := [0; 1; 2; 3; 4]%nat; Stream.source_err := None;
         Stream.operators :=
           [SkipOperator.operator (VM := Sample.methods)
              (Skip (Sample.lit (NewIntegerValue 1)));
            TakeOperator.operator (VM := Sample.methods)
              (Take (Sample.lit (NewIntegerValue 2)))] |}
      Stream.collect [] (Sample.rows [1; 2; 3; 4; 5])
    = Some ((None, [Some 1; Some 2]%nat), h').
Proof.
  apply (skip_then_take (VM := Sample.methods)
           (Skip (Sample.lit (NewIntegerValue 1)))
           (Take (Sample.lit (NewIntegerValue 2)))
           (Sample.rows [1; 2; 3; 4; 5]) 1 2 [0; 1; 2; 3; 4]%nat).
  - exists (NewIntegerValue 1). split; [reflexivity | left; reflexivity].
  - exists (NewIntegerValue 2). split; [reflexivity | left; reflexivity].
  - unfold int64_range, int64_min, int64_max. lia.
  - unfold int64_range, int64_min, int64_max. lia.
Defined.

(** The rows 1 to 5 through [take(2)] and [skip(1)]: the second only. *)
Lemma take_then_skip_run :
  exists h',
    Stream.Iterate
      {| Stream.source := [0; 1; 2; 3; 4]%nat; Stream.source_err := None;
         Stream.operators :=
           [TakeOperator.operator (VM := Sample.methods)
              (Take (Sample.lit (NewIntegerValue 2)));
            SkipOperator.operator (VM := Sample.methods)
              (Skip (Sample.lit (NewIntegerValue 1)))] |}
      Stream.collect [] (Sample.rows [1; 2; 3; 4; 5])
    = Some ((None, [Some 1%nat]), h').
Proof.
  apply (take_then_skip (VM := Sample.methods)
           (Take (Sample.lit (NewIntegerValue 2)))
           (Skip (Sample.lit (NewIntegerValue 1)))
           (Sample.rows [1; 2; 3; 4; 5]) 2 1 [0; 1; 2; 3; 4]%nat).
  - exists (NewIntegerValue 2). split; [reflexivity | left; reflexivity].
  - exists (NewIntegerValue 1). split; [reflexivity | left; reflexivity].
  - unfold int64_range, int64_min, int64_max. lia.
  - unfold int64_range, int64_min, int64_max. lia.
Defined.

(** [take(4)] then [take(2)] over five rows: the first two. *)
Lemma take_then_take_run :
  exists h',
    Stream.Iterate
      {| Stream.source := [0; 1; 2; 3; 4]%nat; Stream.source_err := None;
         Stream.operators :=
           [TakeOperator.operator (VM := Sample.methods)
              (Take (Sample.lit (NewIntegerValue 4)));
            TakeOperator.operator (VM := Sample.methods)
              (Take (Sample.lit (NewIntegerValue 2)))] |}
      Stream.collect [] (Sample.rows [1; 2; 3; 4; 5])
    = Some ((None, [Some 0; Some 1]%nat), h').
Proof.
  apply (take_then_take (VM := Sample.methods)
           (Take (Sample.lit (NewIntegerValue 4)))
           (Take (Sample.lit (NewIntegerValue 2)))
           (Sample.rows [1; 2; 3; 4; 5]) 4 2 [0; 1; 2; 3; 4]%nat).
  - exists (NewIntegerValue 4). split; [reflexivity | left; reflexivity].
  - exists (NewIntegerValue 2). split; [reflexivity | left; reflexivity].
  - unfold int64_range, int64_min, int64_max. lia.
  - unfold int64_range, int64_min, int64_max. lia.
Defined.

(** [skip(1)] then [skip(-7)] then nothing more: a negative count skips
    nothing, the last four rows remain. *)
Lemma skip_then_skip_run :
  exists h',
    Stream.Iterate
      {| Stream.source := [0; 1; 2; 3; 4]%nat; Stream.source_err := None;
         Stream.operators :=
           [SkipOperator.operator (VM := Sample.methods)
              (Skip (Sample.lit (NewIntegerValue 1)));
            SkipOperator.operator (VM := Sample.methods)
              (Skip (Sample.lit (NewIntegerValue (-7))))] |}
      Stream.collect [] (Sample.rows [1; 2; 3; 4; 5])
    = Some ((None, [Some 1; Some 2; Some 3; Some 4]%nat), h').
Proof.
  apply (skip_then_skip (VM := Sample.methods)
           (Skip (Sample.lit (NewIntegerValue 1)))
           (Skip (Sample.lit (NewIntegerValue (-7))))
           (Sample.rows [1; 2; 3; 4; 5]) 1 (-7) [0; 1; 2; 3; 4]%nat).
  - exists (NewIntegerValue 1). split; [reflexivity | left; reflexivity].
  - exists (NewIntegerValue (-7)). split; [reflexivity | left; reflexivity].
  - unfold int64_range, int64_min, int64_max. lia.
  - unfold int64_range, int64_min, int64_max. lia.
Defined.

(** [filter(x > 1)] and [filter(x > 3)] over the rows 1 to 5, in both
    orders: the last two rows. *)
Lemma filter_then_filter_run :
  let p := Filter (Sample.gt Sample.current 1) in
  let q := Filter (Sample.gt Sample.current 3) in
  let through (ops : list Operator) :=
    Stream.Iterate {| Stream.source := [0; 1; 2; 3; 4]%nat;
                      Stream.source_err := None;
                      Stream.operators := ops |}
      Stream.collect [] (Sample.rows [1; 2; 3; 4; 5]) in
  through [FilterOperator.operator (VM := Sample.methods) p;
           FilterOperator.operator (VM := Sample.methods) q]
  = Some ((None, [Some 3; Some 4]%nat), Sample.rows [1; 2; 3; 4; 5])
  /\ through [FilterOperator.operator (VM := Sample.methods) q;
              FilterOperator.operator (VM := Sample.methods) p]
     = through [FilterOperator.operator (VM := Sample.methods) p;
                FilterOperator.operator (VM := Sample.methods) q].
Proof.
  intros p q through.
  destruct (filter_then_filter (VM := Sample.methods) p q
              (Sample.rows [1; 2; 3; 4; 5]) [0; 1; 2; 3; 4]%nat)
    as (Hboth & Hswap & _).
  - intros l Hl.
    repeat (apply elem_of_cons in Hl as [-> | Hl];
            [eexists _, _; split; reflexivity|]).
    apply elem_of_nil in Hl. contradiction.
  - intros l Hl.
    repeat (apply elem_of_cons in Hl as [-> | Hl];
            [eexists _, _; split; reflexivity|]).
    apply elem_of_nil in Hl. contradiction.
  - split; [exact Hboth | exact Hswap].
Defined.

(** Without that condition the order matters.  Over a null row and the
    row 5, [filter(x)] then [filter(x > 3)] drops the null row and keeps
    the other; [filter(x > 3)] first fails on the null row and the
    traversal is aborted. *)
Example filter_order_matters_on_error :
  let p := Filter (Sample.gt Sample.current 3) in
  let q := Filter Sample.current in
  let h := {| frames := [ {| Vars := ∅; V := Some NewNullValue; Outer := None |};
                          {| Vars := ∅; V := Some (NewIntegerValue 5);
                             Outer := None |} ];
              counters := [] |} in
  let through (ops : list Operator) :=
    Stream.Iterate {| Stream.source := [0; 1]%nat; Stream.source_err := None;
                      Stream.operators := ops |} Stream.collect [] h in
  through [FilterOperator.operator (VM := Sample.methods) q;
           FilterOperator.operator (VM := Sample.methods) p]
  = Some ((None, [Some 1%nat]), h)
  /\ through [FilterOperator.operator (VM := Sample.methods) p;
              FilterOperator.operator (VM := Sample.methods) q]
     = Some ((Some (EvaluationError "cannot compare"), []), h).
Proof. split; reflexivity. Qed.

(** [groupBy(x)] over the rows 1, 2, 3: three annotated frames. *)
Lemma groupby_annotates_each_item_run :
  exists (f : OperatorFunc) (h2 : Heap),
    GroupByOperator.Op (GroupBy Sample.current) (Sample.rows [1; 2; 3])
    = Some (Ok f, with_new_frame (Sample.rows [1; 2; 3])) /\
    Stream.drive [f] snapshot None [0; 1; 2]%nat []
      (with_new_frame (Sample.rows [1; 2; 3]))
    = Some ((None,
             [ group_frame (NewIntegerValue 1) 0;
               group_frame (NewIntegerValue 2) 1;
               group_frame (NewIntegerValue 3) 2 ]), h2).
Proof.
  destruct (groupby_annotates_each_item (GroupBy Sample.current)
              (Sample.rows [1; 2; 3])
              (fun l => NewIntegerValue (Z.of_nat l + 1)) [0; 1; 2]%nat)
    as (f & Hop & _ & _ & _ & h2 & Hrun).
  - intros l e0 Hl.
    repeat (apply elem_of_cons in Hl as [-> | Hl]; [reflexivity|]).
    apply elem_of_nil in Hl. contradiction.
  - exists f, h2. split; [exact Hop | exact Hrun].
Defined.

(** [map(x + 10)] over the rows 1, 2, 3: three times the pointer 3, and the
    frame behind it holds 13. *)
Lemma map_outputs_alias_run :
  exists (f : OperatorFunc) (h2 : Heap),
    MapOperator.Op (Map (Sample.add Sample.current (Sample.lit (NewIntegerValue 10))))
      (Sample.rows [1; 2; 3])
    = Some (Ok f, with_new_frame (Sample.rows [1; 2; 3])) /\
    (exists newEnv,
       Stream.drive [f] Stream.collect None [0; 1; 2]%nat []
         (with_new_frame (Sample.rows [1; 2; 3]))
       = Some ((None, [Some newEnv; Some newEnv; Some newEnv]), h2) /\
       frames h2 !! newEnv
       = Some {| Vars := ∅; V := Some (NewIntegerValue 13); Outer := Some 2%nat |}).
Proof.
  destruct (map_outputs_alias
              (Map (Sample.add Sample.current (Sample.lit (NewIntegerValue 10))))
              (Sample.rows [1; 2; 3])
              (fun l => NewIntegerValue (Z.of_nat l + 11)) [0; 1; 2]%nat)
    as (f & newEnv & h2 & Hop & Hrun & Hlast).
  - intros l e0 Hl.
    repeat (apply elem_of_cons in Hl as [-> | Hl]; [reflexivity|]).
    apply elem_of_nil in Hl. contradiction.
  - exists f, h2. split; [exact Hop|]. exists newEnv.
    split; [exact Hrun|]. apply (Hlast [0; 1]%nat 2%nat). reflexivity.
Defined.

(** [reduce(0, _acc + x)] over the rows 1, 2, 3, its step function
    invoked on two of the rows and on [nil]: 6 every time. *)
Lemma reduce_step_repeats_run :
  let op := {| ReduceOperator.Seed := Sample.lit (NewIntegerValue 0);
               ReduceOperator.Accumulator :=
                 Sample.add (Sample.var accEnvKey) Sample.current;
               ReduceOperator.Stream := source_stream [0; 1; 2]%nat None |} in
  exists (f : OperatorFunc) (h1 h2 : Heap),
    ReduceOperator.Op op (Sample.rows [1; 2; 3]) = Some (Ok f, h1) /\
    invoke_all f [Some 0%nat; Some 2%nat; None] h1
    = Some ([(Some 3%nat, None); (Some 3%nat, None); (Some 3%nat, None)], h2) /\
    frames h2 !! 3%nat
    = Some {| Vars := <[accEnvKey := NewIntegerValue 6]> ∅;
              V := Some (NewIntegerValue 6); Outer := None |}.
Proof.
  intros op.
  destruct (reduce_step_repeats op (Sample.rows [1; 2; 3]) [0; 1; 2]%nat
              (NewIntegerValue 0) (NewIntegerValue 6)
              [Some 0%nat; Some 2%nat; None])
    as (f & h1 & h2 & Hop & Hrun & Hlast).
  - reflexivity.
  - reflexivity.
  - vm_compute. reflexivity.
  - exists f, h1, h2. split; [exact Hop|]. split; [exact Hrun|].
    apply (Hlast [Some 0%nat; Some 2%nat] None). reflexivity.
Defined.



(** One [take(2)] operator, two closures: the second still lets two rows
    through after four have gone through the first. *)
Lemma take_closures_independent_run :
  let m := Take (Sample.lit (NewIntegerValue 2)) in
  exists (f1 f2 : OperatorFunc) (h2 h3 h4 : Heap) rs,
    TakeOperator.Op (VM := Sample.methods) m (Sample.rows [1; 2; 3; 4])
    = Some (Ok f1, count_heap (Sample.rows [1; 2; 3; 4])) /\
    TakeOperator.Op (VM := Sample.methods) m (count_heap (Sample.rows [1; 2; 3; 4]))
    = Some (Ok f2, h2) /\
    invoke_all f1 (Some <$> [0; 1; 2; 3]%nat) h2 = Some (rs, h3) /\
    invoke_all f2 (Some <$> [0; 1; 2]%nat) h3
    = Some ([passed 0; passed 1; closed], h4).
Proof.
  intros m.
  destruct (take_closures_independent (VM := Sample.methods) m m
              (Sample.rows [1; 2; 3; 4]) 2 2 [0; 1; 2; 3]%nat [0; 1; 2]%nat)
    as (f1 & f2 & h2 & Hop1 & Hop2 & (rs & h3 & h4 & Hrun1 & Hrun2) & _).
  - exists (NewIntegerValue 2). split; [reflexivity | left; reflexivity].
  - exists (NewIntegerValue 2). split; [reflexivity | left; reflexivity].
  - lia.
  - unfold int64_range, int64_min, int64_max. lia.
  - lia.
  - unfold int64_range, int64_min, int64_max. lia.
  - exists f1, f2, h2, h3, h4, rs. auto.
Defined.

(** [take(1)] over a source of two rows that then fails: the failure is
    never seen. *)
Lemma take_cuts_traversal_run :
  exists (f : OperatorFunc) (h1 h2 : Heap),
    TakeOperator.Op (VM := Sample.methods) (Take (Sample.lit (NewIntegerValue 1)))
      (Sample.rows [1; 2; 3]) = Some (Ok f, h1) /\
    Stream.drive [f] Stream.collect (Some (EvaluationError "disk"))
      [0; 1; 2]%nat [] h1
    = Some ((None, [Some 0%nat]), h2).
Proof.
  destruct (take_cuts_traversal (VM := Sample.methods)
              (Take (Sample.lit (NewIntegerValue 1))) (Sample.rows [1; 2; 3])
              1 [0; 1]%nat) as (f & h1 & Hop & Hcut & _).
  - exists (NewIntegerValue 1). split; [reflexivity | left; reflexivity].
  - lia.
  - unfold int64_range, int64_min, int64_max. lia.
  - destruct Hcut as (h2 & Hrun); [simpl; lia|].
    exists f, h1, h2. split; [exact Hop|].
    apply (Hrun [2%nat] (Some (EvaluationError "disk"))).
Defined.

(** A row that binds ["city"]: the binding is found from Map's and from
    GroupBy's output frame. *)
Lemma derived_frames_keep_row_in_scope_run :
  let row := {| Vars := <["city" := NewTextValue "Oslo"]> ∅;
                V := Some (NewIntegerValue 1); Outer := None |} in
  let h := {| frames := [row; zero_Environment]; counters := [] |} in
  (exists h',
     MapOperator.func (Map Sample.current) 1 (Some 0%nat) h
     = Some ((Some 1%nat, None), h') /\
     Environment_Get 1 "city" h' = Some ((NewTextValue "Oslo", None), h')) /\
  (exists h',
     GroupByOperator.func (GroupBy Sample.current) 1 (Some 0%nat) h
     = Some ((Some 1%nat, None), h') /\
     Environment_Get 1 "city" h' = Some ((NewTextValue "Oslo", None), h')).
Proof.
  intros row h.
  destruct (derived_frames_keep_row_in_scope (Map Sample.current)
              (GroupBy Sample.current) 1 0 "city" h zero_Environment row
              (NewTextValue "Oslo") (NewIntegerValue 1) (NewIntegerValue 1))
    as [Hmap Hgroup]; try reflexivity.
  - discriminate.
  - split; [exact Hmap | apply Hgroup; discriminate].
Defined.

(** The rows 1, 2, 3 grouped by their own value and reduced by
    [_acc + x]: three different keys, one accumulator, 6. *)
Lemma reduce_after_groupby_is_one_fold_run :
  let rop := {| ReduceOperator.Seed := Sample.lit (NewIntegerValue 0);
                ReduceOperator.Accumulator :=
                  Sample.add (Sample.var accEnvKey) Sample.current;
                ReduceOperator.Stream :=
                  {| Stream.source := [0; 1; 2]%nat; Stream.source_err := None;
                     Stream.operators :=
                       [GroupByOperator.operator (GroupBy Sample.current)] |} |} in
  exists (f : OperatorFunc) (h1 h2 : Heap) (out : Environment),
    ReduceOperator.Op rop (Sample.rows [1; 2; 3]) = Some (Ok f, h1) /\
    f None h1 = Some ((Some 3%nat, None), h2) /\
    frames h2 !! 3%nat = Some out /\ V out = Some (NewIntegerValue 6).
Proof.
  intros rop.
  destruct (reduce_after_groupby_is_one_fold (GroupBy Sample.current) rop
              (Sample.rows [1; 2; 3])
              (fun l => NewIntegerValue (Z.of_nat l + 1)) [0; 1; 2]%nat
              (NewIntegerValue 0) (NewIntegerValue 6)) as (f & h1 & Hop & Hstep).
  - reflexivity.
  - reflexivity.
  - intros l x y Hl.
    repeat (apply elem_of_cons in Hl as [-> | Hl]; [reflexivity|]).
    apply elem_of_nil in Hl. contradiction.
  - vm_compute. reflexivity.
  - destruct (Hstep None) as (h2 & out & Hrun & Hout & Hv & _).
    exists f, h1, h2, out. auto.
Defined.
